(** * gpuocelot: basic-block counter instrumentation and memory tracing

    A shallow embedding of

    - [BasicBlockInstrumentor.cpp] (branch lynx): pass selection, static
      analysis of the module, and the reduction of the device counter
      array into the kernel profile;
    - [MemoryTraceGenerator.cpp]: the trace header, the extent of a
      kernel's parameters, the per-instruction event handler and the
      end of a trace session.

    Unsigned machine integers are integers of [Z] reduced modulo their
    width at every operation; vectors are lists, [std::map] is [gmap];
    code that can throw, or read outside a container, returns an
    [outcome]. *)

From Stdlib Require Import ZArith Lia.
From stdpp Require Import base numbers option list gmap strings.

#[local] Open Scope Z_scope.

(** ** Machine integers *)

Module Machine.

Definition wrap (w z : Z) : Z := z mod 2 ^ w.

(** [size_t], [ir::PTXU64] *)
Definition u64 : Z -> Z := wrap 64.
(** [unsigned int], [ir::PTXU32] *)
Definition u32 : Z -> Z := wrap 32.

End Machine.

Import Machine.

(** ** Outcomes of code that can fail *)

Inductive fault : Type :=
  | Exception (what : string)   (* [throw hydrazine::Exception(what)] *)
  | Undefined                   (* undefined behaviour: a read outside a
                                   container, a dereferenced end iterator *)
  | OutOfFuel.                  (* the iteration bound given to a loop was
                                   too small *)

Inductive outcome (A : Type) : Type :=
  | Ok (a : A)
  | Fault (f : fault).

Arguments Ok {A} a.
Arguments Fault {A} f.

#[global] Instance outcome_ret : MRet outcome := fun A a => Ok a.
#[global] Instance outcome_bind : MBind outcome := fun A B k m =>
  match m with
  | Ok a => k a
  | Fault f => Fault f
  end.

(** [v[i]] on a [std::vector] or an array: undefined outside its bounds. *)
Definition at_index {A : Type} (v : list A) (i : Z) : outcome A :=
  if i <? 0 then Fault Undefined
  else match v !! Z.to_nat i with
       | Some a => Ok a
       | None => Fault Undefined
       end.

(** [for (i = i0; cond i; i = next i) body], run for at most [fuel]
    tests of the condition. *)
Fixpoint for_loop {S : Type} (fuel : nat) (cond : Z -> bool) (next : Z -> Z)
    (body : Z -> S -> outcome S) (i : Z) (s : S) : outcome S :=
  match fuel with
  | O => Fault OutOfFuel
  | Datatypes.S fuel' =>
      if cond i
      then s' ← body i s; for_loop fuel' cond next body (next i) s'
      else Ok s
  end.

(** The loop over the values that the loop variable takes, in order. *)
Fixpoint for_each {S : Type} (body : Z -> S -> outcome S) (l : list Z) (s : S)
    : outcome S :=
  match l with
  | [] => Ok s
  | i :: l' => s' ← body i s; for_each body l' s'
  end.

(** Sum of [f] over a list of indices. *)
Definition sumZ (f : Z -> Z) (l : list Z) : Z :=
  foldr (fun i acc => f i + acc) 0 l.

(** What is inserted into a [std::ostream] with [<<]. *)
Inductive item : Type :=
  | Text (s : string)
  | Number (n : Z).

(** The double quote and the line feed of the string literals. *)
Definition dq : string := String (Ascii.ascii_of_nat 34) EmptyString.
Definition nl : string := String (Ascii.ascii_of_nat 10) EmptyString.

(** ** BasicBlockInstrumentor.cpp *)

Module analysis.

(** [enum BasicBlockInstrumentationType]: the values of the enumerators.
    The member [type] is an object of that enumeration; it is not
    initialised by the constructor, so it is kept as its integer value. *)
Definition instructionCount : Z := 0.
Definition executionCount : Z := 1.
Definition memoryIntensity : Z := 2.

(** The pass classes that [createPass] instantiates. *)
Inductive PassClass : Type :=
  | BasicBlockExecutionCountPass
  | DynamicInstructionCountPass
  | MemoryIntensityPass.

Module BasicBlockInstrumentationPass.
Record t : Type := mk {
  class : PassClass;
  entries : Z
}.
End BasicBlockInstrumentationPass.

(** Modelled from the spec: [KernelProfile] is declared in
    PTXInstrumentor.h, which is not part of the sources; it holds two maps
    from block index to accumulated count, the counts taken as [size_t]
    like the counters they add up. *)
Module KernelProfile.
Record t : Type := mk {
  basicBlockExecutionCountMap : gmap Z Z;
  memoryOperationsMap : gmap Z Z
}.
End KernelProfile.

(** What [analyze] reads of a kernel: the size of its dataflow graph and
    the labels of the blocks of its control-flow graph, in order. *)
Module Kernel.
Record t : Type := mk {
  dfg_size : Z;
  cfg : list string
}.
End Kernel.

(** [ir::Module]: [kernels()] is a [std::map] from name to kernel. *)
Module Module_.
Record t : Type := mk {
  kernels : gmap string Kernel.t
}.
End Module_.

Module BasicBlockInstrumentor.

Record t : Type := mk {
  (* members inherited from PTXInstrumentor *)
  kernelName : string;
  threadBlocks : Z;
  threads : Z;
  labels : list string;
  _kernelProfile : KernelProfile.t;
  conditionsMet : bool;
  (* members of BasicBlockInstrumentor *)
  counter : Z;
  basicBlocks : Z;
  entries : Z;
  type : Z
}.

Definition set_conditionsMet (v : bool) (this : t) : t :=
  mk (kernelName this) (threadBlocks this) (threads this) (labels this)
    (_kernelProfile this) v (counter this) (basicBlocks this) (entries this)
    (type this).

Definition set_basicBlocks (v : Z) (this : t) : t :=
  mk (kernelName this) (threadBlocks this) (threads this) (labels this)
    (_kernelProfile this) (conditionsMet this) (counter this) v (entries this)
    (type this).

Definition set_labels (v : list string) (this : t) : t :=
  mk (kernelName this) (threadBlocks this) (threads this) v
    (_kernelProfile this) (conditionsMet this) (counter this)
    (basicBlocks this) (entries this) (type this).

Definition set_entries (v : Z) (this : t) : t :=
  mk (kernelName this) (threadBlocks this) (threads this) (labels this)
    (_kernelProfile this) (conditionsMet this) (counter this)
    (basicBlocks this) v (type this).

Definition set_kernelProfile (v : KernelProfile.t) (this : t) : t :=
  mk (kernelName this) (threadBlocks this) (threads this) (labels this)
    v (conditionsMet this) (counter this) (basicBlocks this) (entries this)
    (type this).

Definition checkConditions (this : t) : t := set_conditionsMet true this.

(** *** analyze *)

(** [module.kernels().find(name)->second]: dereferencing the end iterator
    is undefined. *)
Definition find_kernel (module : Module_.t) (name : string)
    : outcome Kernel.t :=
  match Module_.kernels module !! name with
  | Some kernel => Ok kernel
  | None => Fault Undefined
  end.

(** The loop over all kernels: [basicBlocks += kernel->dfg()->size()], the
    sum formed in [size_t] and stored in an [unsigned int]. *)
Definition add_kernel (basicBlocks : Z) (kernel : string * Kernel.t) : Z :=
  u32 (u64 (basicBlocks + Kernel.dfg_size kernel.2)).

Definition is_boundary (label : string) : bool :=
  String.eqb label "entry" || String.eqb label "exit".

Definition analyze (module : Module_.t) (this : t) : outcome t :=
  this ← (if negb (String.eqb (kernelName this) "")
          then
            kernel ← find_kernel module (kernelName this);
            Ok (set_basicBlocks (u32 (u64 (Kernel.dfg_size kernel - 2))) this)
          else
            Ok (set_basicBlocks
                  (foldl add_kernel 0 (map_to_list (Module_.kernels module)))
                  this));
  kernel ← find_kernel module (kernelName this);
  Ok (set_labels
        (labels this ++ filter (fun l => is_boundary l = false) (Kernel.cfg kernel))
        this).

(** *** The layout of the counter array *)

Section CounterLayout.

Variables (entries basicBlocks threadBlocks threads : Z).

(** Number of counters: the array length in [initialize] (times
    [sizeof(size_t)]) and in [extractResults], as an exact integer. *)
Definition totalElements : Z := entries * basicBlocks * threadBlocks * threads.

(** The same product as the code forms it, in [size_t]. *)
Definition counterElements : Z :=
  u64 (u64 (u64 (entries * basicBlocks) * threads) * threadBlocks).

(** Byte size passed to [cudaMalloc] and [cudaMemset] in [initialize]. *)
Definition counterBytes : Z :=
  u64 (u64 (u64 (u64 (entries * basicBlocks) * threadBlocks) * threads) * 8).

(** The flattened index of the counter of block [b], entry [e], thread
    [t] and thread block [k], as an exact integer:
    [(b * entries * threads) + (k * basicBlocks * threads * entries) + j]
    with [j = t * entries + e]. This is not what [extractResults]
    evaluates: the code forms the sum in [size_t], which is [subscript]
    below, and the two agree only while the number of counters is below
    [2^64]. *)
Definition counterIndex (b e t k : Z) : Z :=
  (b * entries * threads) + (k * basicBlocks * threads * entries)
  + (t * entries + e).

(** The index space of the counters. *)
Definition inIndexSpace (b e t k : Z) : Prop :=
  0 <= b < basicBlocks /\ 0 <= e < entries /\ 0 <= t < threads
  /\ 0 <= k < threadBlocks.

(** The subscript as it is evaluated, every operation in [size_t]. *)
Definition subscript (i k j : Z) : Z :=
  u64 (u64 (u64 (u64 (i * entries) * threads)
            + u64 (u64 (u64 (k * basicBlocks) * threads) * entries))
       + j).

End CounterLayout.

(** *** createPass *)

Definition createPass (this : t)
    : outcome (t * BasicBlockInstrumentationPass.t) :=
  let this := set_entries 1 this in
  r ← (if type this =? executionCount
       then Ok (BasicBlockExecutionCountPass, this)
       else if type this =? instructionCount
       then Ok (DynamicInstructionCountPass, this)
       else if type this =? memoryIntensity
       then Ok (MemoryIntensityPass, set_entries 2 this)
       else Fault (Exception "No basic block instrumentation pass specified!"));
  let '(basicBlockPass, this) := r in
  Ok (this, BasicBlockInstrumentationPass.mk basicBlockPass (entries this)).

(** *** extractResults *)

(** [map[i] += v] on a [std::map]: a missing key is first inserted with
    value 0. *)
Definition add_at (i v : Z) (m : gmap Z Z) : gmap Z Z :=
  <[i := u64 (default 0 (m !! i) + v)]> m.

(** [map[j]] read for printing: inserts 0 for a missing key as well. *)
Definition read_at (j : Z) (m : gmap Z Z) : gmap Z Z * Z :=
  match m !! j with
  | Some v => (m, v)
  | None => (<[j := 0]> m, 0)
  end.

Section ExtractResults.

Variables (fuel : nat) (info : list Z) (this : t).

Let E := entries this.
Let B := basicBlocks this.
Let T := threads this.

(** Body of the innermost loop (lines 123 to 125). *)
Definition accumulate (k i j : Z) (p : KernelProfile.t)
    : outcome KernelProfile.t :=
  x ← at_index info (subscript E B T i k j);
  let exec := add_at i x (KernelProfile.basicBlockExecutionCountMap p) in
  if type this =? memoryIntensity
  then
    y ← at_index info (subscript E B T i k (u64 (j + 1)));
    Ok (KernelProfile.mk exec (add_at i y (KernelProfile.memoryOperationsMap p)))
  else Ok (KernelProfile.mk exec (KernelProfile.memoryOperationsMap p)).

(** The three nested loops (lines 120 to 129). *)
Definition reduce (p : KernelProfile.t) : outcome KernelProfile.t :=
  for_loop fuel (fun k => k <? threadBlocks this) (fun k => u64 (k + 1))
    (fun k =>
       for_loop fuel (fun i => i <? B) (fun i => u64 (i + 1))
         (fun i =>
            for_loop fuel (fun j => j <? u64 (T * E)) (fun j => u64 (j + E))
              (accumulate k i) 0)
         0)
    0 p.

(** Body of the printing loop (lines 132 to 136). *)
Definition print_block (j : Z) (s : KernelProfile.t * list item)
    : outcome (KernelProfile.t * list item) :=
  let '(p, out) := s in
  label ← at_index (labels this) j;
  let '(exec, n) := read_at j (KernelProfile.basicBlockExecutionCountMap p) in
  let out := out ++ [Text dq; Text label; Text (dq +:+ ": "); Number n;
                     Text ", "] in
  let '(mem, out) :=
    if type this =? memoryIntensity
    then let '(mem, n) := read_at j (KernelProfile.memoryOperationsMap p) in
         (mem, out ++ [Number n])
    else (KernelProfile.memoryOperationsMap p, out) in
  Ok (KernelProfile.mk exec mem, out ++ [Text nl]).

(** [info] is the host buffer after the copy from the device (line 106);
    [out] is what the stream already holds. The result is the
    instrumentor, the stream and the returned buffer. *)
Definition extractResults (out : list item)
    : outcome (t * list item * list Z) :=
  let out := out ++
    [Text ("{" +:+ nl +:+ dq +:+ "kernel" +:+ dq +:+ ": ");
     Text (kernelName this); Text ("," +:+ nl);
     Text (nl +:+ dq +:+ "threadBlocks" +:+ dq +:+ ": ");
     Number (threadBlocks this); Text ("," +:+ nl);
     Text (nl +:+ dq +:+ "threads" +:+ dq +:+ ": ");
     Number T; Text ("," +:+ nl);
     Text (nl +:+ dq +:+ "counters" +:+ dq +:+ ": {" +:+ nl)] in
  let cleared := KernelProfile.mk ∅ ∅ in
  p ← reduce cleared;
  s ← for_loop fuel (fun j => j <? B) (fun j => u64 (j + 1)) print_block 0
        (p, out);
  Ok (set_kernelProfile s.1 this,
      s.2 ++ [Text (nl +:+ "}" +:+ nl +:+ "}" +:+ nl)], info).

End ExtractResults.

(** The members hold values of their types: [unsigned int] for the
    three counts, [size_t] for [entries]. *)
Definition representable (this : t) : Prop :=
  0 <= threadBlocks this < 2 ^ 32 /\ 0 <= threads this < 2 ^ 32
  /\ 0 <= basicBlocks this < 2 ^ 32 /\ 0 <= entries this < 2 ^ 64.

(** The counter at a subscript, for sums over the array. *)
Definition counterAt (info : list Z) (i : Z) : Z :=
  default 0 (info !! Z.to_nat i).

(** What [extractResults] is compared with: the sum over all thread
    blocks and threads of entry [e] of block [b], as a [size_t]. *)
Definition reduced (info : list Z) (this : t) (b e : Z) : Z :=
  u64 (sumZ (fun k =>
               sumZ (fun t =>
                       counterAt info
                         (counterIndex (entries this) (basicBlocks this)
                            (threads this) b e t k))
                 (seqZ 0 (threads this)))
         (seqZ 0 (threadBlocks this))).

End BasicBlockInstrumentor.

End analysis.

(** ** MemoryTraceGenerator.cpp *)

(** The enumerations of [ir] that the trace generator switches on. Their
    declarations are not part of the sources; the enumerators the code
    names are kept, the others are gathered in one constructor. *)
Module ir.

Inductive AddressSpace : Type :=
  | AddressSpace_Invalid
  | Const
  | Global
  | Local
  | Param
  | Shared
  | Texture
  | OtherSpace (n : Z).

Inductive Opcode : Type :=
  | Ld
  | St
  | Tex
  | OtherOpcode (n : Z).

(** [ir::Instruction::Architecture] *)
Inductive Architecture : Type :=
  | Unknown
  | KnownISA (n : Z).

Module PTXOperand.
(** [ir::PTXOperand::DataType] *)
Inductive DataType : Type :=
  | TypeSpecifier_invalid
  | s8 | s16 | s32 | s64
  | u8 | u16 | u32 | u64
  | f16 | f32 | f64
  | b8 | b16 | b32 | b64
  | pred.
End PTXOperand.

#[global] Instance AddressSpace_eq_dec : EqDecision AddressSpace.
Proof. solve_decision. Defined.

#[global] Instance Architecture_eq_dec : EqDecision Architecture.
Proof. solve_decision. Defined.

(** [ir::Parameter]: the declared type and the raw values, each the
    eight bytes of the [ValueType] union read as [val_u64]. *)
Module Parameter_.
Record t : Type := mk {
  type : PTXOperand.DataType;
  arrayValues : list Z
}.

(** The narrower members of the union overlay the low bytes of [val_u64]
    (little-endian host). *)
Definition val_u8 (v : Z) : Z := Z.land v (2 ^ 8 - 1).
Definition val_u16 (v : Z) : Z := Z.land v (2 ^ 16 - 1).
Definition val_u32 (v : Z) : Z := Z.land v (2 ^ 32 - 1).
Definition val_u64 (v : Z) : Z := Z.land v (2 ^ 64 - 1).
End Parameter_.

End ir.

Module executive.

Import ir.

Module GlobalMemoryAllocation.
Record t : Type := mk {
  ptr : Z;
  space : AddressSpace;
  size : Z
}.
End GlobalMemoryAllocation.

Module MemoryAllocation.
Record t : Type := mk {
  isa : Architecture;
  ptr : Z;
  size : Z
}.
End MemoryAllocation.

(** The queries of [executive::Executive] that [extent] calls: the two
    allocation tables, looked up by address, and the selected device. *)
Module Executive.
Record t : Type := mk {
  getGlobalMemoryAllocation : Z -> GlobalMemoryAllocation.t;
  getSelected : Z;
  getMemoryAllocation : Z -> Z -> MemoryAllocation.t
}.
End Executive.

(** What the trace generator reads of an [ir::ExecutableKernel]. *)
Module ExecutableKernel.
Record t : Type := mk {
  name : string;
  parameters : list Parameter_.t;
  context : Executive.t;
  maxThreadsPerBlock : Z
}.
End ExecutableKernel.

End executive.

Module trace.

Import ir executive.

(** [TraceFormat], of which this generator writes one. *)
Inductive TraceFormat : Type :=
  | MemoryTraceFormat.

(** [trace::TraceEvent], as far as [event] reads it. *)
Module Instruction.
Record t : Type := mk {
  opcode : Opcode;
  addressSpace : AddressSpace
}.
End Instruction.

Module Dim3.
Record t : Type := mk { x : Z; y : Z; z : Z }.
End Dim3.

Module TraceEvent.
Record t : Type := mk {
  PC : Z;
  instruction : Instruction.t;
  blockId : Dim3.t;
  active : list bool;
  memory_addresses : list Z;
  memory_sizes : list Z
}.
End TraceEvent.

(** [active.count()]: the number of set bits of the mask. *)
Definition count (active : list bool) : Z :=
  foldr (fun (b : bool) n => if b then n + 1 else n) 0 active.

Module Access.
Record t : Type := mk {
  address : Z;
  threadID : Z;
  size : Z
}.
End Access.

Module Event.
Record t : Type := mk {
  PC : Z;
  opcode : Opcode;
  addressSpace : AddressSpace;
  ctaX : Z;
  ctaY : Z;
  ctaZ : Z;
  accesses : list Access.t
}.

(** [Event::Event()] leaves the scalar members unset; they are written
    before they are read. *)
Definition Event : t := mk 0 (OtherOpcode 0) AddressSpace_Invalid 0 0 0 [].

Definition push_back (a : Access.t) (e : t) : t :=
  mk (PC e) (opcode e) (addressSpace e) (ctaX e) (ctaY e) (ctaZ e)
    (accesses e ++ [a]).
End Event.

(** *** The header *)

(** The declaration of [Header] is in MemoryTraceGenerator.h, which is
    not part of the sources; its counters are taken as [ir::PTXU64]. *)
Module Header.

Record t : Type := mk {
  format : TraceFormat;
  blockDimX : Z;
  blockDimY : Z;
  blockDimZ : Z;
  thread_count : Z;
  dynamic_instructions : Z;
  dynamic_operations : Z;
  const_accesses : Z;
  global_accesses : Z;
  local_accesses : Z;
  param_accesses : Z;
  shared_accesses : Z;
  texture_accesses : Z;
  global_min_address : Z;
  global_max_address : Z;
  global_instructions : Z;
  texture_instructions : Z;
  global_bytes : Z;
  shared_bytes : Z;
  texture_bytes : Z;
  global_words : Z;
  texture_words : Z;
  global_extent : Z;
  global_segments : Z;
  halfwarps : Z;
  headerOnly : bool
}.

Definition set_dynamic_instructions (v : Z) (h : t) : t :=
  mk (format h) (blockDimX h) (blockDimY h) (blockDimZ h) (thread_count h) v
    (dynamic_operations h) (const_accesses h) (global_accesses h)
    (local_accesses h) (param_accesses h) (shared_accesses h)
    (texture_accesses h) (global_min_address h) (global_max_address h)
    (global_instructions h) (texture_instructions h) (global_bytes h)
    (shared_bytes h) (texture_bytes h) (global_words h) (texture_words h)
    (global_extent h) (global_segments h) (halfwarps h) (headerOnly h).

Definition set_dynamic_operations (v : Z) (h : t) : t :=
  mk (format h) (blockDimX h) (blockDimY h) (blockDimZ h) (thread_count h)
    (dynamic_instructions h) v (const_accesses h) (global_accesses h)
    (local_accesses h) (param_accesses h) (shared_accesses h)
    (texture_accesses h) (global_min_address h) (global_max_address h)
    (global_instructions h) (texture_instructions h) (global_bytes h)
    (shared_bytes h) (texture_bytes h) (global_words h) (texture_words h)
    (global_extent h) (global_segments h) (halfwarps h) (headerOnly h).

Definition set_const_accesses (v : Z) (h : t) : t :=
  mk (format h) (blockDimX h) (blockDimY h) (blockDimZ h) (thread_count h)
    (dynamic_instructions h) (dynamic_operations h) v (global_accesses h)
    (local_accesses h) (param_accesses h) (shared_accesses h)
    (texture_accesses h) (global_min_address h) (global_max_address h)
    (global_instructions h) (texture_instructions h) (global_bytes h)
    (shared_bytes h) (texture_bytes h) (global_words h) (texture_words h)
    (global_extent h) (global_segments h) (halfwarps h) (headerOnly h).

Definition set_global_accesses (v : Z) (h : t) : t :=
  mk (format h) (blockDimX h) (blockDimY h) (blockDimZ h) (thread_count h)
    (dynamic_instructions h) (dynamic_operations h) (const_accesses h) v
    (local_accesses h) (param_accesses h) (shared_accesses h)
    (texture_accesses h) (global_min_address h) (global_max_address h)
    (global_instructions h) (texture_instructions h) (global_bytes h)
    (shared_bytes h) (texture_bytes h) (global_words h) (texture_words h)
    (global_extent h) (global_segments h) (halfwarps h) (headerOnly h).

Definition set_local_accesses (v : Z) (h : t) : t :=
  mk (format h) (blockDimX h) (blockDimY h) (blockDimZ h) (thread_count h)
    (dynamic_instructions h) (dynamic_operations h) (const_accesses h)
    (global_accesses h) v (param_accesses h) (shared_accesses h)
    (texture_accesses h) (global_min_address h) (global_max_address h)
    (global_instructions h) (texture_instructions h) (global_bytes h)
    (shared_bytes h) (texture_bytes h) (global_words h) (texture_words h)
    (global_extent h) (global_segments h) (halfwarps h) (headerOnly h).

Definition set_param_accesses (v : Z) (h : t) : t :=
  mk (format h) (blockDimX h) (blockDimY h) (blockDimZ h) (thread_count h)
    (dynamic_instructions h) (dynamic_operations h) (const_accesses h)
    (global_accesses h) (local_accesses h) v (shared_accesses h)
    (texture_accesses h) (global_min_address h) (global_max_address h)
    (global_instructions h) (texture_instructions h) (global_bytes h)
    (shared_bytes h) (texture_bytes h) (global_words h) (texture_words h)
    (global_extent h) (global_segments h) (halfwarps h) (headerOnly h).

Definition set_shared_accesses (v : Z) (h : t) : t :=
  mk (format h) (blockDimX h) (blockDimY h) (blockDimZ h) (thread_count h)
    (dynamic_instructions h) (dynamic_operations h) (const_accesses h)
    (global_accesses h) (local_accesses h) (param_accesses h) v
    (texture_accesses h) (global_min_address h) (global_max_address h)
    (global_instructions h) (texture_instructions h) (global_bytes h)
    (shared_bytes h) (texture_bytes h) (global_words h) (texture_words h)
    (global_extent h) (global_segments h) (halfwarps h) (headerOnly h).

Definition set_texture_accesses (v : Z) (h : t) : t :=
  mk (format h) (blockDimX h) (blockDimY h) (blockDimZ h) (thread_count h)
    (dynamic_instructions h) (dynamic_operations h) (const_accesses h)
    (global_accesses h) (local_accesses h) (param_accesses h)
    (shared_accesses h) v (global_min_address h) (global_max_address h)
    (global_instructions h) (texture_instructions h) (global_bytes h)
    (shared_bytes h) (texture_bytes h) (global_words h) (texture_words h)
    (global_extent h) (global_segments h) (halfwarps h) (headerOnly h).

Definition set_global_min_address (v : Z) (h : t) : t :=
  mk (format h) (blockDimX h) (blockDimY h) (blockDimZ h) (thread_count h)
    (dynamic_instructions h) (dynamic_operations h) (const_accesses h)
    (global_accesses h) (local_accesses h) (param_accesses h)
    (shared_accesses h) (texture_accesses h) v (global_max_address h)
    (global_instructions h) (texture_instructions h) (global_bytes h)
    (shared_bytes h) (texture_bytes h) (global_words h) (texture_words h)
    (global_extent h) (global_segments h) (halfwarps h) (headerOnly h).

Definition set_global_max_address (v : Z) (h : t) : t :=
  mk (format h) (blockDimX h) (blockDimY h) (blockDimZ h) (thread_count h)
    (dynamic_instructions h) (dynamic_operations h) (const_accesses h)
    (global_accesses h) (local_accesses h) (param_accesses h)
    (shared_accesses h) (texture_accesses h) (global_min_address h) v
    (global_instructions h) (texture_instructions h) (global_bytes h)
    (shared_bytes h) (texture_bytes h) (global_words h) (texture_words h)
    (global_extent h) (global_segments h) (halfwarps h) (headerOnly h).

Definition set_global_instructions (v : Z) (h : t) : t :=
  mk (format h) (blockDimX h) (blockDimY h) (blockDimZ h) (thread_count h)
    (dynamic_instructions h) (dynamic_operations h) (const_accesses h)
    (global_accesses h) (local_accesses h) (param_accesses h)
    (shared_accesses h) (texture_accesses h) (global_min_address h)
    (global_max_address h) v (texture_instructions h) (global_bytes h)
    (shared_bytes h) (texture_bytes h) (global_words h) (texture_words h)
    (global_extent h) (global_segments h) (halfwarps h) (headerOnly h).

Definition set_texture_instructions (v : Z) (h : t) : t :=
  mk (format h) (blockDimX h) (blockDimY h) (blockDimZ h) (thread_count h)
    (dynamic_instructions h) (dynamic_operations h) (const_accesses h)
    (global_accesses h) (local_accesses h) (param_accesses h)
    (shared_accesses h) (texture_accesses h) (global_min_address h)
    (global_max_address h) (global_instructions h) v (global_bytes h)
    (shared_bytes h) (texture_bytes h) (global_words h) (texture_words h)
    (global_extent h) (global_segments h) (halfwarps h) (headerOnly h).

Definition set_global_bytes (v : Z) (h : t) : t :=
  mk (format h) (blockDimX h) (blockDimY h) (blockDimZ h) (thread_count h)
    (dynamic_instructions h) (dynamic_operations h) (const_accesses h)
    (global_accesses h) (local_accesses h) (param_accesses h)
    (shared_accesses h) (texture_accesses h) (global_min_address h)
    (global_max_address h) (global_instructions h) (texture_instructions h)
    v (shared_bytes h) (texture_bytes h) (global_words h) (texture_words h)
    (global_extent h) (global_segments h) (halfwarps h) (headerOnly h).

Definition set_shared_bytes (v : Z) (h : t) : t :=
  mk (format h) (blockDimX h) (blockDimY h) (blockDimZ h) (thread_count h)
    (dynamic_instructions h) (dynamic_operations h) (const_accesses h)
    (global_accesses h) (local_accesses h) (param_accesses h)
    (shared_accesses h) (texture_accesses h) (global_min_address h)
    (global_max_address h) (global_instructions h) (texture_instructions h)
    (global_bytes h) v (texture_bytes h) (global_words h) (texture_words h)
    (global_extent h) (global_segments h) (halfwarps h) (headerOnly h).

Definition set_texture_bytes (v : Z) (h : t) : t :=
  mk (format h) (blockDimX h) (blockDimY h) (blockDimZ h) (thread_count h)
    (dynamic_instructions h) (dynamic_operations h) (const_accesses h)
    (global_accesses h) (local_accesses h) (param_accesses h)
    (shared_accesses h) (texture_accesses h) (global_min_address h)
    (global_max_address h) (global_instructions h) (texture_instructions h)
    (global_bytes h) (shared_bytes h) v (global_words h) (texture_words h)
    (global_extent h) (global_segments h) (halfwarps h) (headerOnly h).

Definition set_global_words (v : Z) (h : t) : t :=
  mk (format h) (blockDimX h) (blockDimY h) (blockDimZ h) (thread_count h)
    (dynamic_instructions h) (dynamic_operations h) (const_accesses h)
    (global_accesses h) (local_accesses h) (param_accesses h)
    (shared_accesses h) (texture_accesses h) (global_min_address h)
    (global_max_address h) (global_instructions h) (texture_instructions h)
    (global_bytes h) (shared_bytes h) (texture_bytes h) v (texture_words h)
    (global_extent h) (global_segments h) (halfwarps h) (headerOnly h).

Definition set_texture_words (v : Z) (h : t) : t :=
  mk (format h) (blockDimX h) (blockDimY h) (blockDimZ h) (thread_count h)
    (dynamic_instructions h) (dynamic_operations h) (const_accesses h)
    (global_accesses h) (local_accesses h) (param_accesses h)
    (shared_accesses h) (texture_accesses h) (global_min_address h)
    (global_max_address h) (global_instructions h) (texture_instructions h)
    (global_bytes h) (shared_bytes h) (texture_bytes h) (global_words h) v
    (global_extent h) (global_segments h) (halfwarps h) (headerOnly h).

Definition set_global_segments (v : Z) (h : t) : t :=
  mk (format h) (blockDimX h) (blockDimY h) (blockDimZ h) (thread_count h)
    (dynamic_instructions h) (dynamic_operations h) (const_accesses h)
    (global_accesses h) (local_accesses h) (param_accesses h)
    (shared_accesses h) (texture_accesses h) (global_min_address h)
    (global_max_address h) (global_instructions h) (texture_instructions h)
    (global_bytes h) (shared_bytes h) (texture_bytes h) (global_words h)
    (texture_words h) (global_extent h) v (halfwarps h) (headerOnly h).

Definition set_halfwarps (v : Z) (h : t) : t :=
  mk (format h) (blockDimX h) (blockDimY h) (blockDimZ h) (thread_count h)
    (dynamic_instructions h) (dynamic_operations h) (const_accesses h)
    (global_accesses h) (local_accesses h) (param_accesses h)
    (shared_accesses h) (texture_accesses h) (global_min_address h)
    (global_max_address h) (global_instructions h) (texture_instructions h)
    (global_bytes h) (shared_bytes h) (texture_bytes h) (global_words h)
    (texture_words h) (global_extent h) (global_segments h) v (headerOnly h).

Definition Header : t :=
  mk MemoryTraceFormat 0 0 0 0 0 0 0 0 0 0 0 0 0 0 0 0 0 0 0 0 0 0 0 0 false.

Definition access (space : AddressSpace) (bytes : Z) (h : t) : t :=
  match space with
  | Const => set_const_accesses (Machine.u64 (const_accesses h + 1)) h
  | Global =>
      let h := set_global_accesses (Machine.u64 (global_accesses h + 1)) h in
      let h := set_global_bytes (Machine.u64 (global_bytes h + bytes)) h in
      set_global_instructions (Machine.u64 (global_instructions h + 1)) h
  | Local => set_local_accesses (Machine.u64 (local_accesses h + 1)) h
  | Param => set_param_accesses (Machine.u64 (param_accesses h + 1)) h
  | Shared =>
      let h := set_shared_accesses (Machine.u64 (shared_accesses h + 1)) h in
      set_shared_bytes (Machine.u64 (shared_bytes h + bytes)) h
  | Texture =>
      let h := set_texture_accesses (Machine.u64 (texture_accesses h + 1)) h in
      let h := set_texture_bytes (Machine.u64 (texture_bytes h + bytes)) h in
      set_texture_instructions (Machine.u64 (texture_instructions h + 1)) h
  | _ => h
  end.

(** The two tests and assignments shared by the Texture and the Global
    case of [address]. *)
Definition extrema (addr : Z) (h : t) : t :=
  let h := if (global_min_address h =? 0) || (addr <? global_min_address h)
           then set_global_min_address addr h else h in
  if (global_max_address h =? 0) || (global_max_address h <? addr)
  then set_global_max_address addr h else h.

Definition address (space : AddressSpace) (addr : Z) (h : t) : t :=
  match space with
  | Const => h
  | Texture =>
      let h := extrema addr h in
      set_texture_words (Machine.u64 (texture_words h + 1)) h
  | Global =>
      let h := extrema addr h in
      set_global_words (Machine.u64 (global_words h + 1)) h
  | Local => h
  | Param => h
  | Shared => h
  | _ => h
  end.

(** The pair of dynamic counters. *)
Definition dynamic (h : t) : Z * Z :=
  (dynamic_instructions h, dynamic_operations h).

(** The word counter that [address] advances for a space. *)
Definition words (space : AddressSpace) (h : t) : Z :=
  match space with
  | Texture => texture_words h
  | _ => global_words h
  end.

(** [address] called once for each address of a list, in order. *)
Definition addresses (space : AddressSpace) (l : list Z) (h : t) : t :=
  foldl (fun h addr => address space addr h) h l.

End Header.

(** *** extent *)

Module Extent.

(** The address rebuilt from one more element of a parameter (the switch
    of lines 169 to 202). *)
Definition reconstruct (type : PTXOperand.DataType) (address element : Z)
    : Z :=
  match type with
  | PTXOperand.b8 | PTXOperand.s8 | PTXOperand.u8 =>
      Z.lor (Machine.u64 (Z.shiftl address 8)) (Parameter_.val_u8 element)
  | PTXOperand.b16 | PTXOperand.s16 | PTXOperand.u16 =>
      Z.lor (Machine.u64 (Z.shiftl address 16)) (Parameter_.val_u16 element)
  | PTXOperand.b32 | PTXOperand.s32 | PTXOperand.u32 =>
      Z.lor (Machine.u64 (Z.shiftl address 32)) (Parameter_.val_u32 element)
  | PTXOperand.b64 | PTXOperand.s64 | PTXOperand.u64 =>
      Parameter_.val_u64 element
  | _ => address
  end.

(** [if (encountered.insert(ptr).second) extent += size] *)
Definition count_once (ptr size : Z) (s : gset Z * Z) : gset Z * Z :=
  if decide (ptr ∈ s.1) then s
  else ({[ptr]} ∪ s.1, Machine.u64 (s.2 + size)).

(** The two look-ups for one address (lines 206 to 229); the state is the
    set [encountered] and the running [extent]. *)
Definition resolve (context : Executive.t) (address : Z) (s : gset Z * Z)
    : gset Z * Z :=
  let global := Executive.getGlobalMemoryAllocation context address in
  if decide (GlobalMemoryAllocation.space global <> AddressSpace_Invalid)
  then count_once (GlobalMemoryAllocation.ptr global)
         (GlobalMemoryAllocation.size global) s
  else
    let allocation :=
      Executive.getMemoryAllocation context (Executive.getSelected context)
        address in
    if decide (MemoryAllocation.isa allocation <> Unknown)
    then count_once (MemoryAllocation.ptr allocation)
           (MemoryAllocation.size allocation) s
    else s.

(** The inner loop, over the elements of one parameter; [address] is
    carried from one element to the next. *)
Fixpoint elements (context : Executive.t) (type : PTXOperand.DataType)
    (values : list Z) (address : Z) (s : gset Z * Z) : gset Z * Z :=
  match values with
  | [] => s
  | element :: values' =>
      let address := reconstruct type address element in
      elements context type values' address (resolve context address s)
  end.

(** The outer loop: [address] starts from 0 for every parameter. *)
Definition parameters (context : Executive.t) (ps : list Parameter_.t)
    (s : gset Z * Z) : gset Z * Z :=
  foldl (fun s p =>
           elements context (Parameter_.type p) (Parameter_.arrayValues p) 0 s)
    s ps.

Definition extent (kernel : ExecutableKernel.t) : Z :=
  (parameters (ExecutableKernel.context kernel)
     (ExecutableKernel.parameters kernel) (∅, 0)).2.

(** The width in bits of the element types that [reconstruct] packs. *)
Definition width (type : PTXOperand.DataType) : option Z :=
  match type with
  | PTXOperand.b8 | PTXOperand.s8 | PTXOperand.u8 => Some 8
  | PTXOperand.b16 | PTXOperand.s16 | PTXOperand.u16 => Some 16
  | PTXOperand.b32 | PTXOperand.s32 | PTXOperand.u32 => Some 32
  | PTXOperand.b64 | PTXOperand.s64 | PTXOperand.u64 => Some 64
  | _ => None
  end.

(** What [extent] is compared with: the allocation that an address
    resolves to, with its identity and its size, the global table asked
    first. *)
Definition hit (context : Executive.t) (address : Z) : option (Z * Z) :=
  let global := Executive.getGlobalMemoryAllocation context address in
  if decide (GlobalMemoryAllocation.space global <> AddressSpace_Invalid)
  then Some (GlobalMemoryAllocation.ptr global,
             GlobalMemoryAllocation.size global)
  else
    let allocation :=
      Executive.getMemoryAllocation context (Executive.getSelected context)
        address in
    if decide (MemoryAllocation.isa allocation <> Unknown)
    then Some (MemoryAllocation.ptr allocation,
               MemoryAllocation.size allocation)
    else None.

(** The addresses rebuilt from the elements of one parameter. *)
Fixpoint addresses (type : PTXOperand.DataType) (values : list Z)
    (address : Z) : list Z :=
  match values with
  | [] => []
  | element :: values' =>
      let address := reconstruct type address element in
      address :: addresses type values' address
  end.

(** The allocations hit by the elements of all parameters, in order. *)
Definition hits (kernel : ExecutableKernel.t) : list (Z * Z) :=
  omap (hit (ExecutableKernel.context kernel))
    (concat (map (fun p => addresses (Parameter_.type p)
                             (Parameter_.arrayValues p) 0)
               (ExecutableKernel.parameters kernel))).

(** The sum of the sizes of a set of allocations, each identity with one
    size. *)
Definition total (allocations : gmap Z Z) : Z :=
  map_fold (fun _ size acc => size + acc) 0 allocations.

End Extent.

(** *** The generator *)

Module TraceEntry.
Record t : Type := mk {
  name : string;
  module : string;
  format : TraceFormat;
  path : string;
  header : string
}.
End TraceEntry.

(** The open access log: [_file] and the [_archive] built on it, which
    are created together in [initialize] and deleted together in
    [finish]; [written] is what has been serialized into the archive. *)
Module Stream.
Record t : Type := mk {
  path : string;
  written : list Event.t
}.
End Stream.

(** What leaves the generator in [finish]. *)
Inductive effect : Type :=
  | UpdateDatabase (database : string) (entry : TraceEntry.t)
  | CloseTrace (log : Stream.t)
  | WriteHeader (path : string) (header : Header.t).

(** The file system: which paths can be opened for writing, and what has
    been done so far. *)
Module World.
Record t : Type := mk {
  opens : string -> bool;
  performed : list effect
}.

Definition perform (e : effect) (w : t) : t := mk (opens w) (performed w ++ [e]).
End World.

Module MemoryTraceGenerator.

Record t : Type := mk {
  database : string;
  headerOnly : bool;
  _entry : TraceEntry.t;
  _header : Header.t;
  _event : Event.t;
  _file : option Stream.t
}.

Definition set_header (v : Header.t) (this : t) : t :=
  mk (database this) (headerOnly this) (_entry this) v (_event this)
    (_file this).

Definition set_event (v : Event.t) (this : t) : t :=
  mk (database this) (headerOnly this) (_entry this) (_header this) v
    (_file this).

Definition set_file (v : option Stream.t) (this : t) : t :=
  mk (database this) (headerOnly this) (_entry this) (_header this)
    (_event this) v.

(** The constructor: no file, [headerOnly] false. *)
Definition MemoryTraceGenerator (database : string) (entry : TraceEntry.t)
    : t :=
  mk database false entry Header.Header Event.Event None.

(** The locals of the loops over the lanes. *)
Module Locals.
Record t : Type := mk {
  bytes : Z;
  threadID : Z;
  starting_address : Z
}.
End Locals.

(** [for (; threadID < thread_count && !event.active[threadID]; threadID++)] *)
Fixpoint skip_inactive (fuel : nat) (active : list bool) (thread_count : Z)
    (threadID : Z) : outcome Z :=
  match fuel with
  | O => Fault OutOfFuel
  | S fuel' =>
      if threadID <? thread_count
      then
        a ← at_index active threadID;
        if negb a
        then skip_inactive fuel' active thread_count (Machine.u32 (threadID + 1))
        else Ok threadID
      else Ok threadID
  end.

(** The segment count of one lane: the [if]/[else if] of lines 351 to 361
    and, again, of lines 409 to 419. *)
Definition coalesce (halfwarpSize addr size : Z) (s : t * Locals.t)
    : t * Locals.t :=
  let '(this, l) := s in
  let h := _header this in
  if halfwarpSize <? Locals.threadID l
  then
    let h := Header.set_global_segments
               (Machine.u64 (Header.global_segments h + 1)) h in
    let h := Header.set_halfwarps (Machine.u64 (Header.halfwarps h + 1)) h in
    (set_header h this,
     Locals.mk (Locals.bytes l) (Locals.threadID l) (Machine.u64 (addr + size)))
  else if negb (Locals.starting_address l =? addr)
  then
    let h := Header.set_global_segments
               (Machine.u64 (Header.global_segments h + 1)) h in
    (set_header h this,
     Locals.mk (Locals.bytes l) (Locals.threadID l) (Machine.u64 (addr + size)))
  else (this, l).

(** The part of a loop body under [if (!headerOnly)]: skip the inactive
    lanes, then push [copies] accesses. *)
Definition record_lane (fuel : nat) (e : TraceEvent.t) (copies : nat)
    (addr size : Z) (s : t * Locals.t) : outcome (t * Locals.t) :=
  let '(this, l) := s in
  if headerOnly this then Ok s
  else
    threadID ← skip_inactive fuel (TraceEvent.active e)
                 (Header.thread_count (_header this)) (Locals.threadID l);
    let access := Access.mk addr threadID size in
    Ok (set_event (Nat.iter copies (Event.push_back access) (_event this)) this,
        Locals.mk (Locals.bytes l) threadID (Locals.starting_address l)).

(** Body of the loop of the load and store case (lines 335 to 361). *)
Definition ldst_lane (fuel : nat) (e : TraceEvent.t) (halfwarpSize : Z)
    (addr size : Z) (s : t * Locals.t) : outcome (t * Locals.t) :=
  s ← record_lane fuel e 1 addr size s;
  let '(this, l) := s in
  let space := Instruction.addressSpace (TraceEvent.instruction e) in
  let this := set_header (Header.address space addr (_header this)) this in
  let l := Locals.mk (Machine.u64 (Locals.bytes l + size)) (Locals.threadID l)
             (Locals.starting_address l) in
  Ok (coalesce halfwarpSize addr size (this, l)).

(** Body of the loop of the texture case (lines 392 to 419). *)
Definition tex_lane (fuel : nat) (e : TraceEvent.t) (halfwarpSize : Z)
    (addr size : Z) (s : t * Locals.t) : outcome (t * Locals.t) :=
  s ← record_lane fuel e 4 addr size s;
  let '(this, l) := s in
  let l := Locals.mk (Machine.u64 (Locals.bytes l + size)) (Locals.threadID l)
             (Locals.starting_address l) in
  let this := set_header (Header.address Texture addr (_header this)) this in
  Ok (coalesce halfwarpSize addr size (this, l)).

(** The loop over [memory_addresses], with [size_it] and [threadID]
    advanced alongside; reading [*size_it] at the end of [memory_sizes]
    is undefined. *)
Fixpoint lanes (body : Z -> Z -> t * Locals.t -> outcome (t * Locals.t))
    (addresses sizes : list Z) (s : t * Locals.t) : outcome (t * Locals.t) :=
  match addresses with
  | [] => Ok s
  | addr :: addresses' =>
      match sizes with
      | [] => Fault Undefined
      | size :: sizes' =>
          s ← body addr size s;
          let '(this, l) := s in
          lanes body addresses' sizes'
            (this, Locals.mk (Locals.bytes l) (Machine.u32 (Locals.threadID l + 1))
                     (Locals.starting_address l))
      end
  end.

(** [*_archive << _event]; without an open archive the pointer is
    dangling. *)
Definition serialize (this : t) : outcome t :=
  match _file this with
  | Some log =>
      Ok (set_file
            (Some (Stream.mk (Stream.path log) (Stream.written log ++ [_event this])))
            this)
  | None => Fault Undefined
  end.

(** The code shared by the two cases of [event] once the address space
    of the event is fixed. *)
Definition trace_accesses (e : TraceEvent.t) (space : AddressSpace)
    (body : Z -> Z -> Z -> t * Locals.t -> outcome (t * Locals.t))
    (this : t) : outcome t :=
  let this :=
    if headerOnly this then this
    else set_event
           (Event.mk (TraceEvent.PC e)
              (Instruction.opcode (TraceEvent.instruction e)) space
              (Dim3.x (TraceEvent.blockId e)) (Dim3.y (TraceEvent.blockId e))
              (Dim3.z (TraceEvent.blockId e)) [])
           this in
  let halfwarpSize := Machine.u32 (Header.thread_count (_header this) / 2) in
  s ← lanes (body halfwarpSize) (TraceEvent.memory_addresses e)
        (TraceEvent.memory_sizes e)
        (this, Locals.mk 0 0 (Machine.u64 (-1)));
  let '(this, l) := s in
  let this := set_header (Header.access space (Locals.bytes l) (_header this))
                this in
  if headerOnly this then Ok this else serialize this.

(** Lines 308 and 309, which precede the test of the opcode. *)
Definition count_dynamic (e : TraceEvent.t) (this : t) : t :=
  let h := _header this in
  let h := Header.set_dynamic_instructions
             (Machine.u64 (Header.dynamic_instructions h + 1)) h in
  let h := Header.set_dynamic_operations
             (Machine.u64 (Header.dynamic_operations h
                           + Machine.u64 (count (TraceEvent.active e)))) h in
  set_header h this.

Definition event (fuel : nat) (e : TraceEvent.t) (this : t) : outcome t :=
  let this := count_dynamic e this in
  match Instruction.opcode (TraceEvent.instruction e) with
  | Ld | St =>
      trace_accesses e (Instruction.addressSpace (TraceEvent.instruction e))
        (ldst_lane fuel e) this
  | Tex => trace_accesses e Texture (tex_lane fuel e) this
  | OtherOpcode _ => Ok this
  end.

(** An event as the emulator raises it: a size for every address and,
    when accesses are recorded, an open archive and an address for no
    more lanes than are active. *)
Definition well_formed (e : TraceEvent.t) (this : t) : Prop :=
  (length (TraceEvent.memory_addresses e)
   <= length (TraceEvent.memory_sizes e))%nat
  /\ (headerOnly this = false ->
      is_Some (_file this)
      /\ Z.of_nat (length (TraceEvent.memory_addresses e))
         <= count (TraceEvent.active e)).

(** A sequence of events, in program order. *)
Fixpoint events (fuel : nat) (es : list TraceEvent.t) (this : t) : outcome t :=
  match es with
  | [] => Ok this
  | e :: es' => this ← event fuel e this; events fuel es' this
  end.

(** *** finish *)

Definition finish (w : World.t) (this : t) : outcome (t * World.t) :=
  match _file this with
  | Some log =>
      let w := World.perform (UpdateDatabase (database this) (_entry this)) w in
      let w := World.perform (CloseTrace log) w in
      let this := set_file None this in
      if World.opens w (TraceEntry.header (_entry this))
      then Ok (this,
               World.perform
                 (WriteHeader (TraceEntry.header (_entry this)) (_header this)) w)
      else Fault (Exception
                    ("Failed to open MemoryTraceGenerator header file "
                     +:+ TraceEntry.header (_entry this)))
  | None => Ok (this, w)
  end.

End MemoryTraceGenerator.

End trace.

(** ** Concrete inputs *)

Module Examples.

Import analysis.

(** An instrumentor for two thread blocks of four threads, before any of
    its methods has run. *)
Definition instrumentor (kernelName : string) (type : Z)
    : BasicBlockInstrumentor.t :=
  BasicBlockInstrumentor.mk kernelName 2 4 [] (KernelProfile.mk ∅ ∅) false
    0 0 0 type.

(** The instrumentor after [createPass] for [memoryIntensity] and
    [analyze] of a kernel of three blocks. *)
Definition profiler : BasicBlockInstrumentor.t :=
  BasicBlockInstrumentor.mk "k" 2 4 ["BB_1"; "BB_2"; "BB_3"]%string
    (KernelProfile.mk {[ 7 := 1 ]} {[ 7 := 1 ]}) true 0 3 2 memoryIntensity.

(** Its counter array, the counter of block [b], entry [e], thread [t]
    and thread block [k] holding [1000 * b + 100 * e + 10 * t + k]. *)
Definition counters : list Z :=
  map (fun i =>
         1000 * ((i / 8) mod 3) + 100 * (i mod 2) + 10 * ((i / 2) mod 4)
         + i / 24)
    (seqZ 0 48).

(** A kernel of three blocks between the two boundary blocks. *)
Definition kernel3 : Kernel.t :=
  Kernel.mk 5 ["entry"; "BB_1"; "BB_2"; "BB_3"; "exit"]%string.

Definition module1 : Module_.t :=
  Module_.mk {[ "k"%string := kernel3 ]}.

Import ir trace.

(** A generator after [initialize] for a kernel of [thread_count]
    threads: fresh header and event, the access log open and empty. *)
Definition header (headerOnly : bool) (thread_count : Z) : Header.t :=
  Header.mk MemoryTraceFormat 0 0 0 thread_count 0 0 0 0 0 0 0 0 0 0 0 0 0 0
    0 0 0 0 0 0 headerOnly.

Definition entry : TraceEntry.t :=
  TraceEntry.mk "k" "k.ptx" MemoryTraceFormat "/tmp/k_0.trace"
    "/tmp/k_0.header".

Definition generator (headerOnly : bool) (thread_count : Z)
    : MemoryTraceGenerator.t :=
  MemoryTraceGenerator.mk "/tmp/traces.db" headerOnly entry
    (header headerOnly thread_count) Event.Event
    (Some (Stream.mk "/tmp/k_0.trace" [])).

(** A file system in which every path can be opened. *)
Definition world : World.t := World.mk (fun _ => true) [].

(** A load from the Global space by the lanes set in [active], lane by
    lane at [addresses], four bytes each. *)
Definition load (active : list bool) (addresses : list Z) : TraceEvent.t :=
  TraceEvent.mk 0 (Instruction.mk Ld Global) (Dim3.mk 0 0 0) active addresses
    (map (fun _ => 4) addresses).

Definition lanes_0_to_3 : list bool :=
  [true; true; true; true; false; false; false; false].

Definition lanes_6_and_7 : list bool :=
  [false; false; false; false; false; false; true; true].

Import executive.

(** Two allocation tables: a global allocation of 256 bytes at 4096 and
    an allocation of 64 bytes at 8192 on the selected device. *)
Definition tables : Executive.t :=
  Executive.mk
    (fun address =>
       if (4096 <=? address) && (address <? 4352)
       then GlobalMemoryAllocation.mk 4096 Global 256
       else GlobalMemoryAllocation.mk 0 AddressSpace_Invalid 0)
    0
    (fun _ address =>
       if (8192 <=? address) && (address <? 8256)
       then MemoryAllocation.mk (KnownISA 1) 8192 64
       else MemoryAllocation.mk Unknown 0 0).

(** A pointer to the global allocation, a pair of 32-bit halves that
    first read as the address 0 and then as an address inside the same
    allocation, a pointer to the device allocation, and a float. *)
Definition kernel_parameters : list Parameter_.t :=
  [Parameter_.mk PTXOperand.u64 [4096];
   Parameter_.mk PTXOperand.u32 [0; 4112];
   Parameter_.mk PTXOperand.u64 [8200];
   Parameter_.mk PTXOperand.f32 [1065353216]].

Definition kernel : ExecutableKernel.t :=
  ExecutableKernel.mk "k" kernel_parameters tables 8.

End Examples.


(** ** What runs of the trace generator are compared with *)

Module Runs.

Import ir trace.

(** [Header::access] called once for each byte count of a list. *)
Definition accesses (space : AddressSpace) (l : list Z) (h : Header.t)
    : Header.t :=
  foldl (fun h bytes => Header.access space bytes h) h l.

(** A header without its two segment counters. *)
Definition forget_segments (h : Header.t) : Header.t :=
  Header.set_global_segments 0 (Header.set_halfwarps 0 h).

(** A header without its copy of the mode of the generator. *)
Definition forget_mode (h : Header.t) : Header.t :=
  Header.mk (Header.format h) (Header.blockDimX h) (Header.blockDimY h)
    (Header.blockDimZ h) (Header.thread_count h)
    (Header.dynamic_instructions h) (Header.dynamic_operations h)
    (Header.const_accesses h) (Header.global_accesses h)
    (Header.local_accesses h) (Header.param_accesses h)
    (Header.shared_accesses h) (Header.texture_accesses h)
    (Header.global_min_address h) (Header.global_max_address h)
    (Header.global_instructions h) (Header.texture_instructions h)
    (Header.global_bytes h) (Header.shared_bytes h) (Header.texture_bytes h)
    (Header.global_words h) (Header.texture_words h) (Header.global_extent h)
    (Header.global_segments h) (Header.halfwarps h) false.

(** The aggregates that do not depend on the mode: all members but the
    two segment counters and the mode. *)
Definition aggregates (h : Header.t) : Header.t :=
  forget_mode (forget_segments h).

(** The sizes that go with the addresses of an event, added up as the
    loop adds them. *)
Definition bytes_of (e : TraceEvent.t) : Z :=
  Machine.u64
    (sumZ id (take (length (TraceEvent.memory_addresses e))
                (TraceEvent.memory_sizes e))).

(** The lanes whose bit is set, the first bit of [active] being lane
    [lane]. *)
Fixpoint active_lanes (lane : Z) (active : list bool) : list Z :=
  match active with
  | [] => []
  | true :: active' => lane :: active_lanes (lane + 1) active'
  | false :: active' => active_lanes (lane + 1) active'
  end.

(** The accesses that one event records: [copies] of one access for
    every address, with the size at the same position and the lane at
    the same position among the active lanes. *)
Fixpoint recorded (copies : nat) (addresses sizes lanes : list Z)
    : list Access.t :=
  match addresses, sizes, lanes with
  | addr :: addresses', size :: sizes', lane :: lanes' =>
      replicate copies (Access.mk addr lane size)
      ++ recorded copies addresses' sizes' lanes'
  | _, _, _ => []
  end.

(** The space under which an event is traced, and the number of
    accesses recorded for one lane. *)
Definition traced_space (e : TraceEvent.t) : AddressSpace :=
  match Instruction.opcode (TraceEvent.instruction e) with
  | Tex => Texture
  | _ => Instruction.addressSpace (TraceEvent.instruction e)
  end.

Definition copies (e : TraceEvent.t) : nat :=
  match Instruction.opcode (TraceEvent.instruction e) with
  | Tex => 4
  | _ => 1
  end.

(** The event that a load, store or texture fetch leaves in [_event]
    and in the archive. *)
Definition recorded_event (e : TraceEvent.t) : Event.t :=
  Event.mk (TraceEvent.PC e) (Instruction.opcode (TraceEvent.instruction e))
    (traced_space e) (Dim3.x (TraceEvent.blockId e))
    (Dim3.y (TraceEvent.blockId e)) (Dim3.z (TraceEvent.blockId e))
    (recorded (copies e) (TraceEvent.memory_addresses e)
       (TraceEvent.memory_sizes e) (active_lanes 0 (TraceEvent.active e))).

(** Number of active lanes over the events of a list. *)
Definition operations (es : list TraceEvent.t) : Z :=
  sumZ id (map (fun e => count (TraceEvent.active e)) es).

End Runs.

Module Summary.

Import ir trace.

(** What [event] is compared with: the header after an event, up to the
    segment counters. The dynamic counters are advanced, [address] is
    called for every lane and [access] once, for the space of the
    instruction, or Texture for a texture fetch. *)
Definition summary (e : TraceEvent.t) (this : MemoryTraceGenerator.t)
    : Header.t :=
  let h := MemoryTraceGenerator._header
             (MemoryTraceGenerator.count_dynamic e this) in
  let traced space :=
    Header.access space (Runs.bytes_of e)
      (Header.addresses space (TraceEvent.memory_addresses e) h) in
  match Instruction.opcode (TraceEvent.instruction e) with
  | Ld | St => traced (Instruction.addressSpace (TraceEvent.instruction e))
  | Tex => traced Texture
  | OtherOpcode _ => h
  end.

End Summary.

(** ** BasicBlockInstrumentor.cpp: initialize and the report *)

(** The CUDA runtime as [initialize] uses it: the calls it makes, and
    for each call whether it returns [cudaSuccess] (and the pointer that
    [cudaMalloc] stores). *)
Module cuda.

Inductive call : Type :=
  | cudaMalloc (size : Z)
  | cudaMemset (devPtr value count : Z)
  | cudaMemcpyToSymbol (symbol : string) (src count offset : Z).

Record Runtime : Type := mk {
  malloc : Z -> option Z;
  memset : Z -> Z -> Z -> bool;
  memcpyToSymbol : string -> Z -> Z -> Z -> bool
}.

End cuda.

Module Initialize.

Import analysis analysis.BasicBlockInstrumentor.

Definition set_counter (v : Z) (this : t) : t :=
  mk (kernelName this) (threadBlocks this) (threads this) (labels this)
    (_kernelProfile this) (conditionsMet this) v (basicBlocks this)
    (entries this) (type this).

(** [sizeof(size_t)], which is also the size of what [counter] points to *)
Definition sizeof_size_t : Z := 8.

(** [initialize]; [symbol] is the name that the pass returns from
    [basicBlockCounterBase()]. The result is paired with the calls made
    to the runtime, in order. [&counter] is passed as the value of
    [counter], the eight bytes that are copied. *)
Definition initialize (runtime : cuda.Runtime) (symbol : string) (this : t)
    : list cuda.call * outcome t :=
  let this := set_counter 0 this in
  let bytes :=
    counterBytes (entries this) (basicBlocks this) (threadBlocks this)
      (threads this) in
  match cuda.malloc runtime bytes with
  | None =>
      ([cuda.cudaMalloc bytes],
       Fault (Exception "Could not allocate sufficient memory on device (cudaMalloc failed)!"))
  | Some devPtr =>
      let this := set_counter devPtr this in
      if cuda.memset runtime (counter this) 0 bytes
      then
        if cuda.memcpyToSymbol runtime symbol (counter this) sizeof_size_t 0
        then
          ([cuda.cudaMalloc bytes; cuda.cudaMemset (counter this) 0 bytes;
            cuda.cudaMemcpyToSymbol symbol (counter this) sizeof_size_t 0],
           Ok this)
        else
          ([cuda.cudaMalloc bytes; cuda.cudaMemset (counter this) 0 bytes;
            cuda.cudaMemcpyToSymbol symbol (counter this) sizeof_size_t 0],
           Fault (Exception "cudaMemcpyToSymbol failed!"))
      else
        ([cuda.cudaMalloc bytes; cuda.cudaMemset (counter this) 0 bytes],
         Fault (Exception "cudaMemset failed!"))
  end.

End Initialize.

(** What the stream of [extractResults] is compared with. *)
Module Report.

Import analysis analysis.BasicBlockInstrumentor.

(** The line of one block: label, execution count and, under
    [memoryIntensity], the memory-operation count. *)
Definition line (label : string) (executed : Z) (memory : option Z)
    : list item :=
  [Text dq; Text label; Text (dq +:+ ": "); Number executed; Text ", "]
  ++ match memory with Some n => [Number n] | None => [] end
  ++ [Text nl].

Definition preamble (this : t) : list item :=
  [Text ("{" +:+ nl +:+ dq +:+ "kernel" +:+ dq +:+ ": ");
   Text (kernelName this); Text ("," +:+ nl);
   Text (nl +:+ dq +:+ "threadBlocks" +:+ dq +:+ ": ");
   Number (threadBlocks this); Text ("," +:+ nl);
   Text (nl +:+ dq +:+ "threads" +:+ dq +:+ ": ");
   Number (threads this); Text ("," +:+ nl);
   Text (nl +:+ dq +:+ "counters" +:+ dq +:+ ": {" +:+ nl)].

Definition closing : list item :=
  [Text (nl +:+ "}" +:+ nl +:+ "}" +:+ nl)].

(** The whole report for the counters [info]. *)
Definition report (info : list Z) (this : t) : list item :=
  preamble this
  ++ concat
       (map (fun j =>
               line (default EmptyString (labels this !! Z.to_nat j))
                 (reduced info this j 0)
                 (if type this =? memoryIntensity
                  then Some (reduced info this j 1) else None))
          (seqZ 0 (basicBlocks this)))
  ++ closing.

End Report.

(** ** What the segment counters of [event] are compared with *)

Module Segments.

Import ir trace.

(** [halfwarpSize] of lines 329 and 388. *)
Definition halfwarpSize (this : MemoryTraceGenerator.t) : Z :=
  Machine.u32 (Header.thread_count (MemoryTraceGenerator._header this) / 2).

(** The values that [threadID] takes at the segment test, one for each
    address: in header-only mode the positions of the addresses, else
    the numbers of the active lanes. *)
Definition lane_numbers (e : TraceEvent.t) (this : MemoryTraceGenerator.t)
    : list Z :=
  let n := length (TraceEvent.memory_addresses e) in
  if MemoryTraceGenerator.headerOnly this
  then seqZ 0 (Z.of_nat n)
  else take n (Runs.active_lanes 0 (TraceEvent.active e)).

(** How many lanes of a list are above the half-warp size. *)
Definition upper (halfwarpSize : Z) (lanes : list Z) : Z :=
  Z.of_nat (length (filter (fun x => halfwarpSize < x) lanes)).

(** Addresses that follow one another without a gap: each is the
    previous one plus the previous size. *)
Fixpoint contiguous (address : Z) (sizes : list Z) : list Z :=
  match sizes with
  | [] => []
  | size :: sizes' => address :: contiguous (address + size) sizes'
  end.

(** An event that the loops of [event] can pass: a size for every
    address, fewer than [2^32] addresses and, while accesses are
    recorded, an open archive, an active lane for every address, a mask
    within [thread_count] and fuel for the scan of the mask. *)
Definition traceable (fuel : nat) (e : TraceEvent.t)
    (this : MemoryTraceGenerator.t) : Prop :=
  (length (TraceEvent.memory_addresses e)
   <= length (TraceEvent.memory_sizes e))%nat
  /\ Z.of_nat (length (TraceEvent.memory_addresses e)) < 2 ^ 32
  /\ (MemoryTraceGenerator.headerOnly this = false ->
      is_Some (MemoryTraceGenerator._file this)
      /\ (length (TraceEvent.memory_addresses e)
          <= length (Runs.active_lanes 0 (TraceEvent.active e)))%nat
      /\ Z.of_nat (length (TraceEvent.active e))
         <= Header.thread_count (MemoryTraceGenerator._header this)
      /\ Z.of_nat (length (TraceEvent.active e)) < 2 ^ 32
      /\ (length (TraceEvent.active e) < fuel)%nat).

(** The two segment counters and [starting_address] after the segment
    test of one lane, as values. *)
Definition count_lane (halfwarpSize : Z) (c : Z * Z * Z) (x : Z * (Z * Z))
    : Z * Z * Z :=
  let '(segments, halfwarps, starting_address) := c in
  let '(threadID, (addr, size)) := x in
  if halfwarpSize <? threadID
  then (Machine.u64 (segments + 1), Machine.u64 (halfwarps + 1),
        Machine.u64 (addr + size))
  else if negb (starting_address =? addr)
  then (Machine.u64 (segments + 1), halfwarps, Machine.u64 (addr + size))
  else c.

(** The counters of a generator and the local [starting_address]. *)
Definition state (s : MemoryTraceGenerator.t * MemoryTraceGenerator.Locals.t)
    : Z * Z * Z :=
  (Header.global_segments (MemoryTraceGenerator._header s.1),
   Header.halfwarps (MemoryTraceGenerator._header s.1),
   MemoryTraceGenerator.Locals.starting_address s.2).

(** The counters after the lanes of an event, as values. *)
Definition counted (e : TraceEvent.t) (this : MemoryTraceGenerator.t)
    : Z * Z * Z :=
  foldl (count_lane (halfwarpSize this))
    (Header.global_segments (MemoryTraceGenerator._header this),
     Header.halfwarps (MemoryTraceGenerator._header this),
     Machine.u64 (-1))
    (zip (lane_numbers e this)
       (zip (TraceEvent.memory_addresses e) (TraceEvent.memory_sizes e))).

End Segments.

(** ** MemoryTraceGenerator.cpp: initialize *)

From stdpp Require Import pretty.

#[local] Open Scope Z_scope.

(** Code that [initialize] calls and that is not part of the sources:
    the operations of [boost::filesystem::path] and the integer that
    [operator<<] prints for a [TraceFormat]. *)
Module Host.

Import trace.

Record t : Type := mk {
  parent_path : string -> string;
  append : string -> string -> string;
  system_complete : string -> string;
  format_value : TraceFormat -> Z
}.

End Host.

(** What [initialize] reads of the kernel: the members in
    [ExecutableKernel.t], the path of its module and [blockDim()]. *)
Module Launch.

Import executive trace.

Record t : Type := mk {
  kernel : ExecutableKernel.t;
  modulePath : string;
  blockDim : Dim3.t
}.

End Launch.

Module Session.

Import ir executive trace trace.MemoryTraceGenerator.

(** [name.resize(20)] when the name is longer than 20 characters *)
Definition truncated (name : string) : string :=
  if (20 <? String.length name)%nat then String.substring 0 20 name else name.

(** [stream.str()] after [stream << _entry.format << "_" << _counter++] *)
Definition session_tag (host : Host.t) (counter : Z) : string :=
  pretty (Host.format_value host MemoryTraceFormat) +:+ "_" +:+ pretty counter.

(** Lines 247 to 271: the entry of the session. *)
Definition entry (host : Host.t) (counter : Z) (launch : Launch.t)
    (this : t) : TraceEntry.t :=
  let name := truncated (ExecutableKernel.name (Launch.kernel launch)) in
  let stream := session_tag host counter in
  let path := Host.parent_path host (database this) in
  let path := Host.append host path (name +:+ "_" +:+ stream +:+ ".trace") in
  let path := Host.system_complete host path in
  let trace_path := path in
  let path := Host.parent_path host path in
  let path := Host.append host path (name +:+ "_" +:+ stream +:+ ".header") in
  let path := Host.system_complete host path in
  TraceEntry.mk (ExecutableKernel.name (Launch.kernel launch))
    (Launch.modulePath launch) MemoryTraceFormat trace_path path.

(** Lines 289 to 299: [Header()] with the members that [initialize]
    assigns. *)
Definition fresh_header (launch : Launch.t) (this : t) : Header.t :=
  Header.mk MemoryTraceFormat (Dim3.x (Launch.blockDim launch))
    (Dim3.y (Launch.blockDim launch)) (Dim3.z (Launch.blockDim launch))
    (ExecutableKernel.maxThreadsPerBlock (Launch.kernel launch))
    0 0 0 0 0 0 0 0 0 0 0 0 0 0 0 0 0
    (Extent.extent (Launch.kernel launch)) 0 0 (headerOnly this).

(** The generator that [initialize] leaves when the file opens. *)
Definition initialized (host : Host.t) (counter : Z) (launch : Launch.t)
    (this : t) : t :=
  let entry := entry host counter launch this in
  mk (database this) (headerOnly this) entry (fresh_header launch this)
    Event.Event (Some (Stream.mk (TraceEntry.path entry) [])).

(** What [initialize] does to the file system before it opens the new
    file: an archive that is still open is deleted with its file, which
    closes the file and nothing else. *)
Definition abandon (w : World.t) (this : t) : World.t :=
  match _file this with
  | Some log => World.perform (CloseTrace log) w
  | None => w
  end.

(** [initialize]. [counter] is the static [_counter], an
    [unsigned int] (line 38): [_counter++] prints the value it had and
    leaves it one higher, modulo [2^32]. The file that is opened becomes
    the stream of the generator; the world keeps no record of the
    opening. What the generator and the world are after the exception
    is not modelled. *)
Definition initialize (host : Host.t) (counter : Z) (launch : Launch.t)
    (w : World.t) (this : t) : outcome (t * Z * World.t) :=
  let entry := entry host counter launch this in
  let next := u32 (counter + 1) in
  let w := abandon w this in
  if World.opens w (TraceEntry.path entry)
  then Ok (initialized host counter launch this, next, w)
  else Fault (Exception
                ("Failed to open MemoryTraceGenerator kernel trace file "
                 +:+ TraceEntry.path entry)).

(** A trace session: [initialize], the events of the kernel, [finish]. *)
Definition session (host : Host.t) (counter : Z) (launch : Launch.t)
    (fuel : nat) (es : list TraceEvent.t) (w : World.t) (this : t)
    : outcome (t * Z * World.t) :=
  '(this, counter, w) ← initialize host counter launch w this;
  this ← events fuel es this;
  '(this, w) ← finish w this;
  Ok (this, counter, w).

(** The members of a header that only [initialize] assigns. *)
Definition launch_members (h : Header.t)
    : TraceFormat * Z * Z * Z * Z * Z * bool :=
  (Header.format h, Header.blockDimX h, Header.blockDimY h,
   Header.blockDimZ h, Header.thread_count h, Header.global_extent h,
   Header.headerOnly h).

End Session.

(** ** ExecutableKernel.cpp (branch vir): the argument block *)

Module vir.

Import ir.

(** [ir::Parameter], as far as this file reads and writes it. A value
    is the eight bytes of the [ValueType] union read as [val_u64]. *)
Module Parameter_.

Record t : Type := mk {
  name : string;
  type : PTXOperand.DataType;
  arrayValues : list Z;
  offset : Z
}.

Definition set_offset (v : Z) (p : t) : t :=
  mk (name p) (type p) (arrayValues p) v.

Definition set_arrayValues (v : list Z) (p : t) : t :=
  mk (name p) (type p) v (offset p).

End Parameter_.

(** The member functions of [ir::Parameter] that this file calls and
    that are defined outside the sources. Their results enter
    [unsigned int] arithmetic. *)
Module Layout.

Record t : Type := mk {
  getAlignment : Parameter_.t -> Z;
  getSize : Parameter_.t -> Z;
  getElementSize : Parameter_.t -> Z
}.

End Layout.

(** Bytes in memory, each a number below 256, and values in the byte
    order of the host (little-endian). *)
Module Bytes.

(** The value of a sequence of bytes, the first the least significant. *)
Definition le_value (bytes : list Z) : Z :=
  foldr (fun b acc => b + 256 * acc) 0 bytes.

(** The first [k] bytes of a value. *)
Fixpoint le_bytes (k : nat) (v : Z) : list Z :=
  match k with
  | O => []
  | S k' => v mod 256 :: le_bytes k' (v / 256)
  end.

(** [memcpy(&val, bytes, k)] on a value of eight bytes: the low [k]
    bytes are replaced, the others kept. *)
Definition store_low (bytes : list Z) (val : Z) : Z :=
  le_value bytes
  + 2 ^ (8 * Z.of_nat (length bytes))
    * (val / 2 ^ (8 * Z.of_nat (length bytes))).

(** [k] bytes of a block from position [rel]; a read outside the block
    is undefined. *)
Definition read (block : list Z) (rel k : Z) : outcome (list Z) :=
  if (rel <? 0) || (k <? 0) || (Z.of_nat (length block) <? rel + k)
  then Fault Undefined
  else Ok (take (Z.to_nat k) (drop (Z.to_nat rel) block)).

(** The block with [bytes] stored from position [rel]; a write outside
    the block is undefined. *)
Definition write (block : list Z) (rel : Z) (bytes : list Z)
    : outcome (list Z) :=
  if (rel <? 0) || (Z.of_nat (length block) <? rel + Z.of_nat (length bytes))
  then Fault Undefined
  else Ok (take (Z.to_nat rel) block ++ bytes
           ++ drop (Z.to_nat rel + length bytes) block).

End Bytes.

Module ExecutableKernel.

Section ArgumentBlock.

Variable layout : Layout.t.

(** Lines 141 and 142: [size] advanced to the alignment. A remainder by
    zero is undefined. *)
Definition align (size alignment : Z) : outcome Z :=
  if alignment =? 0 then Fault Undefined
  else
    let misAlignment := size mod alignment in
    Ok (Machine.u32
          (size + (if misAlignment =? 0 then 0
                   else Machine.u32 (alignment - misAlignment)))).

(** The loop of [mapArgumentOffsets] from [size] on. *)
Fixpoint map_offsets (arguments : list Parameter_.t) (size : Z)
    : outcome (list Parameter_.t * Z) :=
  match arguments with
  | [] => Ok ([], size)
  | it :: arguments' =>
      size ← align size (Machine.u32 (Layout.getAlignment layout it));
      let it := Parameter_.set_offset size it in
      let size := Machine.u32 (size + Machine.u32 (Layout.getSize layout it)) in
      r ← map_offsets arguments' size;
      Ok (it :: r.1, r.2)
  end.

(** [mapArgumentOffsets]: the arguments with their offsets, and the
    size returned. *)
Definition mapArgumentOffsets (arguments : list Parameter_.t)
    : outcome (list Parameter_.t * Z) :=
  map_offsets arguments 0.

(** The inner loop of [setArgumentBlock] over the values of [it] from
    position [i], with [ptr] relative to [parameter]. The assertion of
    line 169 fails when the element ends after [size]: the process
    aborts, and without the assertion the read would be outside the
    block. An element of more than eight bytes does not fit the value. *)
Fixpoint set_values (parameter : list Z) (size : Z) (remaining i : nat)
    (it : Parameter_.t) (ptr : Z) : outcome Parameter_.t :=
  match remaining with
  | O => Ok it
  | S remaining' =>
      let elementSize := Machine.u32 (Layout.getElementSize layout it) in
      if negb (Machine.u64 (ptr + elementSize) <=? size)
      then Fault Undefined
      else if 8 <? elementSize then Fault Undefined
      else
        bytes ← Bytes.read parameter ptr elementSize;
        val ← at_index (Parameter_.arrayValues it) (Z.of_nat i);
        let it :=
          Parameter_.set_arrayValues
            (<[i := Bytes.store_low bytes val]> (Parameter_.arrayValues it))
            it in
        set_values parameter size remaining' (S i) it
          (ptr + Machine.u32 (Layout.getElementSize layout it))
  end.

(** The outer loop of [setArgumentBlock]. *)
Fixpoint set_arguments (parameter : list Z) (size : Z)
    (arguments : list Parameter_.t) : outcome (list Parameter_.t) :=
  match arguments with
  | [] => Ok []
  | it :: arguments' =>
      it ← set_values parameter size (length (Parameter_.arrayValues it)) 0
             it (Parameter_.offset it);
      arguments' ← set_arguments parameter size arguments';
      Ok (it :: arguments')
  end.

Definition setArgumentBlock (parameter : list Z) (size : Z)
    (arguments : list Parameter_.t) : outcome (list Parameter_.t) :=
  r ← mapArgumentOffsets arguments;
  set_arguments parameter size r.1.

(** The inner loop of [getArgumentBlock]: the values of one parameter
    stored from [ptr] on. *)
Fixpoint get_values (block : list Z) (elementSize : Z) (values : list Z)
    (ptr : Z) : outcome (list Z) :=
  match values with
  | [] => Ok block
  | val :: values' =>
      if 8 <? elementSize then Fault Undefined
      else
        block ← Bytes.write block ptr
                  (Bytes.le_bytes (Z.to_nat elementSize) val);
        get_values block elementSize values' (ptr + elementSize)
  end.

(** The outer loop of [getArgumentBlock]. *)
Fixpoint get_arguments (block : list Z) (arguments : list Parameter_.t)
    (offset : Z) : outcome (list Z * Z) :=
  match arguments with
  | [] => Ok (block, offset)
  | parameter :: arguments' =>
      let elementSize :=
        Machine.u32 (Layout.getElementSize layout parameter) in
      block ← get_values block elementSize
                (Parameter_.arrayValues parameter)
                (Parameter_.offset parameter);
      get_arguments block arguments'
        (Machine.u64 (Parameter_.offset parameter + elementSize))
  end.

(** [getArgumentBlock]: the block after the stores, and the offset
    returned. [block] is the memory that the pointer refers to;
    [maxSize] is not read. *)
Definition getArgumentBlock (block : list Z) (maxSize : Z)
    (arguments : list Parameter_.t) : outcome (list Z * Z) :=
  get_arguments block arguments 0.

End ArgumentBlock.

(** [traceEvent]: the event is passed to the generators that
    [_generators] points to, in order. [heap] holds the generators, a
    pointer is a position in it, and a pointer to no generator has no
    defined call. The generators are taken to be memory trace
    generators. *)
Fixpoint traceEvent (fuel : nat) (event : trace.TraceEvent.t)
    (_generators : list nat) (heap : list trace.MemoryTraceGenerator.t)
    : outcome (list trace.MemoryTraceGenerator.t) :=
  match _generators with
  | [] => Ok heap
  | generator :: _generators' =>
      match heap !! generator with
      | None => Fault Undefined
      | Some g =>
          g ← trace.MemoryTraceGenerator.event fuel event g;
          traceEvent fuel event _generators' (<[generator := g]> heap)
      end
  end.

(** Member functions that read the type, the name and the number of
    values of a parameter, and nothing else of it. *)
Definition stable (layout : Layout.t) : Prop :=
  forall p q,
    Parameter_.name p = Parameter_.name q ->
    Parameter_.type p = Parameter_.type q ->
    length (Parameter_.arrayValues p) = length (Parameter_.arrayValues q) ->
    Layout.getAlignment layout p = Layout.getAlignment layout q
    /\ Layout.getSize layout p = Layout.getSize layout q
    /\ Layout.getElementSize layout p = Layout.getElementSize layout q.

(** Arguments laid out from [start] on: each offset is the least
    multiple of the alignment at or after the end of the argument
    before; [size] is the end of the last argument. *)
Fixpoint laid_out (layout : Layout.t) (arguments : list Parameter_.t)
    (start size : Z) : Prop :=
  match arguments with
  | [] => size = start
  | p :: arguments' =>
      let alignment := Machine.u32 (Layout.getAlignment layout p) in
      start <= Parameter_.offset p < start + alignment
      /\ Parameter_.offset p mod alignment = 0
      /\ laid_out layout arguments'
           (Parameter_.offset p + Machine.u32 (Layout.getSize layout p)) size
  end.

(** A parameter whose elements fit a value of eight bytes and whose
    values fit its size. *)
Definition fits (layout : Layout.t) (p : Parameter_.t) : Prop :=
  Machine.u32 (Layout.getElementSize layout p) <= 8
  /\ Machine.u32 (Layout.getElementSize layout p)
     * Z.of_nat (length (Parameter_.arrayValues p))
     <= Machine.u32 (Layout.getSize layout p).

(** The bytes of element [j] of a parameter in a block. *)
Definition element (layout : Layout.t) (block : list Z) (p : Parameter_.t)
    (j : nat) : outcome (list Z) :=
  Bytes.read block
    (Parameter_.offset p
     + Machine.u32 (Layout.getElementSize layout p) * Z.of_nat j)
    (Machine.u32 (Layout.getElementSize layout p)).

(** The upper bound of the size of the arguments with their padding. *)
Definition padded (layout : Layout.t) (arguments : list Parameter_.t) : Z :=
  sumZ id
    (map (fun p => Machine.u32 (Layout.getAlignment layout p)
                   + Machine.u32 (Layout.getSize layout p)) arguments).

End ExecutableKernel.

End vir.

(** ** Further concrete inputs *)

Module Inputs.

Import ir executive analysis trace.

(** A runtime in which every call succeeds and the allocation is at
    address 4096. *)
Definition runtime : cuda.Runtime :=
  cuda.mk (fun _ => Some 4096) (fun _ _ _ => true) (fun _ _ _ _ => true).

(** Paths as strings with [/]: the parent of every path is [/tmp], and
    every path is complete. The format prints as 3. *)
Definition host : Host.t :=
  Host.mk (fun _ => "/tmp"%string) (fun path name => path +:+ "/" +:+ name)
    (fun path => path) (fun _ => 3).

Definition launch : Launch.t :=
  Launch.mk Examples.kernel "k.ptx" (Dim3.mk 8 1 1).

(** A generator as its constructor leaves it, set to header-only mode. *)
Definition created (headerOnly : bool) : MemoryTraceGenerator.t :=
  MemoryTraceGenerator.mk "/tmp/traces.db" headerOnly
    (TraceEntry.mk "" "" MemoryTraceFormat "" "") Header.Header Event.Event
    None.

(** A layout by the type of the parameter: elements of one, two, four
    or eight bytes, aligned to their size, stored one after the other. *)
Definition element_size (type : PTXOperand.DataType) : Z :=
  match type with
  | PTXOperand.s8 | PTXOperand.u8 | PTXOperand.b8 | PTXOperand.pred => 1
  | PTXOperand.s16 | PTXOperand.u16 | PTXOperand.b16 | PTXOperand.f16 => 2
  | PTXOperand.s32 | PTXOperand.u32 | PTXOperand.b32 | PTXOperand.f32 => 4
  | _ => 8
  end.

Definition layout : vir.Layout.t :=
  vir.Layout.mk
    (fun p => element_size (vir.Parameter_.type p))
    (fun p => element_size (vir.Parameter_.type p)
              * Z.of_nat (length (vir.Parameter_.arrayValues p)))
    (fun p => element_size (vir.Parameter_.type p)).

(** A byte, two words and a pointer. *)
Definition arguments : list vir.Parameter_.t :=
  [vir.Parameter_.mk "flag" PTXOperand.u8 [7] 0;
   vir.Parameter_.mk "dims" PTXOperand.u32 [258; 3] 0;
   vir.Parameter_.mk "base" PTXOperand.u64 [1099511627781] 0].

(** The arguments with their offsets. *)
Definition mapped : list vir.Parameter_.t :=
  [vir.Parameter_.mk "flag" PTXOperand.u8 [7] 0;
   vir.Parameter_.mk "dims" PTXOperand.u32 [258; 3] 4;
   vir.Parameter_.mk "base" PTXOperand.u64 [1099511627781] 16].

End Inputs.
(** * Properties *)

Import ir executive analysis trace.

(** ** Machine integers *)

Section MachineFacts.

Lemma u64_range z : 0 <= u64 z < 2 ^ 64.
Proof. unfold u64, wrap. apply Z.mod_pos_bound. lia. Qed.

Lemma u32_range z : 0 <= u32 z < 2 ^ 32.
Proof. unfold u32, wrap. apply Z.mod_pos_bound. lia. Qed.

Lemma u64_small z : 0 <= z < 2 ^ 64 -> u64 z = z.
Proof. intros H. unfold u64, wrap. now apply Z.mod_small. Qed.

Lemma u32_small z : 0 <= z < 2 ^ 32 -> u32 z = z.
Proof. intros H. unfold u32, wrap. now apply Z.mod_small. Qed.

Lemma u64_idem z : u64 (u64 z) = u64 z.
Proof. apply u64_small, u64_range. Qed.

Lemma u64_add_l a b : u64 (u64 a + b) = u64 (a + b).
Proof. unfold u64, wrap. now rewrite Zplus_mod_idemp_l. Qed.

Lemma u64_add_r a b : u64 (a + u64 b) = u64 (a + b).
Proof. unfold u64, wrap. now rewrite Zplus_mod_idemp_r. Qed.

Lemma u64_mul_l a b : u64 (u64 a * b) = u64 (a * b).
Proof. unfold u64, wrap. now rewrite Zmult_mod_idemp_l. Qed.

Lemma u64_mul_r a b : u64 (a * u64 b) = u64 (a * b).
Proof. unfold u64, wrap. now rewrite Zmult_mod_idemp_r. Qed.

Lemma u32_u64 z : u32 (u64 z) = u32 z.
Proof.
  unfold u32, u64, wrap. apply Z.mod_mod_divide.
  exists (2 ^ 32). reflexivity.
Qed.

End MachineFacts.

(** ** The layout of the counter array *)

Section CounterLayoutFacts.

Import BasicBlockInstrumentor.

Variables (E B K T : Z).
Hypotheses (HE : 0 < E) (HB : 0 < B) (HK : 0 < K) (HT : 0 < T).

(** The subscript is a number in mixed radix: thread block, block,
    thread, entry, from the most significant digit to the least. *)
Lemma counterIndex_digits b e t k :
  counterIndex E B T b e t k = ((k * B + b) * T + t) * E + e.
Proof. unfold counterIndex. ring. Qed.

Lemma digit_unique n q r q' r' :
  0 <= r < n -> 0 <= r' < n -> q * n + r = q' * n + r' -> q = q' /\ r = r'.
Proof. intros Hr Hr' Heq. assert (q = q') by nia. subst. lia. Qed.

Lemma counterIndex_inj b e t k b' e' t' k' :
  inIndexSpace E B K T b e t k -> inIndexSpace E B K T b' e' t' k' ->
  counterIndex E B T b e t k = counterIndex E B T b' e' t' k' ->
  b = b' /\ e = e' /\ t = t' /\ k = k'.
Proof.
  intros (Hb & He & Ht & Hk) (Hb' & He' & Ht' & Hk').
  rewrite !counterIndex_digits. intros Heq.
  apply digit_unique in Heq as [Heq ->]; [|lia..].
  apply digit_unique in Heq as [Heq ->]; [|lia..].
  apply digit_unique in Heq as [-> ->]; [|lia..].
  auto.
Qed.

Lemma counterIndex_bounds b e t k :
  inIndexSpace E B K T b e t k ->
  0 <= counterIndex E B T b e t k <= totalElements E B K T - 1.
Proof.
  intros (Hb & He & Ht & Hk). rewrite counterIndex_digits.
  unfold totalElements.
  assert (0 <= k * B + b <= K * B - 1) by nia.
  assert (0 <= (k * B + b) * T + t <= K * B * T - 1) by nia.
  nia.
Qed.

Lemma counterIndex_last :
  counterIndex E B T (B - 1) (E - 1) (T - 1) (K - 1)
  = totalElements E B K T - 1.
Proof. unfold counterIndex, totalElements. ring. Qed.

End CounterLayoutFacts.

(** The index as an exact integer. For positive [entries],
    [basicBlocks], [threadBlocks] and [threads], the number
    [b*entries*threads + k*basicBlocks*threads*entries + t*entries + e]
    is injective on the index space [0 <= b < basicBlocks],
    [0 <= e < entries], [0 <= t < threads], [0 <= k < threadBlocks]; it
    stays between 0 and [totalElements - 1] there, and the value
    [totalElements - 1] is taken, at the last point of the index space. *)
Lemma counterIndex_exact (E B K T : Z) :
  0 < E -> 0 < B -> 0 < K -> 0 < T ->
  (forall b e t k b' e' t' k',
      BasicBlockInstrumentor.inIndexSpace E B K T b e t k ->
      BasicBlockInstrumentor.inIndexSpace E B K T b' e' t' k' ->
      BasicBlockInstrumentor.counterIndex E B T b e t k
      = BasicBlockInstrumentor.counterIndex E B T b' e' t' k' ->
      b = b' /\ e = e' /\ t = t' /\ k = k')
  /\ (forall b e t k,
         BasicBlockInstrumentor.inIndexSpace E B K T b e t k ->
         0 <= BasicBlockInstrumentor.counterIndex E B T b e t k
           <= BasicBlockInstrumentor.totalElements E B K T - 1)
  /\ BasicBlockInstrumentor.inIndexSpace E B K T (B - 1) (E - 1) (T - 1) (K - 1)
  /\ BasicBlockInstrumentor.counterIndex E B T (B - 1) (E - 1) (T - 1) (K - 1)
     = BasicBlockInstrumentor.totalElements E B K T - 1.
Proof.
  intros HE HB HK HT. split; [|split; [|split]].
  - intros b e t k b' e' t' k'. apply counterIndex_inj; assumption.
  - intros b e t k. apply counterIndex_bounds; assumption.
  - unfold BasicBlockInstrumentor.inIndexSpace. lia.
  - apply counterIndex_last.
Qed.

(** The subscript of [extractResults] is the exact index reduced to 64
    bits. *)
Lemma subscript_reduced (E B T i k j : Z) :
  BasicBlockInstrumentor.subscript E B T i k j
  = u64 (i * E * T + k * B * T * E + j).
Proof.
  unfold BasicBlockInstrumentor.subscript.
  rewrite (u64_mul_l (i * E) T).
  rewrite (u64_mul_l (k * B) T), (u64_mul_l (k * B * T) E).
  rewrite u64_add_l.
  rewrite <- Z.add_assoc, u64_add_l.
  replace (i * E * T + (u64 (k * B * T * E) + j))
    with (u64 (k * B * T * E) + (i * E * T + j)) by lia.
  rewrite u64_add_l. f_equal. lia.
Qed.

(** While the counters are fewer than [2^64] the subscript is the exact
    index, for the entry at [j = t * entries + e] and for [j] reduced to
    [size_t], as the code forms [j + 1]. *)
Lemma subscript_counterIndex (E B K T b e t k : Z) :
  0 < E -> 0 < B -> 0 < K -> 0 < T ->
  BasicBlockInstrumentor.totalElements E B K T < 2 ^ 64 ->
  BasicBlockInstrumentor.inIndexSpace E B K T b e t k ->
  BasicBlockInstrumentor.subscript E B T b k (t * E + e)
  = BasicBlockInstrumentor.counterIndex E B T b e t k
  /\ BasicBlockInstrumentor.subscript E B T b k (u64 (t * E + e))
     = BasicBlockInstrumentor.counterIndex E B T b e t k.
Proof.
  intros HE HB HK HT Hfit Hin.
  assert (Hb : 0 <= BasicBlockInstrumentor.counterIndex E B T b e t k
               <= BasicBlockInstrumentor.totalElements E B K T - 1)
    by (apply counterIndex_bounds; assumption).
  destruct Hin as (Hb0 & He0 & Ht0 & Hk0).
  assert (H1 : 0 <= b * E * T)
    by (apply Z.mul_nonneg_nonneg; [apply Z.mul_nonneg_nonneg|]; lia).
  assert (H2 : 0 <= k * B * T * E)
    by (repeat apply Z.mul_nonneg_nonneg; lia).
  assert (H3 : 0 <= t * E) by (apply Z.mul_nonneg_nonneg; lia).
  unfold BasicBlockInstrumentor.counterIndex in *.
  rewrite !subscript_reduced, (u64_small (t * E + e)) by lia.
  split; apply u64_small; lia.
Qed.

(** C1, amended. For positive [entries], [basicBlocks], [threadBlocks]
    and [threads] whose product, the number of counters, is below
    [2^64], the subscript that [extractResults] evaluates in [size_t]
    is the flattened index
    [b*entries*threads + k*basicBlocks*threads*entries + t*entries + e];
    it is injective on the index space [0 <= b < basicBlocks],
    [0 <= e < entries], [0 <= t < threads], [0 <= k < threadBlocks],
    stays between 0 and [totalElements - 1] there, and takes the value
    [totalElements - 1] at the last point of the index space. *)
Theorem subscript_injective_max (E B K T : Z) :
  0 < E -> 0 < B -> 0 < K -> 0 < T ->
  BasicBlockInstrumentor.totalElements E B K T < 2 ^ 64 ->
  (forall b e t k,
      BasicBlockInstrumentor.inIndexSpace E B K T b e t k ->
      BasicBlockInstrumentor.subscript E B T b k (t * E + e)
      = BasicBlockInstrumentor.counterIndex E B T b e t k
      /\ BasicBlockInstrumentor.subscript E B T b k (u64 (t * E + e))
         = BasicBlockInstrumentor.counterIndex E B T b e t k)
  /\ (forall b e t k b' e' t' k',
         BasicBlockInstrumentor.inIndexSpace E B K T b e t k ->
         BasicBlockInstrumentor.inIndexSpace E B K T b' e' t' k' ->
         BasicBlockInstrumentor.subscript E B T b k (t * E + e)
         = BasicBlockInstrumentor.subscript E B T b' k' (t' * E + e') ->
         b = b' /\ e = e' /\ t = t' /\ k = k')
  /\ (forall b e t k,
         BasicBlockInstrumentor.inIndexSpace E B K T b e t k ->
         0 <= BasicBlockInstrumentor.subscript E B T b k (t * E + e)
           <= BasicBlockInstrumentor.totalElements E B K T - 1)
  /\ BasicBlockInstrumentor.inIndexSpace E B K T (B - 1) (E - 1) (T - 1) (K - 1)
  /\ BasicBlockInstrumentor.subscript E B T (B - 1) (K - 1)
       ((T - 1) * E + (E - 1))
     = BasicBlockInstrumentor.totalElements E B K T - 1.
Proof.
  intros HE HB HK HT Hfit.
  assert (Hlast : BasicBlockInstrumentor.inIndexSpace E B K T
                    (B - 1) (E - 1) (T - 1) (K - 1))
    by (unfold BasicBlockInstrumentor.inIndexSpace; lia).
  split; [|split; [|split; [|split]]].
  - intros b e t k Hin. apply (subscript_counterIndex E B K T); assumption.
  - intros b e t k b' e' t' k' Hin Hin'.
    rewrite (proj1 (subscript_counterIndex E B K T b e t k
                      HE HB HK HT Hfit Hin)).
    rewrite (proj1 (subscript_counterIndex E B K T b' e' t' k'
                      HE HB HK HT Hfit Hin')).
    intros Heq. eapply counterIndex_inj; eassumption.
  - intros b e t k Hin.
    rewrite (proj1 (subscript_counterIndex E B K T b e t k
                      HE HB HK HT Hfit Hin)).
    apply counterIndex_bounds; assumption.
  - exact Hlast.
  - rewrite (proj1 (subscript_counterIndex E B K T _ _ _ _
                      HE HB HK HT Hfit Hlast)).
    apply counterIndex_last.
Qed.

Lemma subscript_injective_max_witness :
  (forall b e t k,
      BasicBlockInstrumentor.inIndexSpace 2 3 2 4 b e t k ->
      BasicBlockInstrumentor.subscript 2 3 4 b k (t * 2 + e)
      = BasicBlockInstrumentor.counterIndex 2 3 4 b e t k
      /\ BasicBlockInstrumentor.subscript 2 3 4 b k (u64 (t * 2 + e))
         = BasicBlockInstrumentor.counterIndex 2 3 4 b e t k)
  /\ (forall b e t k b' e' t' k',
         BasicBlockInstrumentor.inIndexSpace 2 3 2 4 b e t k ->
         BasicBlockInstrumentor.inIndexSpace 2 3 2 4 b' e' t' k' ->
         BasicBlockInstrumentor.subscript 2 3 4 b k (t * 2 + e)
         = BasicBlockInstrumentor.subscript 2 3 4 b' k' (t' * 2 + e') ->
         b = b' /\ e = e' /\ t = t' /\ k = k')
  /\ (forall b e t k,
         BasicBlockInstrumentor.inIndexSpace 2 3 2 4 b e t k ->
         0 <= BasicBlockInstrumentor.subscript 2 3 4 b k (t * 2 + e)
           <= BasicBlockInstrumentor.totalElements 2 3 2 4 - 1)
  /\ BasicBlockInstrumentor.inIndexSpace 2 3 2 4 (3 - 1) (2 - 1) (4 - 1) (2 - 1)
  /\ BasicBlockInstrumentor.subscript 2 3 4 (3 - 1) (2 - 1)
       ((4 - 1) * 2 + (2 - 1))
     = BasicBlockInstrumentor.totalElements 2 3 2 4 - 1.
Proof.
  apply (subscript_injective_max 2 3 2 4); try lia. vm_compute. reflexivity.
Defined.

(** Without the bound the subscript wraps around. With two entries,
    [2^31] basic blocks, [2^31] thread blocks and four threads, all of
    them values of [unsigned int], the counter of thread block [2^30]
    has the exact index [2^64] and the subscript 0, that of the first
    counter; [initialize] asks for 0 bytes. *)
Lemma subscript_wraps_and_collides :
  BasicBlockInstrumentor.inIndexSpace 2 (2 ^ 31) (2 ^ 31) 4 0 0 0 0
  /\ BasicBlockInstrumentor.inIndexSpace 2 (2 ^ 31) (2 ^ 31) 4 0 0 0 (2 ^ 30)
  /\ BasicBlockInstrumentor.counterIndex 2 (2 ^ 31) 4 0 0 0 (2 ^ 30) = 2 ^ 64
  /\ BasicBlockInstrumentor.subscript 2 (2 ^ 31) 4 0 0 (0 * 2 + 0) = 0
  /\ BasicBlockInstrumentor.subscript 2 (2 ^ 31) 4 0 (2 ^ 30) (0 * 2 + 0) = 0
  /\ BasicBlockInstrumentor.counterBytes 2 (2 ^ 31) (2 ^ 31) 4 = 0.
Proof.
  unfold BasicBlockInstrumentor.inIndexSpace.
  repeat split; try (vm_compute; reflexivity); try lia;
    vm_compute; discriminate.
Qed.

(** ** createPass *)

Section CreatePass.

Import BasicBlockInstrumentor.

Lemma createPass_memoryIntensity this :
  type this = memoryIntensity ->
  createPass this
  = Ok (set_entries 2 (set_entries 1 this),
        BasicBlockInstrumentationPass.mk MemoryIntensityPass 2).
Proof. intros H. unfold createPass. simpl. rewrite H. reflexivity. Qed.

Lemma createPass_executionCount this :
  type this = executionCount ->
  createPass this
  = Ok (set_entries 1 this,
        BasicBlockInstrumentationPass.mk BasicBlockExecutionCountPass 1).
Proof. intros H. unfold createPass. simpl. rewrite H. reflexivity. Qed.

Lemma createPass_instructionCount this :
  type this = instructionCount ->
  createPass this
  = Ok (set_entries 1 this,
        BasicBlockInstrumentationPass.mk DynamicInstructionCountPass 1).
Proof. intros H. unfold createPass. simpl. rewrite H. reflexivity. Qed.

Lemma createPass_unset this :
  type this <> executionCount -> type this <> instructionCount ->
  type this <> memoryIntensity ->
  createPass this
  = Fault (Exception "No basic block instrumentation pass specified!").
Proof.
  intros H1 H2 H3. unfold createPass. simpl.
  destruct (Z.eqb_spec (type this) executionCount); [contradiction|].
  destruct (Z.eqb_spec (type this) instructionCount); [contradiction|].
  destruct (Z.eqb_spec (type this) memoryIntensity); [contradiction|].
  reflexivity.
Qed.

End CreatePass.

(** C5. [createPass] returns a pass whose [entries] is 2 when the type is
    [memoryIntensity] and 1 when it is [executionCount] or
    [instructionCount], the instrumentor's own [entries] being set to the
    same value; for every other value of [type] it throws the exception
    "No basic block instrumentation pass specified!". [createPass] is a
    function of the instrumentor alone: it makes no call to the device. *)
Theorem createPass_entries (this : BasicBlockInstrumentor.t) :
  (BasicBlockInstrumentor.type this = memoryIntensity ->
   exists this' pass,
     BasicBlockInstrumentor.createPass this = Ok (this', pass)
     /\ BasicBlockInstrumentationPass.class pass = MemoryIntensityPass
     /\ BasicBlockInstrumentationPass.entries pass = 2
     /\ BasicBlockInstrumentor.entries this' = 2)
  /\ (BasicBlockInstrumentor.type this = executionCount ->
      exists this' pass,
        BasicBlockInstrumentor.createPass this = Ok (this', pass)
        /\ BasicBlockInstrumentationPass.class pass = BasicBlockExecutionCountPass
        /\ BasicBlockInstrumentationPass.entries pass = 1
        /\ BasicBlockInstrumentor.entries this' = 1)
  /\ (BasicBlockInstrumentor.type this = instructionCount ->
      exists this' pass,
        BasicBlockInstrumentor.createPass this = Ok (this', pass)
        /\ BasicBlockInstrumentationPass.class pass = DynamicInstructionCountPass
        /\ BasicBlockInstrumentationPass.entries pass = 1
        /\ BasicBlockInstrumentor.entries this' = 1)
  /\ (BasicBlockInstrumentor.type this <> memoryIntensity ->
      BasicBlockInstrumentor.type this <> executionCount ->
      BasicBlockInstrumentor.type this <> instructionCount ->
      BasicBlockInstrumentor.createPass this
      = Fault (Exception "No basic block instrumentation pass specified!")).
Proof.
  split; [|split; [|split]].
  - intros H. rewrite (createPass_memoryIntensity _ H). eauto 10.
  - intros H. rewrite (createPass_executionCount _ H). eauto 10.
  - intros H. rewrite (createPass_instructionCount _ H). eauto 10.
  - intros H1 H2 H3. apply createPass_unset; assumption.
Qed.

Lemma createPass_entries_witness :
  (exists this' pass,
      BasicBlockInstrumentor.createPass (Examples.instrumentor "k" 2)
      = Ok (this', pass)
      /\ BasicBlockInstrumentationPass.class pass = MemoryIntensityPass
      /\ BasicBlockInstrumentationPass.entries pass = 2
      /\ BasicBlockInstrumentor.entries this' = 2)
  /\ (exists this' pass,
         BasicBlockInstrumentor.createPass (Examples.instrumentor "k" 1)
         = Ok (this', pass)
         /\ BasicBlockInstrumentationPass.class pass = BasicBlockExecutionCountPass
         /\ BasicBlockInstrumentationPass.entries pass = 1
         /\ BasicBlockInstrumentor.entries this' = 1)
  /\ (exists this' pass,
         BasicBlockInstrumentor.createPass (Examples.instrumentor "k" 0)
         = Ok (this', pass)
         /\ BasicBlockInstrumentationPass.class pass = DynamicInstructionCountPass
         /\ BasicBlockInstrumentationPass.entries pass = 1
         /\ BasicBlockInstrumentor.entries this' = 1)
  /\ BasicBlockInstrumentor.createPass (Examples.instrumentor "k" 7)
     = Fault (Exception "No basic block instrumentation pass specified!").
Proof.
  split; [|split; [|split]].
  - apply (createPass_entries (Examples.instrumentor "k" 2)). reflexivity.
  - apply (createPass_entries (Examples.instrumentor "k" 1)). reflexivity.
  - apply (createPass_entries (Examples.instrumentor "k" 0)). reflexivity.
  - apply (createPass_entries (Examples.instrumentor "k" 7)); discriminate.
Defined.

(** ** analyze *)

Section Analyze.

Import BasicBlockInstrumentor.

(** With a target kernel that the module has: the size of its dataflow
    graph less two, and its labels without the two boundary blocks. *)
Lemma analyze_named module this kernel :
  kernelName this <> EmptyString ->
  Module_.kernels module !! kernelName this = Some kernel ->
  analyze module this
  = Ok (set_labels
          (labels this
           ++ filter (fun l => is_boundary l = false) (Kernel.cfg kernel))
          (set_basicBlocks (u32 (u64 (Kernel.dfg_size kernel - 2))) this)).
Proof.
  intros Hname Hfind. unfold analyze, find_kernel.
  destruct (String.eqb_spec (kernelName this) EmptyString) as [|_];
    [contradiction|].
  simpl. rewrite Hfind. simpl. rewrite Hfind. reflexivity.
Qed.

Lemma add_kernel_sum (l : list (string * Kernel.t)) (acc : Z) :
  foldl add_kernel (u32 acc) l
  = u32 (acc + sumZ id (map (fun kv => Kernel.dfg_size kv.2) l)).
Proof.
  revert acc. induction l as [|kv l IH]; intros acc; simpl.
  - f_equal. lia.
  - unfold add_kernel at 2.
    rewrite u32_u64.
    replace (u32 (u32 acc + Kernel.dfg_size kv.2))
      with (u32 (acc + Kernel.dfg_size kv.2)).
    + rewrite IH. f_equal. unfold id. lia.
    + unfold u32, wrap. now rewrite Zplus_mod_idemp_l.
Qed.

(** Without a target kernel the count is the sum of the sizes of the
    dataflow graphs of all kernels, boundary blocks included. *)
Lemma analyze_all_kernels module :
  foldl add_kernel 0 (map_to_list (Module_.kernels module))
  = u32 (sumZ id (map (fun kv => Kernel.dfg_size kv.2)
                    (map_to_list (Module_.kernels module)))).
Proof. apply (add_kernel_sum _ 0). Qed.

(** Without a target kernel the labels are still those of the kernel
    looked up under [kernelName], the empty string. *)
Lemma analyze_unnamed module this kernel :
  kernelName this = EmptyString ->
  Module_.kernels module !! EmptyString = Some kernel ->
  analyze module this
  = Ok (set_labels
          (labels this
           ++ filter (fun l => is_boundary l = false) (Kernel.cfg kernel))
          (set_basicBlocks
             (u32 (sumZ id (map (fun kv => Kernel.dfg_size kv.2)
                              (map_to_list (Module_.kernels module)))))
             this)).
Proof.
  intros Hname Hfind. unfold analyze, find_kernel. rewrite Hname. simpl.
  rewrite Hname, Hfind, analyze_all_kernels. reflexivity.
Qed.

(** A module has no kernel of that name unless one was declared with an
    empty name: the look-up of line 49 then yields the end iterator. *)
Lemma analyze_unnamed_undefined module this :
  kernelName this = EmptyString ->
  Module_.kernels module !! EmptyString = None ->
  analyze module this = Fault Undefined.
Proof.
  intros Hname Hfind. unfold analyze, find_kernel. rewrite Hname. simpl.
  rewrite Hname, Hfind. reflexivity.
Qed.

End Analyze.


(** C7, without a target kernel: on the same module and an empty
    [kernelName], [analyze] does not build a label list; after the sum of
    line 44 it dereferences the end iterator of the kernel map. *)
Theorem analyze_no_target_undefined :
  BasicBlockInstrumentor.kernelName (Examples.instrumentor "" 1) = EmptyString
  /\ BasicBlockInstrumentor.analyze Examples.module1 (Examples.instrumentor "" 1)
     = Fault Undefined.
Proof.
  split; [reflexivity|].
  apply analyze_unnamed_undefined; reflexivity.
Qed.

(** ** Header::address *)

Section HeaderAddress.

Import ir.

Lemma extrema_min addr h :
  Header.global_min_address (Header.extrema addr h)
  = if Header.global_min_address h =? 0 then addr
    else Z.min (Header.global_min_address h) addr.
Proof.
  unfold Header.extrema. destruct h; simpl.
  destruct (Z.eqb_spec global_min_address 0);
    destruct (Z.ltb_spec addr global_min_address); simpl;
    destruct (Z.eqb_spec global_max_address 0);
    destruct (Z.ltb_spec global_max_address addr); simpl; lia.
Qed.

Lemma extrema_max addr h :
  Header.global_max_address (Header.extrema addr h)
  = if Header.global_max_address h =? 0 then addr
    else Z.max (Header.global_max_address h) addr.
Proof.
  unfold Header.extrema. destruct h; simpl.
  destruct (Z.eqb_spec global_min_address 0);
    destruct (Z.ltb_spec addr global_min_address); simpl;
    destruct (Z.eqb_spec global_max_address 0);
    destruct (Z.ltb_spec global_max_address addr); simpl; lia.
Qed.

Lemma extrema_words addr h :
  Header.global_words (Header.extrema addr h) = Header.global_words h
  /\ Header.texture_words (Header.extrema addr h) = Header.texture_words h.
Proof.
  unfold Header.extrema. destruct h; simpl.
  destruct (_ || _); simpl; destruct (_ || _); simpl; auto.
Qed.

(** One call for the Global space. *)
Lemma address_Global addr h :
  let h' := Header.address Global addr h in
  Header.global_min_address h'
  = (if Header.global_min_address h =? 0 then addr
     else Z.min (Header.global_min_address h) addr)
  /\ Header.global_max_address h'
     = (if Header.global_max_address h =? 0 then addr
        else Z.max (Header.global_max_address h) addr)
  /\ Header.global_words h' = u64 (Header.global_words h + 1).
Proof.
  simpl. rewrite <- extrema_min, <- extrema_max.
  rewrite <- (proj1 (extrema_words addr h)).
  destruct (Header.extrema addr h); auto.
Qed.

(** One call for the Texture space: the same extrema, the other counter. *)
Lemma address_Texture addr h :
  let h' := Header.address Texture addr h in
  Header.global_min_address h'
  = (if Header.global_min_address h =? 0 then addr
     else Z.min (Header.global_min_address h) addr)
  /\ Header.global_max_address h'
     = (if Header.global_max_address h =? 0 then addr
        else Z.max (Header.global_max_address h) addr)
  /\ Header.texture_words h' = u64 (Header.texture_words h + 1).
Proof.
  simpl. rewrite <- extrema_min, <- extrema_max.
  rewrite <- (proj2 (extrema_words addr h)).
  destruct (Header.extrema addr h); auto.
Qed.

Lemma address_traced space addr h :
  space = Global \/ space = Texture ->
  let h' := Header.address space addr h in
  Header.global_min_address h'
  = (if Header.global_min_address h =? 0 then addr
     else Z.min (Header.global_min_address h) addr)
  /\ Header.global_max_address h'
     = (if Header.global_max_address h =? 0 then addr
        else Z.max (Header.global_max_address h) addr)
  /\ Header.words space h' = u64 (Header.words space h + 1).
Proof.
  intros [-> | ->]; [apply address_Global | apply address_Texture].
Qed.

Lemma address_untraced space addr h :
  space = Const \/ space = Local \/ space = Param \/ space = Shared ->
  Header.address space addr h = h.
Proof. intros [-> | [-> | [-> | ->]]]; reflexivity. Qed.

Lemma addresses_app space l1 l2 h :
  Header.addresses space (l1 ++ l2) h
  = Header.addresses space l2 (Header.addresses space l1 h).
Proof. unfold Header.addresses. apply foldl_app. Qed.

Lemma addresses_cons space a l h :
  Header.addresses space (a :: l) h
  = Header.addresses space l (Header.address space a h).
Proof. reflexivity. Qed.

(** The word counter advances by one for every call. *)
Lemma addresses_words_mod space l h :
  space = Global \/ space = Texture ->
  u64 (Header.words space (Header.addresses space l h))
  = u64 (Header.words space h + Z.of_nat (length l)).
Proof.
  intros Hs. revert h. induction l as [|a l IH]; intros h.
  - simpl. f_equal. lia.
  - rewrite addresses_cons, IH.
    destruct (address_traced space a h Hs) as (_ & _ & ->).
    rewrite u64_add_l. f_equal. simpl length. lia.
Qed.

Lemma addresses_words space l h :
  space = Global \/ space = Texture -> l <> [] ->
  Header.words space (Header.addresses space l h)
  = u64 (Header.words space h + Z.of_nat (length l)).
Proof.
  intros Hs Hl. destruct (exists_last Hl) as (l' & a & ->).
  rewrite addresses_app. simpl.
  destruct (address_traced space a (Header.addresses space l' h) Hs)
    as (_ & _ & ->).
  rewrite <- u64_add_l, addresses_words_mod, u64_add_l by assumption.
  f_equal. rewrite length_app. simpl. lia.
Qed.

(** While only zero addresses are seen the extrema stay unset. *)
Lemma addresses_zeros space n h :
  space = Global \/ space = Texture ->
  Header.global_min_address h = 0 -> Header.global_max_address h = 0 ->
  let h' := Header.addresses space (replicate n 0) h in
  Header.global_min_address h' = 0 /\ Header.global_max_address h' = 0.
Proof.
  intros Hs. revert h. induction n as [|n IH]; intros h Hmin Hmax.
  - simpl. auto.
  - simpl replicate. rewrite addresses_cons. apply IH.
    + destruct (address_traced space 0 h Hs) as (-> & _ & _).
      rewrite Hmin. reflexivity.
    + destruct (address_traced space 0 h Hs) as (_ & -> & _).
      rewrite Hmax. reflexivity.
Qed.

(** Once the extrema are set, non-zero addresses update them as minimum
    and maximum. *)
Lemma addresses_positive space l h :
  space = Global \/ space = Texture ->
  0 < Header.global_min_address h -> 0 < Header.global_max_address h ->
  Forall (fun a => 0 < a) l ->
  let h' := Header.addresses space l h in
  Header.global_min_address h' = foldl Z.min (Header.global_min_address h) l
  /\ Header.global_max_address h' = foldl Z.max (Header.global_max_address h) l.
Proof.
  intros Hs Hmin Hmax Hl. revert h Hmin Hmax.
  induction Hl as [|a l Ha _ IH]; intros h Hmin Hmax.
  - simpl. auto.
  - rewrite addresses_cons. simpl foldl.
    destruct (address_traced space a h Hs) as (Emin & Emax & _).
    destruct (Z.eqb_spec (Header.global_min_address h) 0); [lia|].
    destruct (Z.eqb_spec (Header.global_max_address h) 0); [lia|].
    rewrite <- Emin, <- Emax. apply IH; lia.
Qed.

(** The maximum needs no such condition: on addresses that are not
    negative it is the maximum of all of them. *)
Lemma addresses_max space l h :
  space = Global \/ space = Texture ->
  0 <= Header.global_max_address h -> Forall (fun a => 0 <= a) l ->
  Header.global_max_address (Header.addresses space l h)
  = foldl Z.max (Header.global_max_address h) l.
Proof.
  intros Hs Hmax Hl. revert h Hmax.
  induction Hl as [|a l Ha _ IH]; intros h Hmax; [reflexivity|].
  rewrite addresses_cons. simpl foldl.
  destruct (address_traced space a h Hs) as (_ & Emax & _).
  assert (E : Header.global_max_address (Header.address space a h)
              = Z.max (Header.global_max_address h) a).
  { rewrite Emax. destruct (Z.eqb_spec (Header.global_max_address h) 0); lia. }
  rewrite <- E. apply IH. lia.
Qed.

End HeaderAddress.

(** A zero address seen after a non-zero one brings the minimum back to
    the unset value, and the next address replaces it: after 100, 0, 200
    the minimum is 200, neither the least address nor the least non-zero
    one. *)
Lemma address_minimum_is_reset :
  Header.global_min_address (Header.addresses Global [100] Header.Header) = 100
  /\ Header.global_min_address (Header.addresses Global [100; 0] Header.Header) = 0
  /\ Header.global_min_address (Header.addresses Global [100; 0; 200] Header.Header)
     = 200
  /\ Header.global_min_address (Header.addresses Global [100; 0; 200] Header.Header)
     <> Z.min (Header.global_min_address
                (Header.addresses Global [100; 0] Header.Header)) 200.
Proof. repeat split. discriminate. Qed.

(** C8, amended. For the Global and the Texture space [address] keeps
    [global_min_address] and [global_max_address] at zero while only zero
    addresses are seen; the first non-zero address sets both; from then
    on, as long as the addresses are non-zero, each call takes the
    minimum and the maximum with the new address; every call advances the
    word counter of the space by one. The maximum is the maximum of all
    addresses seen even when zero addresses occur. In one call each
    extremum becomes the address when it was zero, and else the minimum,
    or the maximum, of itself and the address: so a zero address brings
    a minimum that was set back to zero, and the address after it
    replaces the minimum, whether it is smaller than the minimum was or
    not. Addresses 100, 50, 200 on a fresh header give 50, 200 and three
    words. For the Const, Local, Param and Shared spaces the header is
    unchanged. *)
Theorem address_extrema_and_words :
  (forall space n a rest h,
      space = Global \/ space = Texture ->
      Header.global_min_address h = 0 -> Header.global_max_address h = 0 ->
      0 < a -> Forall (fun x => 0 < x) rest ->
      let unset := Header.addresses space (replicate n 0) h in
      let h' := Header.addresses space (replicate n 0 ++ a :: rest) h in
      Header.global_min_address unset = 0
      /\ Header.global_max_address unset = 0
      /\ Header.global_min_address h' = foldl Z.min a rest
      /\ Header.global_max_address h' = foldl Z.max a rest
      /\ Header.words space h'
         = u64 (Header.words space h + Z.of_nat (n + 1 + length rest)))
  /\ (forall space addr h,
         space = Global \/ space = Texture ->
         Header.words space (Header.address space addr h)
         = u64 (Header.words space h + 1))
  /\ (forall space l h,
         space = Global \/ space = Texture ->
         0 <= Header.global_max_address h -> Forall (fun x => 0 <= x) l ->
         Header.global_max_address (Header.addresses space l h)
         = foldl Z.max (Header.global_max_address h) l)
  /\ (let h' := Header.addresses Global [100; 50; 200] Header.Header in
      Header.global_min_address h' = 50 /\ Header.global_max_address h' = 200
      /\ Header.global_words h' = 3)
  /\ (forall space addr h,
         space = Const \/ space = Local \/ space = Param \/ space = Shared ->
         Header.address space addr h = h)
  /\ (forall space addr h,
         space = Global \/ space = Texture ->
         Header.global_min_address (Header.address space addr h)
         = (if Header.global_min_address h =? 0 then addr
            else Z.min (Header.global_min_address h) addr)
         /\ Header.global_max_address (Header.address space addr h)
            = (if Header.global_max_address h =? 0 then addr
               else Z.max (Header.global_max_address h) addr))
  /\ (forall space a h,
         space = Global \/ space = Texture ->
         0 <= Header.global_min_address h ->
         Header.global_min_address (Header.address space 0 h) = 0
         /\ Header.global_min_address (Header.addresses space [0; a] h) = a).
Proof.
  split; [|split; [|split; [|split; [|split; [|split]]]]].
  - intros space n a rest h Hs Hmin Hmax Ha Hrest unset h'.
    destruct (addresses_zeros space n h Hs Hmin Hmax) as [Zmin Zmax].
    split; [exact Zmin|]. split; [exact Zmax|].
    subst h'. rewrite addresses_words
      by (auto; destruct (replicate n 0); discriminate).
    rewrite addresses_app, addresses_cons. fold unset.
    destruct (address_traced space a unset Hs) as (Emin & Emax & _).
    fold unset in Zmin, Zmax. rewrite Zmin in Emin. rewrite Zmax in Emax.
    simpl in Emin, Emax.
    destruct (addresses_positive space rest (Header.address space a unset) Hs)
      as [Rmin Rmax]; try assumption; try lia.
    rewrite Emin in Rmin. rewrite Emax in Rmax.
    split; [exact Rmin|]. split; [exact Rmax|].
    f_equal. rewrite length_app, length_replicate. simpl. lia.
  - intros space addr h Hs. apply (address_traced space addr h Hs).
  - apply addresses_max.
  - repeat split.
  - apply address_untraced.
  - intros space addr h Hs.
    destruct (address_traced space addr h Hs) as (Emin & Emax & _). auto.
  - intros space a h Hs Hmin.
    assert (Hzero : Header.global_min_address (Header.address space 0 h) = 0).
    { destruct (address_traced space 0 h Hs) as (-> & _ & _).
      destruct (Z.eqb_spec (Header.global_min_address h) 0); lia. }
    split; [exact Hzero|].
    rewrite addresses_cons. change (Header.addresses space [a] ?x)
      with (Header.address space a x).
    destruct (address_traced space a (Header.address space 0 h) Hs)
      as (-> & _ & _).
    rewrite Hzero. reflexivity.
Qed.

Lemma address_extrema_and_words_witness :
  (let h' := Header.addresses Global (replicate 0 0 ++ 100 :: [50; 200])
               Header.Header in
   Header.global_min_address h' = foldl Z.min 100 [50; 200]
   /\ Header.global_max_address h' = foldl Z.max 100 [50; 200]
   /\ Header.words Global h'
      = u64 (Header.words Global Header.Header + Z.of_nat (0 + 1 + 2)))
  /\ Header.global_min_address
       (Header.address Global 0 (Header.addresses Global [100] Header.Header))
     = 0
  /\ Header.global_min_address
       (Header.addresses Global [0; 200]
          (Header.addresses Global [100] Header.Header))
     = 200.
Proof.
  destruct address_extrema_and_words
    as (Hrun & _ & _ & _ & _ & _ & Hreset).
  split.
  - apply (Hrun Global 0%nat 100 [50; 200] Header.Header).
    + left; reflexivity.
    + reflexivity.
    + reflexivity.
    + lia.
    + repeat constructor.
  - apply (Hreset Global 200 (Header.addresses Global [100] Header.Header)).
    + left; reflexivity.
    + vm_compute. discriminate.
Defined.

(** ** finish *)

Section Finish.

Import MemoryTraceGenerator.

(** Without an open access log [finish] does nothing. *)
Lemma finish_closed w this :
  _file this = None -> finish w this = Ok (this, w).
Proof. intros H. unfold finish. rewrite H. reflexivity. Qed.

(** A [finish] that completes leaves the access log closed. *)
Lemma finish_closes w this this' w' :
  finish w this = Ok (this', w') -> _file this' = None.
Proof.
  unfold finish. destruct (_file this) as [log|] eqn:Hfile.
  - destruct (World.opens _ _); [|discriminate].
    intros [= <- _]. reflexivity.
  - intros [= <- _]. exact Hfile.
Qed.

(** With an open log it registers the entry, closes the log and writes
    the header, in that order. *)
Lemma finish_open w this log :
  _file this = Some log ->
  World.opens w (TraceEntry.header (_entry this)) = true ->
  finish w this
  = Ok (set_file None this,
        World.mk (World.opens w)
          (World.performed w
           ++ [UpdateDatabase (database this) (_entry this)]
           ++ [CloseTrace log]
           ++ [WriteHeader (TraceEntry.header (_entry this)) (_header this)])).
Proof.
  intros Hfile Hopen. unfold finish. rewrite Hfile. simpl. rewrite Hopen.
  unfold World.perform. simpl. rewrite <- !app_assoc. reflexivity.
Qed.

End Finish.

(** C9. After a [finish] that completed, a second [finish] returns the
    generator and the world it is given: no member changes, nothing more
    is written, and nothing more is registered in the database. *)
Theorem finish_twice (w w' : World.t) (this this' : MemoryTraceGenerator.t) :
  MemoryTraceGenerator.finish w this = Ok (this', w') ->
  MemoryTraceGenerator.finish w' this' = Ok (this', w').
Proof.
  intros H. apply finish_closed. exact (finish_closes _ _ _ _ H).
Qed.

Lemma finish_twice_witness :
  exists this' w',
    MemoryTraceGenerator.finish Examples.world (Examples.generator false 8)
    = Ok (this', w')
    /\ length (World.performed w') = 3%nat
    /\ MemoryTraceGenerator.finish w' this' = Ok (this', w').
Proof.
  eexists _, _. split; [reflexivity|]. split; [reflexivity|].
  apply (finish_twice Examples.world _ (Examples.generator false 8)).
  reflexivity.
Defined.

(** ** event: the dynamic counters *)

Section EventFrame.

Import MemoryTraceGenerator.

#[local] Arguments coalesce : simpl never.
#[local] Arguments Header.address : simpl never.
#[local] Arguments Header.access : simpl never.

(** An invariant of the generator that the body of a lane loop keeps is
    kept by the loop. *)
Lemma lanes_preserves (I : t -> Prop)
    (body : Z -> Z -> t * Locals.t -> outcome (t * Locals.t)) :
  (forall a sz s s', I s.1 -> body a sz s = Ok s' -> I s'.1) ->
  forall addresses sizes s s',
    I s.1 -> lanes body addresses sizes s = Ok s' -> I s'.1.
Proof.
  intros Hbody addresses.
  induction addresses as [|a addresses IH]; intros sizes s s' Hs; simpl.
  - intros [= <-]. exact Hs.
  - destruct sizes as [|sz sizes]; [discriminate|].
    destruct (body a sz s) as [[this l]|] eqn:Hb; simpl; [|discriminate].
    apply IH. simpl. exact (Hbody _ _ _ _ Hs Hb).
Qed.

Lemma address_dynamic space addr h :
  Header.dynamic (Header.address space addr h) = Header.dynamic h.
Proof.
  destruct h. unfold Header.dynamic, Header.address, Header.extrema.
  destruct space; cbn; try reflexivity;
    destruct (_ || _); cbn; destruct (_ || _); reflexivity.
Qed.

Lemma access_dynamic space bytes h :
  Header.dynamic (Header.access space bytes h) = Header.dynamic h.
Proof. destruct h, space; reflexivity. Qed.

Lemma coalesce_dynamic halfwarpSize addr size s :
  Header.dynamic (_header (coalesce halfwarpSize addr size s).1)
  = Header.dynamic (_header s.1).
Proof.
  destruct s as [this l]. unfold coalesce.
  destruct (_ <? _); [destruct this as [? ? ? [] ? ?]; reflexivity|].
  destruct (negb _); [destruct this as [? ? ? [] ? ?]; reflexivity|].
  reflexivity.
Qed.

Lemma record_lane_header fuel e copies addr size s s' :
  record_lane fuel e copies addr size s = Ok s' ->
  _header s'.1 = _header s.1.
Proof.
  destruct s as [this l]. unfold record_lane.
  destruct (headerOnly this); [intros [= <-]; reflexivity|].
  destruct (skip_inactive _ _ _ _); simpl; [|discriminate].
  intros [= <-]. reflexivity.
Qed.

Lemma ldst_lane_dynamic fuel e halfwarpSize addr size s s' :
  ldst_lane fuel e halfwarpSize addr size s = Ok s' ->
  Header.dynamic (_header s'.1) = Header.dynamic (_header s.1).
Proof.
  unfold ldst_lane.
  destruct (record_lane fuel e 1 addr size s) as [[this l]|] eqn:Hr; simpl;
    [|discriminate].
  apply record_lane_header in Hr. simpl in Hr.
  intros [= <-]. rewrite coalesce_dynamic. simpl.
  rewrite address_dynamic, Hr. reflexivity.
Qed.

Lemma tex_lane_dynamic fuel e halfwarpSize addr size s s' :
  tex_lane fuel e halfwarpSize addr size s = Ok s' ->
  Header.dynamic (_header s'.1) = Header.dynamic (_header s.1).
Proof.
  unfold tex_lane.
  destruct (record_lane fuel e 4 addr size s) as [[this l]|] eqn:Hr; simpl;
    [|discriminate].
  apply record_lane_header in Hr. simpl in Hr.
  intros [= <-]. rewrite coalesce_dynamic. simpl.
  rewrite address_dynamic, Hr. reflexivity.
Qed.

Lemma serialize_header this this' :
  serialize this = Ok this' -> _header this' = _header this.
Proof.
  unfold serialize. destruct (_file this); [|discriminate].
  intros [= <-]. reflexivity.
Qed.

Lemma trace_accesses_dynamic e space body this this' :
  (forall hw a sz s s',
      body hw a sz s = Ok s' ->
      Header.dynamic (_header s'.1) = Header.dynamic (_header s.1)) ->
  trace_accesses e space body this = Ok this' ->
  Header.dynamic (_header this') = Header.dynamic (_header this).
Proof.
  intros Hbody. unfold trace_accesses.
  set (this0 := if headerOnly this then this else set_event _ this).
  assert (H0 : Header.dynamic (_header this0) = Header.dynamic (_header this)).
  { subst this0. destruct (headerOnly this); reflexivity. }
  destruct (lanes _ _ _ _) as [[this1 l]|] eqn:Hl; simpl; [|discriminate].
  apply (lanes_preserves
           (fun g => Header.dynamic (_header g) = Header.dynamic (_header this))) in Hl.
  - simpl in Hl. destruct (headerOnly this1).
    + intros [= <-]. simpl. rewrite access_dynamic. exact Hl.
    + intros Hs. apply serialize_header in Hs. rewrite Hs. simpl.
      rewrite access_dynamic. exact Hl.
  - intros a sz s s' Hs Hb. rewrite (Hbody _ _ _ _ _ Hb). exact Hs.
  - exact H0.
Qed.

Lemma count_nonneg active : 0 <= count active.
Proof.
  induction active as [|[] active IH]; simpl; lia.
Qed.

Lemma count_le_length active : count active <= Z.of_nat (length active).
Proof.
  induction active as [|[] active IH]; simpl length; simpl count; lia.
Qed.

Lemma count_dynamic_counters e this :
  Header.dynamic (_header (count_dynamic e this))
  = (u64 (Header.dynamic_instructions (_header this) + 1),
     u64 (Header.dynamic_operations (_header this)
          + count (TraceEvent.active e))).
Proof.
  unfold count_dynamic, Header.dynamic. simpl. rewrite u64_add_r. reflexivity.
Qed.

(** What [event] does to the two counters, whatever the opcode. *)
Lemma event_dynamic fuel e this this' :
  event fuel e this = Ok this' ->
  Header.dynamic (_header this')
  = (u64 (Header.dynamic_instructions (_header this) + 1),
     u64 (Header.dynamic_operations (_header this)
          + count (TraceEvent.active e))).
Proof.
  unfold event. rewrite <- count_dynamic_counters.
  destruct (Instruction.opcode _).
  - apply trace_accesses_dynamic. intros hw. apply ldst_lane_dynamic.
  - apply trace_accesses_dynamic. intros hw. apply ldst_lane_dynamic.
  - apply trace_accesses_dynamic. intros hw. apply tex_lane_dynamic.
  - intros [= <-]. reflexivity.
Qed.

End EventFrame.

(** ** event returns on well-formed events *)

Section EventReturns.

Import MemoryTraceGenerator.

#[local] Arguments coalesce : simpl never.
#[local] Arguments Header.address : simpl never.
#[local] Arguments Header.access : simpl never.

Variables (fuel : nat) (e : TraceEvent.t).

Let active := TraceEvent.active e.

(** Set bits of the mask from lane [n] on. *)
Let rest (n : Z) : Z := count (drop (Z.to_nat n) active).

Lemma rest_step (n : Z) (b : bool) :
  0 <= n -> active !! Z.to_nat n = Some b ->
  rest n = (if b then 1 else 0) + rest (n + 1).
Proof.
  intros Hn Hb. unfold rest.
  rewrite (drop_S _ _ _ Hb). replace (Z.to_nat (n + 1)) with (S (Z.to_nat n)) by lia.
  simpl. destruct b; lia.
Qed.

Lemma rest_positive (n : Z) :
  0 <= n -> 1 <= rest n -> exists b, active !! Z.to_nat n = Some b.
Proof.
  intros Hn H. destruct (active !! Z.to_nat n) as [b|] eqn:Hb; [eauto|].
  apply lookup_ge_None in Hb. unfold rest in H.
  rewrite drop_ge in H by lia. simpl in H. lia.
Qed.

Lemma rest_next (n : Z) : 0 <= n -> rest n - 1 <= rest (n + 1).
Proof.
  intros Hn. destruct (active !! Z.to_nat n) as [b|] eqn:Hb.
  - rewrite (rest_step n b Hn Hb). destruct b; lia.
  - apply lookup_ge_None in Hb. unfold rest.
    rewrite !drop_ge by lia. simpl. lia.
Qed.

Hypothesis Hfuel : (length active < fuel)%nat.
Hypothesis Hlanes : Z.of_nat (length active) < 2 ^ 32.

Lemma skip_inactive_returns thread_count threadID :
  0 <= threadID -> 1 <= rest threadID ->
  exists threadID',
    skip_inactive fuel active thread_count threadID = Ok threadID'
    /\ 0 <= threadID' /\ rest threadID' = rest threadID.
Proof.
  assert (G : forall f threadID,
             (length active - Z.to_nat threadID < f)%nat ->
             0 <= threadID -> 1 <= rest threadID ->
             exists threadID',
               skip_inactive f active thread_count threadID = Ok threadID'
               /\ 0 <= threadID' /\ rest threadID' = rest threadID).
  { induction f as [|f IH]; intros tid Hf Htid Hrest; [lia|].
    simpl. destruct (tid <? thread_count); [|eauto].
    destruct (rest_positive tid Htid Hrest) as [b Hb].
    assert (Hlt : (Z.to_nat tid < length active)%nat)
      by (apply lookup_lt_is_Some; eauto).
    unfold at_index. destruct (Z.ltb_spec tid 0); [lia|]. rewrite Hb. simpl.
    destruct b; simpl; [eauto|].
    rewrite (rest_step tid false Htid Hb) in Hrest. simpl in Hrest.
    rewrite u32_small by lia.
    destruct (IH (tid + 1)) as (tid' & -> & ? & Hr); [lia..|].
    exists tid'. rewrite Hr, (rest_step tid false Htid Hb). auto. }
  apply G. lia.
Qed.

(** What the loops over the lanes maintain while accesses are recorded. *)
Let recording (n : Z) (s : t * Locals.t) : Prop :=
  headerOnly s.1 = false /\ is_Some (_file s.1)
  /\ 0 <= Locals.threadID s.2 /\ n <= rest (Locals.threadID s.2).

Lemma coalesce_frame halfwarpSize addr size s :
  let s' := coalesce halfwarpSize addr size s in
  headerOnly s'.1 = headerOnly s.1 /\ _file s'.1 = _file s.1
  /\ _event s'.1 = _event s.1
  /\ Locals.threadID s'.2 = Locals.threadID s.2.
Proof.
  destruct s as [this l]. unfold coalesce.
  destruct (_ <? _); [simpl; auto|].
  destruct (negb _); simpl; auto.
Qed.

Lemma record_lane_returns copies addr size s n :
  1 <= n -> recording n s ->
  exists s', record_lane fuel e copies addr size s = Ok s' /\ recording n s'
             /\ _header s'.1 = _header s.1.
Proof.
  destruct s as [this l]. intros Hn (Hh & Hf & Ht & Hr). simpl in *.
  unfold record_lane. rewrite Hh.
  destruct (skip_inactive_returns (Header.thread_count (_header this))
              (Locals.threadID l)) as (tid' & Hskip & Ht' & Hr'); [lia..|].
  unfold active in Hskip. rewrite Hskip.
  simpl. eexists. split; [reflexivity|]. split; [|reflexivity].
  unfold recording. simpl. rewrite Hr'. auto.
Qed.

Lemma ldst_lane_returns halfwarpSize addr size s n :
  1 <= n -> recording n s ->
  exists s', ldst_lane fuel e halfwarpSize addr size s = Ok s'
             /\ recording n s'.
Proof.
  intros Hn Hs. unfold ldst_lane.
  destruct (record_lane_returns 1 addr size s n Hn Hs)
    as ([this l] & -> & (Hh & Hf & Ht & Hr) & _).
  simpl in *. eexists. split; [reflexivity|].
  unfold recording.
  match goal with |- context [coalesce ?a ?b ?c ?d] =>
    destruct (coalesce_frame a b c d) as (-> & -> & _ & ->) end.
  simpl. auto.
Qed.

Lemma tex_lane_returns halfwarpSize addr size s n :
  1 <= n -> recording n s ->
  exists s', tex_lane fuel e halfwarpSize addr size s = Ok s'
             /\ recording n s'.
Proof.
  intros Hn Hs. unfold tex_lane.
  destruct (record_lane_returns 4 addr size s n Hn Hs)
    as ([this l] & -> & (Hh & Hf & Ht & Hr) & _).
  simpl in *. eexists. split; [reflexivity|].
  unfold recording.
  match goal with |- context [coalesce ?a ?b ?c ?d] =>
    destruct (coalesce_frame a b c d) as (-> & -> & _ & ->) end.
  simpl. auto.
Qed.

Lemma lanes_returns_recording body addresses :
  (forall addr size s n,
      1 <= n -> recording n s ->
      exists s', body addr size s = Ok s' /\ recording n s') ->
  forall sizes s,
    (length addresses <= length sizes)%nat ->
    recording (Z.of_nat (length addresses)) s ->
    exists s', lanes body addresses sizes s = Ok s'
               /\ headerOnly s'.1 = false /\ is_Some (_file s'.1).
Proof.
  intros Hbody.
  induction addresses as [|a addresses IH]; intros sizes s Hlen Hs.
  - simpl. exists s. destruct Hs as (? & ? & _). auto.
  - destruct sizes as [|sz sizes]; simpl in Hlen; [lia|]. simpl lanes.
    assert (Hn : 1 <= Z.of_nat (length (a :: addresses)))
      by (simpl length; lia).
    destruct (Hbody a sz s _ Hn Hs) as ([this l] & -> & (Hh & Hf & Ht & Hr)).
    simpl in *. apply IH; [lia|].
    unfold recording. simpl.
    rewrite u32_small.
    + pose proof (rest_next (Locals.threadID l) Ht). repeat split; auto; lia.
    + destruct (rest_positive (Locals.threadID l) Ht) as [b Hb]; [lia|].
      assert ((Z.to_nat (Locals.threadID l) < length active)%nat)
        by (apply lookup_lt_is_Some; eauto).
      lia.
Qed.

Lemma lanes_returns_headerOnly body addresses :
  (forall addr size s,
      headerOnly s.1 = true ->
      exists s', body addr size s = Ok s' /\ headerOnly s'.1 = true) ->
  forall sizes s,
    (length addresses <= length sizes)%nat ->
    headerOnly s.1 = true ->
    exists s', lanes body addresses sizes s = Ok s'
               /\ headerOnly s'.1 = true.
Proof.
  intros Hbody.
  induction addresses as [|a addresses IH]; intros sizes s Hlen Hs.
  - simpl. eauto.
  - destruct sizes as [|sz sizes]; simpl in Hlen; [lia|]. simpl lanes.
    destruct (Hbody a sz s Hs) as ([this l] & -> & Hh).
    simpl in *. apply IH; [lia|exact Hh].
Qed.

Lemma ldst_lane_headerOnly halfwarpSize addr size s :
  headerOnly s.1 = true ->
  exists s', ldst_lane fuel e halfwarpSize addr size s = Ok s'
             /\ headerOnly s'.1 = true.
Proof.
  destruct s as [this l]. simpl. intros Hh.
  unfold ldst_lane, record_lane. rewrite Hh. simpl.
  eexists. split; [reflexivity|].
  match goal with |- context [coalesce ?a ?b ?c ?d] =>
    destruct (coalesce_frame a b c d) as (-> & _) end.
  exact Hh.
Qed.

Lemma tex_lane_headerOnly halfwarpSize addr size s :
  headerOnly s.1 = true ->
  exists s', tex_lane fuel e halfwarpSize addr size s = Ok s'
             /\ headerOnly s'.1 = true.
Proof.
  destruct s as [this l]. simpl. intros Hh.
  unfold tex_lane, record_lane. rewrite Hh. simpl.
  eexists. split; [reflexivity|].
  match goal with |- context [coalesce ?a ?b ?c ?d] =>
    destruct (coalesce_frame a b c d) as (-> & _) end.
  exact Hh.
Qed.

Lemma trace_accesses_returns space body this :
  (forall hw addr size s n,
      1 <= n -> recording n s ->
      exists s', body hw addr size s = Ok s' /\ recording n s') ->
  (forall hw addr size s,
      headerOnly s.1 = true ->
      exists s', body hw addr size s = Ok s' /\ headerOnly s'.1 = true) ->
  well_formed e this ->
  exists this', trace_accesses e space body this = Ok this'.
Proof.
  intros Hrec Hhdr [Hlen Hwf]. unfold trace_accesses.
  destruct (headerOnly this) eqn:Hh.
  - edestruct (lanes_returns_headerOnly) as ([this1 l] & -> & Hh1);
      [apply Hhdr|exact Hlen|exact Hh|].
    simpl in *. rewrite Hh1. eauto.
  - destruct (Hwf eq_refl) as (Hfile & Hcount).
    edestruct (lanes_returns_recording) as ([this1 l] & -> & Hh1 & Hf1);
      [apply Hrec|exact Hlen| |].
    + unfold recording, rest. simpl. rewrite Hh. repeat split; auto. lia.
    + simpl in *. rewrite Hh1. unfold serialize. simpl.
      destruct Hf1 as [log ->]. eauto.
Qed.

Lemma event_returns this :
  well_formed e this -> exists this', event fuel e this = Ok this'.
Proof.
  intros Hwf.
  assert (Hwf' : well_formed e (count_dynamic e this)) by exact Hwf.
  unfold event. destruct (Instruction.opcode _).
  - apply trace_accesses_returns; auto.
    + intros hw. apply ldst_lane_returns.
    + intros hw. apply ldst_lane_headerOnly.
  - apply trace_accesses_returns; auto.
    + intros hw. apply ldst_lane_returns.
    + intros hw. apply ldst_lane_headerOnly.
  - apply trace_accesses_returns; auto.
    + intros hw. apply tex_lane_returns.
    + intros hw. apply tex_lane_headerOnly.
  - eauto.
Qed.

End EventReturns.

(** C10. Every call of [event] that returns has advanced
    [dynamic_instructions] by one and [dynamic_operations] by the number
    of set bits of the active mask, both as 64-bit counters, whatever the
    opcode; for an opcode that is no load, store or texture fetch this is
    all the call does. The call returns on every well-formed event whose
    lane numbers fit 32 bits, given one iteration of fuel per lane of the
    mask and one more. *)
Theorem event_counts_dynamic (fuel : nat) (e : TraceEvent.t)
    (this : MemoryTraceGenerator.t) :
  (forall this',
      MemoryTraceGenerator.event fuel e this = Ok this' ->
      Header.dynamic_instructions (MemoryTraceGenerator._header this')
      = u64 (Header.dynamic_instructions (MemoryTraceGenerator._header this) + 1)
      /\ Header.dynamic_operations (MemoryTraceGenerator._header this')
         = u64 (Header.dynamic_operations (MemoryTraceGenerator._header this)
                + count (TraceEvent.active e)))
  /\ (forall n,
         Instruction.opcode (TraceEvent.instruction e) = OtherOpcode n ->
         MemoryTraceGenerator.event fuel e this
         = Ok (MemoryTraceGenerator.count_dynamic e this))
  /\ (MemoryTraceGenerator.well_formed e this ->
      (length (TraceEvent.active e) < fuel)%nat ->
      Z.of_nat (length (TraceEvent.active e)) < 2 ^ 32 ->
      exists this', MemoryTraceGenerator.event fuel e this = Ok this').
Proof.
  split; [|split].
  - intros this' H. apply event_dynamic in H. unfold Header.dynamic in H.
    injection H as -> ->. auto.
  - intros n H. unfold MemoryTraceGenerator.event. rewrite H. reflexivity.
  - intros Hwf Hfuel Hlanes. apply event_returns; assumption.
Qed.

Lemma event_counts_dynamic_witness :
  exists this',
    MemoryTraceGenerator.event 9
      (Examples.load Examples.lanes_0_to_3 [0; 4; 8; 12])
      (Examples.generator false 8) = Ok this'
    /\ Header.dynamic_instructions (MemoryTraceGenerator._header this')
       = u64 (0 + 1)
    /\ Header.dynamic_operations (MemoryTraceGenerator._header this')
       = u64 (0 + count Examples.lanes_0_to_3).
Proof.
  eexists. split; [vm_compute; reflexivity|].
  apply (event_counts_dynamic 9
           (Examples.load Examples.lanes_0_to_3 [0; 4; 8; 12])
           (Examples.generator false 8)).
  vm_compute. reflexivity.
Defined.


(** ** event: the segments of one instruction *)

Section Coalescing.

Import MemoryTraceGenerator.

(** The three ways through the [if]/[else if]: beyond the half warp, a
    segment and a half warp are counted; otherwise an address other than
    [starting_address] counts a segment; in both cases
    [starting_address] becomes the end of the access. An address equal to
    [starting_address] changes nothing, [starting_address] included. *)
Lemma coalesce_cases halfwarpSize addr size this l :
  let s' := coalesce halfwarpSize addr size (this, l) in
  let h := _header this in
  (halfwarpSize < Locals.threadID l ->
   Header.global_segments (_header s'.1) = u64 (Header.global_segments h + 1)
   /\ Header.halfwarps (_header s'.1) = u64 (Header.halfwarps h + 1)
   /\ Locals.starting_address s'.2 = u64 (addr + size))
  /\ (Locals.threadID l <= halfwarpSize ->
      Locals.starting_address l <> addr ->
      Header.global_segments (_header s'.1) = u64 (Header.global_segments h + 1)
      /\ Header.halfwarps (_header s'.1) = Header.halfwarps h
      /\ Locals.starting_address s'.2 = u64 (addr + size))
  /\ (Locals.threadID l <= halfwarpSize ->
      Locals.starting_address l = addr ->
      s' = (this, l)).
Proof.
  unfold coalesce.
  destruct (Z.ltb_spec halfwarpSize (Locals.threadID l));
    destruct (Z.eqb_spec (Locals.starting_address l) addr); simpl;
    repeat split; intros; try lia; try contradiction; auto.
Qed.

End Coalescing.

(** C4, on the code. With eight threads and lanes 0 to 3 active, a load
    of four bytes per lane at 0, 4, 8, 12 counts two segments and no half
    warp, with and without [headerOnly]: the address 4 equals
    [starting_address] and leaves it at 4, so that 8 counts as a new
    segment. The addresses 0, 4, 100, 104 count two segments as well. *)
Theorem contiguous_lanes_count_two_segments :
  (exists this',
      MemoryTraceGenerator.event 9
        (Examples.load Examples.lanes_0_to_3 [0; 4; 8; 12])
        (Examples.generator false 8) = Ok this'
      /\ Header.global_segments (MemoryTraceGenerator._header this') = 2
      /\ Header.halfwarps (MemoryTraceGenerator._header this') = 0)
  /\ (exists this',
         MemoryTraceGenerator.event 9
           (Examples.load Examples.lanes_0_to_3 [0; 4; 8; 12])
           (Examples.generator true 8) = Ok this'
         /\ Header.global_segments (MemoryTraceGenerator._header this') = 2
         /\ Header.halfwarps (MemoryTraceGenerator._header this') = 0)
  /\ (exists this',
         MemoryTraceGenerator.event 9
           (Examples.load Examples.lanes_0_to_3 [0; 4; 100; 104])
           (Examples.generator false 8) = Ok this'
         /\ Header.global_segments (MemoryTraceGenerator._header this') = 2
         /\ Header.halfwarps (MemoryTraceGenerator._header this') = 0).
Proof.
  repeat split; eexists; (split; [vm_compute; reflexivity|]);
    split; reflexivity.
Qed.

(** ** event: header-only mode *)

Section HeaderOnly.

Import MemoryTraceGenerator.

#[local] Arguments coalesce : simpl never.
#[local] Arguments Header.address : simpl never.
#[local] Arguments Header.access : simpl never.

(** The members that only the recording of accesses writes. *)
Let untouched (this : t) (g : t) : Prop :=
  headerOnly g = true /\ _event g = _event this /\ _file g = _file this.

Lemma coalesce_untouched this halfwarpSize addr size s :
  untouched this s.1 ->
  untouched this (coalesce halfwarpSize addr size s).1.
Proof.
  destruct s as [g l]. unfold untouched, coalesce. simpl.
  destruct (_ <? _); [simpl; auto|].
  destruct (negb _); simpl; auto.
Qed.

Lemma ldst_lane_untouched this fuel e halfwarpSize addr size s s' :
  untouched this s.1 ->
  ldst_lane fuel e halfwarpSize addr size s = Ok s' -> untouched this s'.1.
Proof.
  destruct s as [g l]. intros Hu. unfold ldst_lane, record_lane.
  destruct Hu as (Hh & He & Hf). simpl in Hh. rewrite Hh. simpl.
  intros [= <-]. apply coalesce_untouched. split; auto.
Qed.

Lemma tex_lane_untouched this fuel e halfwarpSize addr size s s' :
  untouched this s.1 ->
  tex_lane fuel e halfwarpSize addr size s = Ok s' -> untouched this s'.1.
Proof.
  destruct s as [g l]. intros Hu. unfold tex_lane, record_lane.
  destruct Hu as (Hh & He & Hf). simpl in Hh. rewrite Hh. simpl.
  intros [= <-]. apply coalesce_untouched. split; auto.
Qed.

Lemma trace_accesses_untouched e space body this this' :
  (forall hw a sz s s',
      untouched this s.1 -> body hw a sz s = Ok s' -> untouched this s'.1) ->
  headerOnly this = true ->
  trace_accesses e space body this = Ok this' -> untouched this this'.
Proof.
  intros Hbody Hh. unfold trace_accesses. rewrite Hh.
  destruct (lanes _ _ _ _) as [[g l]|] eqn:Hl; simpl; [|discriminate].
  apply (lanes_preserves (untouched this)) in Hl.
  - destruct Hl as (Hh1 & He1 & Hf1). simpl in *. rewrite Hh1.
    intros [= <-]. split; auto.
  - intros a sz s s'. apply Hbody.
  - split; auto.
Qed.

(** In header-only mode [event] neither writes [_event] nor the archive. *)
Lemma event_headerOnly_records_nothing fuel e this this' :
  headerOnly this = true -> event fuel e this = Ok this' ->
  headerOnly this' = true /\ _event this' = _event this
  /\ _file this' = _file this.
Proof.
  intros Hh. unfold event.
  assert (Hc : headerOnly (count_dynamic e this) = true) by exact Hh.
  destruct (Instruction.opcode _).
  - intros H. eapply trace_accesses_untouched in H; [exact H| |exact Hc].
    intros hw. apply ldst_lane_untouched.
  - intros H. eapply trace_accesses_untouched in H; [exact H| |exact Hc].
    intros hw. apply ldst_lane_untouched.
  - intros H. eapply trace_accesses_untouched in H; [exact H| |exact Hc].
    intros hw. apply tex_lane_untouched.
  - intros [= <-]. auto.
Qed.

(** The same over a sequence of events: no access is appended to the
    event and nothing is serialized. *)
Lemma events_headerOnly_record_nothing fuel es this this' :
  headerOnly this = true -> events fuel es this = Ok this' ->
  _event this' = _event this /\ _file this' = _file this.
Proof.
  revert this. induction es as [|e es IH]; intros this Hh; simpl.
  - intros [= <-]. auto.
  - destruct (event fuel e this) as [g|] eqn:He; simpl; [|discriminate].
    destruct (event_headerOnly_records_nothing _ _ _ _ Hh He)
      as (Hg & <- & <-).
    apply IH. exact Hg.
Qed.

End HeaderOnly.

(** C3, on the code. Eight threads, lanes 6 and 7 active, a load of four
    bytes per lane at 0 and 4. When accesses are recorded the lane number
    is moved on to the active lane, 6 and then 7, both beyond the half
    warp: two segments and two half warps. In header-only mode the lane
    number is the position in the address list, 0 and then 1: one
    segment and no half warp. The other counters agree. *)
Theorem headerOnly_counts_other_segments :
  exists recorded summarized,
    MemoryTraceGenerator.event 9 (Examples.load Examples.lanes_6_and_7 [0; 4])
      (Examples.generator false 8) = Ok recorded
    /\ MemoryTraceGenerator.event 9 (Examples.load Examples.lanes_6_and_7 [0; 4])
         (Examples.generator true 8) = Ok summarized
    /\ Header.global_segments (MemoryTraceGenerator._header recorded) = 2
    /\ Header.halfwarps (MemoryTraceGenerator._header recorded) = 2
    /\ Header.global_segments (MemoryTraceGenerator._header summarized) = 1
    /\ Header.halfwarps (MemoryTraceGenerator._header summarized) = 0
    /\ Header.global_bytes (MemoryTraceGenerator._header recorded)
       = Header.global_bytes (MemoryTraceGenerator._header summarized)
    /\ MemoryTraceGenerator._event summarized = Event.Event
    /\ option_map Stream.written (MemoryTraceGenerator._file summarized)
       = Some [].
Proof.
  eexists _, _. split; [vm_compute; reflexivity|].
  split; [vm_compute; reflexivity|].
  repeat split.
Qed.

(** ** extent *)

Section ExtentFacts.

Import Extent.

Lemma resolve_hit context address s :
  resolve context address s
  = match hit context address with
    | Some (ptr, size) => count_once ptr size s
    | None => s
    end.
Proof.
  unfold resolve, hit.
  destruct (decide (GlobalMemoryAllocation.space _ <> _)); [reflexivity|].
  destruct (decide (MemoryAllocation.isa _ <> _)); reflexivity.
Qed.

(** The allocations counted one after the other. *)
Let count_all (hs : list (Z * Z)) (s : gset Z * Z) : gset Z * Z :=
  foldl (fun s h => count_once h.1 h.2 s) s hs.

Lemma elements_hits context type values address s :
  elements context type values address s
  = count_all (omap (hit context) (addresses type values address)) s.
Proof.
  revert address s. induction values as [|element values IH]; intros address s.
  - reflexivity.
  - simpl. rewrite IH, resolve_hit.
    destruct (hit context _) as [[ptr size]|]; reflexivity.
Qed.

Lemma parameters_hits context ps s :
  parameters context ps s
  = count_all
      (omap (hit context)
         (concat (map (fun p => addresses (Parameter_.type p)
                                  (Parameter_.arrayValues p) 0) ps))) s.
Proof.
  unfold parameters. revert s. induction ps as [|p ps IH]; intros s.
  - reflexivity.
  - simpl. rewrite IH, elements_hits, omap_app.
    unfold count_all. rewrite foldl_app. reflexivity.
Qed.

Lemma total_insert ptr size (m : gmap Z Z) :
  m !! ptr = None -> total (<[ptr := size]> m) = size + total m.
Proof.
  intros H. unfold total. apply map_fold_insert_L; [|exact H].
  intros. lia.
Qed.

Lemma union_insert_known ptr size (m n : gmap Z Z) :
  is_Some (m !! ptr) -> m ∪ <[ptr := size]> n = m ∪ n.
Proof.
  intros [x Hx]. apply map_eq. intros k. rewrite !lookup_union.
  destruct (decide (k = ptr)) as [->|Hk].
  - rewrite Hx, lookup_insert_eq. destruct (n !! ptr); reflexivity.
  - rewrite lookup_insert_ne by auto. reflexivity.
Qed.

Lemma union_insert_new ptr size (m n : gmap Z Z) :
  m !! ptr = None -> m ∪ <[ptr := size]> n = <[ptr := size]> m ∪ n.
Proof.
  intros Hx. apply map_eq. intros k. rewrite !lookup_union.
  destruct (decide (k = ptr)) as [->|Hk].
  - rewrite Hx, !lookup_insert_eq. destruct (n !! ptr); reflexivity.
  - rewrite !lookup_insert_ne by auto. reflexivity.
Qed.

(** The set [encountered] is the domain of a map from identity to size,
    and [extent] is the total of that map; counting further hits extends
    the map by the identities it does not have yet. *)
Lemma count_all_total hs : forall (m : gmap Z Z) s,
  s.1 = dom m -> s.2 = u64 (total m) ->
  (count_all hs s).1 = dom (m ∪ list_to_map hs)
  /\ (count_all hs s).2 = u64 (total (m ∪ list_to_map hs)).
Proof.
  induction hs as [|[ptr size] hs IH]; intros m [encountered extent] He Hx;
    simpl in He, Hx.
  - simpl. rewrite (right_id_L ∅ (∪)). auto.
  - simpl. unfold count_once. simpl.
    destruct (decide (ptr ∈ encountered)) as [Hin|Hin].
    + rewrite union_insert_known by (apply elem_of_dom; congruence).
      apply IH; assumption.
    + assert (Hnone : m !! ptr = None)
        by (apply not_elem_of_dom; congruence).
      rewrite union_insert_new by assumption.
      apply IH; simpl.
      * rewrite dom_insert_L, He. reflexivity.
      * rewrite total_insert, Hx, u64_add_l by assumption. f_equal. lia.
Qed.

Lemma extent_total kernel :
  extent kernel = u64 (total (list_to_map (hits kernel))).
Proof.
  unfold extent, hits. rewrite parameters_hits.
  destruct (count_all_total
              (omap (hit (ExecutableKernel.context kernel))
                 (concat (map (fun p => addresses (Parameter_.type p)
                                          (Parameter_.arrayValues p) 0)
                            (ExecutableKernel.parameters kernel))))
              ∅ (∅, 0)) as [_ ->].
  - simpl. rewrite dom_empty_L. reflexivity.
  - reflexivity.
  - rewrite (left_id_L ∅ (∪)). reflexivity.
Qed.

End ExtentFacts.

Section Packing.

Import Extent.

Lemma land_low_high w k y :
  0 <= w -> 0 <= y < 2 ^ w -> Z.land (k * 2 ^ w) y = 0.
Proof.
  intros Hw Hy. apply Z.bits_inj'. intros n Hn.
  rewrite Z.land_spec, Z.bits_0.
  destruct (Z.lt_ge_cases n w).
  - rewrite Z.mul_pow2_bits_low by lia. reflexivity.
  - rewrite <- (Z.mod_small y (2 ^ w)) by lia.
    rewrite Z.mod_pow2_bits_high by lia. apply andb_false_r.
Qed.

Lemma lor_low_high w k y :
  0 <= w -> 0 <= y < 2 ^ w -> Z.lor (k * 2 ^ w) y = k * 2 ^ w + y.
Proof.
  intros Hw Hy. pose proof (land_low_high w k y Hw Hy) as H.
  rewrite <- Z.lxor_lor by exact H. symmetry.
  apply Z.add_nocarry_lxor. exact H.
Qed.

Lemma pack_chunk w address element :
  0 <= w <= 64 ->
  Z.lor (u64 (Z.shiftl address w)) (Z.land element (2 ^ w - 1))
  = u64 (address * 2 ^ w) + element mod 2 ^ w.
Proof.
  intros Hw. rewrite Z.shiftl_mul_pow2 by lia.
  replace (2 ^ w - 1) with (Z.ones w) by (rewrite Z.ones_equiv; lia).
  rewrite Z.land_ones by lia.
  unfold u64, wrap.
  replace (2 ^ 64) with (2 ^ (64 - w) * 2 ^ w)
    by (rewrite <- Z.pow_add_r by lia; f_equal; lia).
  rewrite Z.mul_mod_distr_r by lia.
  apply lor_low_high; [lia|]. apply Z.mod_pos_bound. lia.
Qed.

Lemma reconstruct_narrow type w address element :
  width type = Some w -> w < 64 ->
  reconstruct type address element
  = u64 (address * 2 ^ w) + element mod 2 ^ w.
Proof.
  intros Hw Hlt.
  destruct type; simpl in Hw; try discriminate;
    injection Hw as <-; try lia; simpl reconstruct;
    unfold Parameter_.val_u8, Parameter_.val_u16, Parameter_.val_u32;
    apply pack_chunk; lia.
Qed.

Lemma reconstruct_wide type address element :
  width type = Some 64 ->
  reconstruct type address element = element mod 2 ^ 64.
Proof.
  intros Hw.
  destruct type; simpl in Hw; try discriminate; simpl reconstruct;
    unfold Parameter_.val_u64;
    replace (2 ^ 64 - 1) with (Z.ones 64) by reflexivity;
    apply Z.land_ones; lia.
Qed.

Lemma reconstruct_other type address element :
  width type = None -> reconstruct type address element = address.
Proof. intros Hw. destruct type; simpl in Hw; try discriminate; reflexivity. Qed.

End Packing.

(** C6. The extent of a kernel is the total, as a 64-bit sum, of the
    sizes of the distinct allocations that the elements of its parameters
    resolve to, an allocation being counted with the size of its first
    hit however many elements hit it. An element that hits no allocation,
    or one already counted, leaves the set and the total as they are; a
    new allocation enters the set and adds its size. An element narrower
    than 64 bits shifts the accumulated address left by its width and
    fills the low bits, so that the first element ends in the most
    significant place; a 64-bit element replaces the address; an element
    of another type leaves it. *)
Theorem extent_counts_each_allocation_once :
  (forall kernel,
      Extent.extent kernel
      = u64 (Extent.total (list_to_map (Extent.hits kernel))))
  /\ (forall context address s,
         Extent.hit context address = None ->
         Extent.resolve context address s = s)
  /\ (forall context address ptr size s,
         Extent.hit context address = Some (ptr, size) ->
         ptr ∈ s.1 -> Extent.resolve context address s = s)
  /\ (forall context address ptr size s,
         Extent.hit context address = Some (ptr, size) ->
         ptr ∉ s.1 ->
         Extent.resolve context address s
         = ({[ptr]} ∪ s.1, u64 (s.2 + size)))
  /\ (forall type w address element,
         Extent.width type = Some w -> w < 64 ->
         Extent.reconstruct type address element
         = u64 (address * 2 ^ w) + element mod 2 ^ w)
  /\ (forall type w first second,
         Extent.width type = Some w -> w < 64 ->
         Extent.addresses type [first; second] 0
         = [first mod 2 ^ w; first mod 2 ^ w * 2 ^ w + second mod 2 ^ w])
  /\ (forall type address element,
         Extent.width type = Some 64 ->
         Extent.reconstruct type address element = element mod 2 ^ 64)
  /\ (forall type address element,
         Extent.width type = None ->
         Extent.reconstruct type address element = address).
Proof.
  split; [exact extent_total|].
  split; [intros context address s H; rewrite resolve_hit, H; reflexivity|].
  split.
  { intros context address ptr size s H Hin. rewrite resolve_hit, H.
    unfold Extent.count_once. destruct (decide (ptr ∈ s.1)); [reflexivity|].
    contradiction. }
  split.
  { intros context address ptr size s H Hin. rewrite resolve_hit, H.
    unfold Extent.count_once. destruct (decide (ptr ∈ s.1)); [|reflexivity].
    contradiction. }
  split; [exact reconstruct_narrow|].
  split.
  { intros type w first second Hw Hlt. simpl.
    rewrite !(reconstruct_narrow type w) by assumption.
    assert (0 < w) by (destruct type; simpl in Hw; try discriminate;
                       injection Hw as <-; lia).
    assert (Hr : 0 <= first mod 2 ^ w < 2 ^ w)
      by (apply Z.mod_pos_bound; lia).
    assert (Hp : 2 ^ w * 2 ^ w <= 2 ^ 64).
    { rewrite <- Z.pow_add_r by lia. apply Z.pow_le_mono_r; [lia|].
      destruct type; simpl in Hw; try discriminate; injection Hw as <-; lia. }
    rewrite (u64_small (0 * 2 ^ w)) by lia. simpl.
    rewrite u64_small by nia. reflexivity. }
  split; [exact reconstruct_wide | exact reconstruct_other].
Qed.

Lemma extent_counts_each_allocation_once_witness :
  Extent.hits Examples.kernel
  = [(4096, 256); (4096, 256); (8192, 64)]
  /\ Extent.extent Examples.kernel = 320
  /\ Extent.resolve Examples.tables 0 (∅, 0) = (∅, 0)
  /\ Extent.resolve Examples.tables 4112 ({[4096]}, 256) = ({[4096]}, 256)
  /\ Extent.resolve Examples.tables 8200 ({[4096]}, 256)
     = ({[8192]} ∪ {[4096]}, u64 (256 + 64))
  /\ Extent.addresses PTXOperand.u32 [0; 4112] 0
     = [0 mod 2 ^ 32; 0 mod 2 ^ 32 * 2 ^ 32 + 4112 mod 2 ^ 32].
Proof.
  destruct extent_counts_each_allocation_once
    as (_ & Hnone & Hseen & Hnew & _ & Hpair & _).
  split; [reflexivity|]. split; [vm_compute; reflexivity|].
  split; [apply Hnone; reflexivity|].
  split; [apply (Hseen _ _ 4096 256); [reflexivity|set_solver]|].
  split; [apply (Hnew _ _ 8192 64); [reflexivity|set_solver]|].
  apply Hpair; [reflexivity|lia].
Defined.

(** ** extractResults *)

Section Loops.

Context {S : Type}.

Lemma for_each_ext (f g : Z -> S -> outcome S) l s :
  (forall i s, i ∈ l -> f i s = g i s) -> for_each f l s = for_each g l s.
Proof.
  revert s. induction l as [|i l IH]; intros s H; [reflexivity|].
  simpl. rewrite (H i s) by set_solver.
  destruct (g i s) as [s'|]; simpl; [|reflexivity].
  apply IH. intros j s'' Hj. apply H. set_solver.
Qed.

Lemma for_each_pure (f : Z -> S -> outcome S) (g : Z -> S -> S) l s :
  (forall i s, i ∈ l -> f i s = Ok (g i s)) ->
  for_each f l s = Ok (foldl (fun s i => g i s) s l).
Proof.
  revert s. induction l as [|i l IH]; intros s H; [reflexivity|].
  simpl. rewrite (H i s) by set_solver. simpl.
  apply IH. intros j s'' Hj. apply H. set_solver.
Qed.

(** A counting loop with enough fuel visits [i], [i + 1], ... below [n]. *)
Lemma for_loop_count (body : Z -> S -> outcome S) n fuel : forall i s,
  0 <= i <= n -> n < 2 ^ 64 -> (Z.to_nat (n - i) < fuel)%nat ->
  for_loop fuel (fun x => x <? n) (fun x => u64 (x + 1)) body i s
  = for_each body (seqZ i (n - i)) s.
Proof.
  induction fuel as [|fuel IH]; intros i s Hi Hn Hfuel; [lia|].
  simpl. destruct (Z.ltb_spec i n).
  - rewrite seqZ_cons by lia. simpl.
    destruct (body i s) as [s'|]; simpl; [|reflexivity].
    rewrite (u64_small (i + 1)) by lia. rewrite IH by lia.
    f_equal; f_equal; lia.
  - rewrite seqZ_nil by lia. reflexivity.
Qed.

(** The loop of line 122, which advances by [E]: it visits [t * E] for
    the threads [t] below [T]. *)
Lemma for_loop_stride (body : Z -> S -> outcome S) E T fuel : forall t s,
  0 < E -> 0 <= t <= T -> T * E < 2 ^ 64 -> (Z.to_nat (T - t) < fuel)%nat ->
  for_loop fuel (fun j => j <? u64 (T * E)) (fun j => u64 (j + E)) body
    (t * E) s
  = for_each (fun t => body (t * E)) (seqZ t (T - t)) s.
Proof.
  induction fuel as [|fuel IH]; intros t s HE Ht HT Hfuel; [lia|].
  assert (Hu : u64 (T * E) = T * E) by (apply u64_small; nia).
  simpl. destruct (Z.ltb_spec (t * E) (u64 (T * E))) as [H|H];
    rewrite Hu in H.
  - assert (t < T) by nia.
    rewrite seqZ_cons by lia. simpl.
    destruct (body (t * E) s) as [s'|]; simpl; [|reflexivity].
    rewrite (u64_small (t * E + E)) by nia.
    replace (t * E + E) with (Z.succ t * E) by lia.
    rewrite IH by lia. f_equal; f_equal; lia.
  - assert (t = T) by nia. subst t.
    rewrite seqZ_nil by lia. reflexivity.
Qed.

Lemma foldl_invariant (I : S -> Prop) (g : Z -> S -> S) l :
  (forall x s, x ∈ l -> I s -> I (g x s)) ->
  forall s, I s -> I (foldl (fun s x => g x s) s l).
Proof.
  induction l as [|x l IH]; intros H s Hs; [exact Hs|].
  simpl. apply IH.
  - intros y s' Hy. apply H. set_solver.
  - apply H; [set_solver|exact Hs].
Qed.

(** A quantity that every step advances by [w x], up to 64 bits, is
    advanced by the sum of the [w x] by the loop. *)
Lemma foldl_sum (val : S -> Z) (I : S -> Prop) (g : Z -> S -> S)
    (w : Z -> Z) l :
  (forall x s, x ∈ l -> I s -> I (g x s)) ->
  (forall x s, x ∈ l -> I s -> u64 (val (g x s)) = u64 (val s + w x)) ->
  forall s, I s ->
    u64 (val (foldl (fun s x => g x s) s l)) = u64 (val s + sumZ w l).
Proof.
  induction l as [|x l IH]; intros HI H s Hs.
  - simpl. f_equal. lia.
  - simpl. rewrite IH.
    + rewrite <- u64_add_l, H, u64_add_l by (auto; set_solver).
      f_equal. lia.
    + intros y s' Hy. apply HI. set_solver.
    + intros y s' Hy. apply H. set_solver.
    + apply HI; [set_solver|exact Hs].
Qed.

End Loops.

Lemma sumZ_ext (f g : Z -> Z) l :
  (forall i, i ∈ l -> f i = g i) -> sumZ f l = sumZ g l.
Proof.
  induction l as [|i l IH]; intros H; [reflexivity|].
  simpl. rewrite (H i), IH by set_solver. reflexivity.
Qed.

Lemma sumZ_zero l : sumZ (fun _ => 0) l = 0.
Proof. induction l as [|i l IH]; simpl; lia. Qed.

(** A sum over [0 .. n-1] of terms that vanish except at [b]. *)
Lemma sumZ_single (f : Z -> Z) (b i n : Z) :
  0 <= n ->
  sumZ (fun x => if b =? x then f x else 0) (seqZ i n)
  = if (i <=? b) && (b <? i + n) then f b else 0.
Proof.
  intros Hn. revert i.
  apply (natlike_ind
           (fun n => forall i,
                sumZ (fun x => if b =? x then f x else 0) (seqZ i n)
                = if (i <=? b) && (b <? i + n) then f b else 0));
    [| |exact Hn].
  - intros i. rewrite seqZ_nil by lia. simpl.
    destruct (Z.leb_spec i b), (Z.ltb_spec b (i + 0)); simpl; lia.
  - intros m Hm IH i. rewrite seqZ_cons by lia. simpl.
    replace (Z.pred (Z.succ m)) with m by lia. rewrite IH.
    destruct (Z.leb_spec (Z.succ i) b), (Z.ltb_spec b (Z.succ i + m)),
      (Z.leb_spec i b), (Z.ltb_spec b (i + Z.succ m));
      destruct (Z.eqb_spec b i) as [Heq|Hne]; simpl;
      try rewrite Heq; lia.
Qed.

Section Reduction.

Import BasicBlockInstrumentor.

Variables (info : list Z) (this : t).

Let E := entries this.
Let B := basicBlocks this.
Let T := threads this.
Let K := threadBlocks this.

Hypothesis Hrep : representable this.
Hypothesis HE : 0 < E.
Hypothesis HMI : type this = memoryIntensity -> 2 <= E.
Hypothesis Hlen : Z.of_nat (length info) = totalElements E B K T.
Hypothesis Hfit : totalElements E B K T < 2 ^ 64.

(** The subscript is the exact index reduced to 64 bits. *)
Lemma subscript_u64 i k j :
  subscript E B T i k j = u64 (i * E * T + k * B * T * E + j).
Proof.
  unfold subscript.
  rewrite (u64_mul_l (i * E) T).
  rewrite (u64_mul_l (k * B) T), (u64_mul_l (k * B * T) E).
  rewrite u64_add_l.
  rewrite <- Z.add_assoc, u64_add_l.
  replace (i * E * T + (u64 (k * B * T * E) + j))
    with (u64 (k * B * T * E) + (i * E * T + j)) by lia.
  rewrite u64_add_l. f_equal. lia.
Qed.

Lemma at_index_counter i :
  0 <= i < totalElements E B K T -> at_index info i = Ok (counterAt info i).
Proof.
  intros Hi. unfold at_index, counterAt.
  destruct (Z.ltb_spec i 0); [lia|].
  destruct (lookup_lt_is_Some_2 info (Z.to_nat i)) as [x ->]; [lia|].
  reflexivity.
Qed.

(** The counter of block [b], entry [e], thread [t], thread block [k]. *)
Let V (e b k t : Z) : Z := counterAt info (counterIndex E B T b e t k).

Lemma read_counter e i k t :
  0 <= i < B -> 0 <= k < K -> 0 <= t < T -> 0 <= e < E ->
  at_index info (subscript E B T i k (t * E + e)) = Ok (V e i k t).
Proof.
  intros Hi Hk Ht He.
  assert (Hin : inIndexSpace E B K T i e t k) by (unfold inIndexSpace; lia).
  assert (Hb : 0 <= counterIndex E B T i e t k <= totalElements E B K T - 1)
    by (apply counterIndex_bounds; solve [lia | exact Hin]).
  rewrite subscript_u64.
  replace (i * E * T + k * B * T * E + (t * E + e))
    with (counterIndex E B T i e t k) by reflexivity.
  rewrite u64_small by lia.
  apply at_index_counter. lia.
Qed.

(** The body of the innermost loop without its reads. *)
Let step (k i t : Z) (p : KernelProfile.t) : KernelProfile.t :=
  KernelProfile.mk
    (add_at i (V 0 i k t) (KernelProfile.basicBlockExecutionCountMap p))
    (if type this =? memoryIntensity
     then add_at i (V 1 i k t) (KernelProfile.memoryOperationsMap p)
     else KernelProfile.memoryOperationsMap p).

Lemma accumulate_step k i t p :
  0 <= i < B -> 0 <= k < K -> 0 <= t < T ->
  accumulate info this k i (t * E) p = Ok (step k i t p).
Proof.
  intros Hi Hk Ht. unfold accumulate, step. fold E B T.
  replace (t * E) with (t * E + 0) at 1 by lia.
  rewrite read_counter by lia. simpl.
  destruct (Z.eqb_spec (type this) memoryIntensity) as [Hty|]; [|reflexivity].
  assert (Hin : inIndexSpace E B K T i 1 t k)
    by (unfold inIndexSpace; specialize (HMI Hty); lia).
  assert (Hb : 0 <= counterIndex E B T i 1 t k <= totalElements E B K T - 1)
    by (apply counterIndex_bounds; solve [lia | exact Hin]).
  rewrite (u64_small (t * E + 1)).
  - specialize (HMI Hty). rewrite read_counter by lia. reflexivity.
  - unfold counterIndex in Hb.
    assert (0 <= i * E * T) by (repeat apply Z.mul_nonneg_nonneg; lia).
    assert (0 <= k * B * T * E) by (repeat apply Z.mul_nonneg_nonneg; lia).
    assert (0 <= t * E) by (apply Z.mul_nonneg_nonneg; lia).
    lia.
Qed.

(** The map of entry [e] of a profile, and its value at a block. *)
Let chan (e : Z) (p : KernelProfile.t) : gmap Z Z :=
  if e =? 0 then KernelProfile.basicBlockExecutionCountMap p
  else KernelProfile.memoryOperationsMap p.

Let val (e b : Z) (p : KernelProfile.t) : Z := default 0 (chan e p !! b).

(** The entries that the reduction adds up. *)
Let tracked (e : Z) : Prop := e = 0 \/ (e = 1 /\ type this = memoryIntensity).

(** What holds of the profile throughout: the counts are 64-bit values
    of blocks below [B], and without [memoryIntensity] the second map
    stays empty. *)
Let sound (p : KernelProfile.t) : Prop :=
  (forall e b v, chan e p !! b = Some v -> 0 <= v < 2 ^ 64 /\ 0 <= b < B)
  /\ (type this <> memoryIntensity -> KernelProfile.memoryOperationsMap p = ∅).

Lemma add_at_lookup i x (m : gmap Z Z) b :
  add_at i x m !! b
  = if decide (b = i) then Some (u64 (default 0 (m !! i) + x)) else m !! b.
Proof.
  unfold add_at. destruct (decide (b = i)) as [->|].
  - apply lookup_insert_eq.
  - apply lookup_insert_ne. auto.
Qed.

Lemma step_sound k i t p : 0 <= i < B -> sound p -> sound (step k i t p).
Proof.
  intros Hi [Hv Hm]. split.
  - intros e b v. unfold chan, step. simpl.
    destruct (e =? 0) eqn:He0.
    + rewrite add_at_lookup. destruct (decide (b = i)) as [->|].
      * intros [= <-]. split; [apply u64_range|exact Hi].
      * intros H. apply (Hv 0 b v). exact H.
    + destruct (type this =? memoryIntensity).
      * rewrite add_at_lookup. destruct (decide (b = i)) as [->|].
        -- intros [= <-]. split; [apply u64_range|exact Hi].
        -- intros H. apply (Hv e b v). unfold chan. rewrite He0. exact H.
      * intros H. apply (Hv e b v). unfold chan. rewrite He0. exact H.
  - intros Hty. unfold step. simpl.
    destruct (Z.eqb_spec (type this) memoryIntensity); [contradiction|].
    auto.
Qed.

Lemma step_val e b k i t p :
  tracked e ->
  u64 (val e b (step k i t p))
  = u64 (val e b p + (if b =? i then V e i k t else 0)).
Proof.
  intros [->|[-> Hty]]; unfold val, chan, step; simpl.
  - rewrite add_at_lookup.
    destruct (decide (b = i)) as [->|]; simpl.
    + rewrite Z.eqb_refl, u64_idem. reflexivity.
    + destruct (Z.eqb_spec b i); [contradiction|]. f_equal. lia.
  - rewrite Hty. simpl. rewrite add_at_lookup.
    destruct (decide (b = i)) as [->|]; simpl.
    + rewrite Z.eqb_refl, u64_idem. reflexivity.
    + destruct (Z.eqb_spec b i); [contradiction|]. f_equal. lia.
Qed.

(** The three loops without their reads. *)
Let inner (k i : Z) (p : KernelProfile.t) : KernelProfile.t :=
  foldl (fun p t => step k i t p) p (seqZ 0 T).
Let middle (k : Z) (p : KernelProfile.t) : KernelProfile.t :=
  foldl (fun p i => inner k i p) p (seqZ 0 B).
Let outer (p : KernelProfile.t) : KernelProfile.t :=
  foldl (fun p k => middle k p) p (seqZ 0 K).

Lemma inner_sound k i p : 0 <= i < B -> sound p -> sound (inner k i p).
Proof.
  intros Hi. apply foldl_invariant. intros t s _. apply step_sound. exact Hi.
Qed.

Lemma middle_sound k p : sound p -> sound (middle k p).
Proof.
  apply foldl_invariant. intros i s Hi. apply inner_sound.
  apply elem_of_seqZ in Hi. lia.
Qed.

Lemma outer_sound p : sound p -> sound (outer p).
Proof. apply foldl_invariant. intros k s _. apply middle_sound. Qed.

Lemma inner_val e b k i p :
  tracked e -> 0 <= i < B -> sound p ->
  u64 (val e b (inner k i p))
  = u64 (val e b p + (if b =? i then sumZ (V e i k) (seqZ 0 T) else 0)).
Proof.
  intros He Hi Hp. unfold inner.
  rewrite (foldl_sum (val e b) sound (step k i)
             (fun t => if b =? i then V e i k t else 0)).
  - f_equal. f_equal. destruct (b =? i); [reflexivity|apply sumZ_zero].
  - intros t s _. apply step_sound. exact Hi.
  - intros t s _ _. apply step_val. exact He.
  - exact Hp.
Qed.

Lemma middle_val e b k p :
  tracked e -> 0 <= b < B -> sound p ->
  u64 (val e b (middle k p))
  = u64 (val e b p + sumZ (V e b k) (seqZ 0 T)).
Proof.
  intros He Hb Hp. unfold middle.
  rewrite (foldl_sum (val e b) sound (inner k)
             (fun i => if b =? i then sumZ (V e i k) (seqZ 0 T) else 0)).
  - f_equal. f_equal.
    rewrite (sumZ_single (fun i => sumZ (V e i k) (seqZ 0 T)))
      by lia.
    destruct (Z.leb_spec 0 b), (Z.ltb_spec b (0 + B)); simpl; lia.
  - intros i s Hi. apply inner_sound. apply elem_of_seqZ in Hi. lia.
  - intros i s Hi. apply inner_val; [exact He|].
    apply elem_of_seqZ in Hi. lia.
  - exact Hp.
Qed.

Lemma outer_val e b p :
  tracked e -> 0 <= b < B -> sound p ->
  u64 (val e b (outer p))
  = u64 (val e b p
         + sumZ (fun k => sumZ (V e b k) (seqZ 0 T)) (seqZ 0 K)).
Proof.
  intros He Hb Hp. unfold outer.
  apply (foldl_sum (val e b) sound middle
           (fun k => sumZ (V e b k) (seqZ 0 T))).
  - intros k s _. apply middle_sound.
  - intros k s _. apply middle_val; assumption.
  - exact Hp.
Qed.

Lemma cleared_sound : sound (KernelProfile.mk ∅ ∅).
Proof.
  split; [|reflexivity].
  intros e b v. unfold chan. simpl. destruct (e =? 0); rewrite lookup_empty;
    discriminate.
Qed.

(** The value of a sound profile is a 64-bit value. *)
Lemma val_range e b p : sound p -> 0 <= val e b p < 2 ^ 64.
Proof.
  intros [Hv _]. unfold val.
  destruct (chan e p !! b) as [v|] eqn:H; simpl; [|lia].
  apply (Hv e b v H).
Qed.

(** After the three loops from the cleared maps, the value at a block is
    the sum compared with. *)
Lemma outer_reduced e b :
  tracked e -> 0 <= b < B ->
  val e b (outer (KernelProfile.mk ∅ ∅)) = reduced info this b e.
Proof.
  intros He Hb.
  rewrite <- (u64_small (val e b _))
    by (apply val_range, outer_sound, cleared_sound).
  rewrite outer_val by (auto using cleared_sound).
  unfold reduced. fold E B T K. f_equal.
  unfold val at 1, chan. simpl. destruct (e =? 0); rewrite lookup_empty;
    simpl; reflexivity.
Qed.

Variable fuel : nat.
Hypothesis Hfuel : (Z.to_nat (Z.max K (Z.max B T)) < fuel)%nat.

(** With enough fuel the loops of [reduce] are the three loops above. *)
Lemma reduce_outer p : reduce fuel info this p = Ok (outer p).
Proof.
  destruct Hrep as (HK & HT & HB & _). fold K T B in HK, HT, HB.
  unfold reduce. fold E B T K.
  rewrite for_loop_count by lia. rewrite Z.sub_0_r.
  apply for_each_pure. intros k p1 Hk. apply elem_of_seqZ in Hk.
  rewrite for_loop_count by lia. rewrite Z.sub_0_r.
  apply for_each_pure. intros i p2 Hi. apply elem_of_seqZ in Hi.
  assert (HTE : T * E < 2 ^ 64).
  { pose proof Hfit as Hf. unfold totalElements in Hf.
    replace (E * B * K * T) with (T * E * (B * K)) in Hf by ring.
    assert (0 <= T * E) by (apply Z.mul_nonneg_nonneg; lia).
    assert (1 <= B * K) by nia.
    assert (T * E * 1 <= T * E * (B * K))
      by (apply Z.mul_le_mono_nonneg_l; lia).
    lia. }
  change 0 with (0 * E) at 1.
  rewrite for_loop_stride by lia. rewrite Z.sub_0_r.
  apply for_each_pure. intros t p3 Ht. apply elem_of_seqZ in Ht.
  apply accumulate_step; lia.
Qed.

(** *** The printing loop *)

Hypothesis Hlabels : B <= Z.of_nat (length (labels this)).

(** What a pass of the printing loop does to the maps. *)
Let touch (j : Z) (p : KernelProfile.t) : KernelProfile.t :=
  KernelProfile.mk
    (read_at j (KernelProfile.basicBlockExecutionCountMap p)).1
    (if type this =? memoryIntensity
     then (read_at j (KernelProfile.memoryOperationsMap p)).1
     else KernelProfile.memoryOperationsMap p).

Lemma print_block_touch j p out :
  0 <= j < B ->
  exists out', print_block this j (p, out) = Ok (touch j p, out').
Proof.
  intros Hj. unfold print_block, touch, at_index.
  destruct (Z.ltb_spec j 0); [lia|].
  destruct (lookup_lt_is_Some_2 (labels this) (Z.to_nat j)) as [label ->];
    [lia|].
  simpl.
  destruct (read_at j (KernelProfile.basicBlockExecutionCountMap p)).
  destruct (type this =? memoryIntensity);
    [destruct (read_at j (KernelProfile.memoryOperationsMap p))|];
    simpl; eauto.
Qed.

Lemma print_loop l : forall p out,
  (forall j, j ∈ l -> 0 <= j < B) ->
  exists out',
    for_each (print_block this) l (p, out)
    = Ok (foldl (fun p j => touch j p) p l, out').
Proof.
  induction l as [|j l IH]; intros p out Hl; [simpl; eauto|].
  cbn [for_each foldl].
  destruct (print_block_touch j p out) as [out1 ->];
    [apply Hl, list_elem_of_here|].
  cbn [mbind outcome_bind]. apply IH.
  intros j' Hj'. apply Hl, list_elem_of_further, Hj'.
Qed.

Lemma read_at_lookup j (m : gmap Z Z) b :
  (read_at j m).1 !! b
  = if decide (b = j) then Some (default 0 (m !! j)) else m !! b.
Proof.
  unfold read_at. destruct (m !! j) as [v|] eqn:Hj; simpl.
  - destruct (decide (b = j)) as [->|]; [exact Hj|reflexivity].
  - destruct (decide (b = j)) as [->|].
    + apply lookup_insert_eq.
    + apply lookup_insert_ne. auto.
Qed.

(** Reading the blocks of [l] makes their keys present and changes no
    value. *)
Lemma read_all_lookup l : forall (m : gmap Z Z) b,
  foldl (fun m j => (read_at j m).1) m l !! b
  = if decide (b ∈ l) then Some (default 0 (m !! b)) else m !! b.
Proof.
  induction l as [|j l IH]; intros m b; simpl.
  - destruct (decide (b ∈ [])) as [H|]; [|reflexivity].
    apply not_elem_of_nil in H. contradiction.
  - rewrite IH, read_at_lookup.
    destruct (decide (b ∈ l)) as [Hin|Hin].
    + destruct (decide (b ∈ j :: l)) as [_|Hn]; [|set_solver].
      destruct (decide (b = j)) as [->|]; reflexivity.
    + destruct (decide (b = j)) as [->|].
      * destruct (decide (j ∈ j :: l)) as [_|Hn]; [reflexivity|].
        destruct Hn. apply list_elem_of_here.
      * destruct (decide (b ∈ j :: l)) as [Hc|_]; [|reflexivity].
        apply elem_of_cons in Hc as [Hc|Hc]; contradiction.
Qed.

Lemma touch_all_exec l : forall p,
  KernelProfile.basicBlockExecutionCountMap (foldl (fun p j => touch j p) p l)
  = foldl (fun m j => (read_at j m).1)
      (KernelProfile.basicBlockExecutionCountMap p) l.
Proof. induction l as [|j l IH]; intros p; simpl; [reflexivity|apply IH]. Qed.

Lemma touch_all_mem l : forall p,
  KernelProfile.memoryOperationsMap (foldl (fun p j => touch j p) p l)
  = if type this =? memoryIntensity
    then foldl (fun m j => (read_at j m).1)
           (KernelProfile.memoryOperationsMap p) l
    else KernelProfile.memoryOperationsMap p.
Proof.
  induction l as [|j l IH]; intros p; simpl.
  - destruct (_ =? _); reflexivity.
  - rewrite IH. unfold touch. simpl. destruct (_ =? _); reflexivity.
Qed.

Lemma absent_outside e b p :
  sound p -> ~ 0 <= b < B -> chan e p !! b = None.
Proof.
  intros [Hv _] Hb. destruct (chan e p !! b) as [v|] eqn:H; [|reflexivity].
  destruct (Hv e b v H). contradiction.
Qed.

Lemma extractResults_profile out :
  exists this' out',
    extractResults fuel info this out = Ok (this', out', info)
    /\ (forall b,
           0 <= b < B ->
           KernelProfile.basicBlockExecutionCountMap (_kernelProfile this') !! b
           = Some (reduced info this b 0))
    /\ (forall b,
           ~ 0 <= b < B ->
           KernelProfile.basicBlockExecutionCountMap (_kernelProfile this') !! b
           = None)
    /\ (type this = memoryIntensity ->
        forall b,
          KernelProfile.memoryOperationsMap (_kernelProfile this') !! b
          = if decide (0 <= b < B) then Some (reduced info this b 1) else None)
    /\ (type this <> memoryIntensity ->
        KernelProfile.memoryOperationsMap (_kernelProfile this') = ∅).
Proof.
  destruct Hrep as (_ & _ & HB & _). fold B in HB.
  unfold extractResults. rewrite reduce_outer. simpl. fold B.
  rewrite for_loop_count by lia. rewrite Z.sub_0_r.
  match goal with |- context [for_each _ _ (?p, ?o)] =>
    destruct (print_loop (seqZ 0 B) p o) as [out' ->] end.
  { intros j Hj. apply elem_of_seqZ in Hj. lia. }
  simpl. eexists _, _. split; [reflexivity|]. simpl.
  pose proof (outer_sound _ cleared_sound) as Hs.
  assert (Hin : forall b, 0 <= b < B -> b ∈ seqZ 0 B)
    by (intros; apply elem_of_seqZ; lia).
  assert (Hout : forall b, ~ 0 <= b < B -> b ∉ seqZ 0 B)
    by (intros b Hb Hc; apply elem_of_seqZ in Hc; lia).
  split; [|split; [|split]].
  - intros b Hb. rewrite touch_all_exec, read_all_lookup.
    destruct (decide (b ∈ seqZ 0 B)) as [_|Hn]; [|destruct (Hn (Hin b Hb))].
    f_equal. apply (outer_reduced 0 b); [left; reflexivity|exact Hb].
  - intros b Hb. rewrite touch_all_exec, read_all_lookup.
    destruct (decide (b ∈ seqZ 0 B)) as [Hy|_]; [destruct (Hout b Hb Hy)|].
    apply (absent_outside 0 b _ Hs Hb).
  - intros Hty b. rewrite touch_all_mem, Hty. simpl.
    rewrite read_all_lookup.
    destruct (decide (0 <= b < B)) as [Hb|Hb].
    + destruct (decide (b ∈ seqZ 0 B)) as [_|Hn]; [|destruct (Hn (Hin b Hb))].
      f_equal. apply (outer_reduced 1 b); [right; auto|exact Hb].
    + destruct (decide (b ∈ seqZ 0 B)) as [Hy|_]; [destruct (Hout b Hb Hy)|].
      apply (absent_outside 1 b _ Hs Hb).
  - intros Hty. rewrite touch_all_mem.
    destruct (Z.eqb_spec (type this) memoryIntensity); [contradiction|].
    apply Hs. exact Hty.
Qed.

End Reduction.

(** C2. Let [info] hold the [entries * basicBlocks * threadBlocks *
    threads] counters of an instrumentor whose members hold values of
    their types, whose [entries] is positive, and at least 2 under
    [memoryIntensity], and which has a label for every block. With one
    iteration of fuel more than the largest loop bound, [extractResults]
    returns, hands [info] back, and leaves a profile in which, whatever
    the profile held before: the execution count of every block [b]
    below [basicBlocks] is the sum, as a [size_t], over all thread blocks
    and threads of the counter of entry 0 of [b]; under [memoryIntensity]
    the memory-operation count of [b] is the same sum over entry 1, and
    for any other type the memory-operation map is empty; no other block
    has a count. *)
Theorem extractResults_reduces (fuel : nat) (info : list Z)
    (this : BasicBlockInstrumentor.t) (out : list item) :
  BasicBlockInstrumentor.representable this ->
  0 < BasicBlockInstrumentor.entries this ->
  (BasicBlockInstrumentor.type this = memoryIntensity ->
   2 <= BasicBlockInstrumentor.entries this) ->
  Z.of_nat (length info)
  = BasicBlockInstrumentor.totalElements
      (BasicBlockInstrumentor.entries this)
      (BasicBlockInstrumentor.basicBlocks this)
      (BasicBlockInstrumentor.threadBlocks this)
      (BasicBlockInstrumentor.threads this) ->
  Z.of_nat (length info) < 2 ^ 64 ->
  BasicBlockInstrumentor.basicBlocks this
  <= Z.of_nat (length (BasicBlockInstrumentor.labels this)) ->
  (Z.to_nat (Z.max (BasicBlockInstrumentor.threadBlocks this)
               (Z.max (BasicBlockInstrumentor.basicBlocks this)
                  (BasicBlockInstrumentor.threads this))) < fuel)%nat ->
  exists this' out',
    BasicBlockInstrumentor.extractResults fuel info this out
    = Ok (this', out', info)
    /\ (forall b,
           0 <= b < BasicBlockInstrumentor.basicBlocks this ->
           KernelProfile.basicBlockExecutionCountMap
             (BasicBlockInstrumentor._kernelProfile this') !! b
           = Some (BasicBlockInstrumentor.reduced info this b 0))
    /\ (forall b,
           ~ 0 <= b < BasicBlockInstrumentor.basicBlocks this ->
           KernelProfile.basicBlockExecutionCountMap
             (BasicBlockInstrumentor._kernelProfile this') !! b
           = None)
    /\ (BasicBlockInstrumentor.type this = memoryIntensity ->
        forall b,
          KernelProfile.memoryOperationsMap
            (BasicBlockInstrumentor._kernelProfile this') !! b
          = if decide (0 <= b < BasicBlockInstrumentor.basicBlocks this)
            then Some (BasicBlockInstrumentor.reduced info this b 1)
            else None)
    /\ (BasicBlockInstrumentor.type this <> memoryIntensity ->
        KernelProfile.memoryOperationsMap
          (BasicBlockInstrumentor._kernelProfile this') = ∅).
Proof.
  intros Hrep HE HMI Hlen Hfit Hlabels Hfuel.
  apply extractResults_profile; try assumption. rewrite <- Hlen. exact Hfit.
Qed.

Lemma extractResults_reduces_witness :
  exists this' out',
    BasicBlockInstrumentor.extractResults 5 Examples.counters
      Examples.profiler [] = Ok (this', out', Examples.counters)
    /\ (forall b,
           0 <= b < 3 ->
           KernelProfile.basicBlockExecutionCountMap
             (BasicBlockInstrumentor._kernelProfile this') !! b
           = Some (BasicBlockInstrumentor.reduced Examples.counters
                     Examples.profiler b 0))
    /\ (forall b,
           ~ 0 <= b < 3 ->
           KernelProfile.basicBlockExecutionCountMap
             (BasicBlockInstrumentor._kernelProfile this') !! b
           = None)
    /\ (memoryIntensity = memoryIntensity ->
        forall b,
          KernelProfile.memoryOperationsMap
            (BasicBlockInstrumentor._kernelProfile this') !! b
          = if decide (0 <= b < 3)
            then Some (BasicBlockInstrumentor.reduced Examples.counters
                         Examples.profiler b 1)
            else None)
    /\ (memoryIntensity <> memoryIntensity ->
        KernelProfile.memoryOperationsMap
          (BasicBlockInstrumentor._kernelProfile this') = ∅).
Proof.
  apply (extractResults_reduces 5 Examples.counters Examples.profiler []).
  - unfold BasicBlockInstrumentor.representable. simpl. lia.
  - simpl. lia.
  - simpl. lia.
  - reflexivity.
  - simpl. lia.
  - simpl. lia.
  - simpl. lia.
Defined.

(** The sums of the example: block 1 has executed
    [sum over t < 4, k < 2 of (1000 + 10 t + k)] times. *)
Example reduced_counters :
  BasicBlockInstrumentor.reduced Examples.counters Examples.profiler 1 0 = 8124
  /\ BasicBlockInstrumentor.reduced Examples.counters Examples.profiler 1 1
     = 8924.
Proof. split; vm_compute; reflexivity. Qed.

(** * Further properties *)

(** ** Header::access *)

Section HeaderAccess.

(** A counter that every step advances by [w x] as a 64-bit counter has
    advanced by the sum after a run that is not empty. *)
Lemma foldl_counter {S : Type} (val : S -> Z) (g : Z -> S -> S) (w : Z -> Z) :
  (forall x s, val (g x s) = u64 (val s + w x)) ->
  forall l s, l <> [] ->
    val (foldl (fun s x => g x s) s l) = u64 (val s + sumZ w l).
Proof.
  intros Hstep l. induction l as [|x l IH]; intros s Hl; [contradiction|].
  destruct l as [|y l].
  - simpl. rewrite Hstep. f_equal. lia.
  - change (foldl (fun s x => g x s) s (x :: y :: l))
      with (foldl (fun s x => g x s) (g x s) (y :: l)).
    rewrite IH by discriminate. rewrite Hstep, u64_add_l.
    f_equal. simpl. lia.
Qed.

(** A member that no step changes is unchanged by the run. *)
Lemma foldl_unchanged {S A : Type} (val : S -> A) (g : Z -> S -> S) :
  (forall x s, val (g x s) = val s) ->
  forall l s, val (foldl (fun s x => g x s) s l) = val s.
Proof.
  intros Hstep l. induction l as [|x l IH]; intros s; [reflexivity|].
  simpl. rewrite IH. apply Hstep.
Qed.

Lemma sumZ_const c l : sumZ (fun _ => c) l = c * Z.of_nat (length l).
Proof. induction l as [|x l IH]; simpl length; simpl sumZ; lia. Qed.

End HeaderAccess.

(** X1. A run of [n] calls of [access] that is not empty advances, as
    64-bit counters: for the Global space [global_accesses] and
    [global_instructions] by [n] and [global_bytes] by the sum of the
    byte counts; for the Texture space the three texture counters
    likewise; for the Shared space [shared_accesses] by [n] and
    [shared_bytes] by the sum; for Const, Local and Param the access
    counter of the space by [n]. For any other space the header is
    unchanged, and no call changes an address extremum, a word counter
    or a segment counter. *)
Theorem access_accumulates (l : list Z) (h : Header.t) :
  l <> [] ->
  let n := Z.of_nat (length l) in
  let total := sumZ id l in
  (let h' := Runs.accesses Global l h in
   Header.global_accesses h' = u64 (Header.global_accesses h + n)
   /\ Header.global_instructions h' = u64 (Header.global_instructions h + n)
   /\ Header.global_bytes h' = u64 (Header.global_bytes h + total))
  /\ (let h' := Runs.accesses Texture l h in
      Header.texture_accesses h' = u64 (Header.texture_accesses h + n)
      /\ Header.texture_instructions h'
         = u64 (Header.texture_instructions h + n)
      /\ Header.texture_bytes h' = u64 (Header.texture_bytes h + total))
  /\ (let h' := Runs.accesses Shared l h in
      Header.shared_accesses h' = u64 (Header.shared_accesses h + n)
      /\ Header.shared_bytes h' = u64 (Header.shared_bytes h + total))
  /\ Header.const_accesses (Runs.accesses Const l h)
     = u64 (Header.const_accesses h + n)
  /\ Header.local_accesses (Runs.accesses Local l h)
     = u64 (Header.local_accesses h + n)
  /\ Header.param_accesses (Runs.accesses Param l h)
     = u64 (Header.param_accesses h + n)
  /\ (forall k, Runs.accesses (OtherSpace k) l h = h)
  /\ Runs.accesses AddressSpace_Invalid l h = h
  /\ (forall space,
         let h' := Runs.accesses space l h in
         Header.global_min_address h' = Header.global_min_address h
         /\ Header.global_max_address h' = Header.global_max_address h
         /\ Header.global_words h' = Header.global_words h
         /\ Header.texture_words h' = Header.texture_words h
         /\ Header.global_segments h' = Header.global_segments h
         /\ Header.halfwarps h' = Header.halfwarps h).
Proof.
  intros Hl n total. unfold Runs.accesses.
  assert (Hone : forall space (val : Header.t -> Z),
             (forall x s, val (Header.access space x s) = u64 (val s + 1)) ->
             val (foldl (fun h bytes => Header.access space bytes h) h l)
             = u64 (val h + n)).
  { intros space val Hstep.
    rewrite (foldl_counter val (fun x s => Header.access space x s)
               (fun _ => 1) Hstep l h Hl).
    rewrite sumZ_const. f_equal. lia. }
  assert (Hsum : forall space (val : Header.t -> Z),
             (forall x s, val (Header.access space x s) = u64 (val s + x)) ->
             val (foldl (fun h bytes => Header.access space bytes h) h l)
             = u64 (val h + total)).
  { intros space val Hstep.
    apply (foldl_counter val (fun x s => Header.access space x s) id Hstep l h
             Hl). }
  assert (Hsame : forall space (A : Type) (val : Header.t -> A),
             (forall x s, val (Header.access space x s) = val s) ->
             val (foldl (fun h bytes => Header.access space bytes h) h l)
             = val h).
  { intros space A val Hstep.
    apply (foldl_unchanged val (fun x s => Header.access space x s) Hstep). }
  repeat split;
    try (apply Hone; intros x []; reflexivity);
    try (apply Hsum; intros x []; reflexivity);
    try (intros; apply (Hsame _ _ id); intros x []; reflexivity);
    try (apply (Hsame _ _ id); intros x []; reflexivity);
    try (apply Hsame; intros x [] ; destruct space; reflexivity).
Qed.

Lemma access_accumulates_witness :
  let h' := Runs.accesses Global [4; 4; 4] Header.Header in
  Header.global_accesses h' = u64 (0 + 3)
  /\ Header.global_instructions h' = u64 (0 + 3)
  /\ Header.global_bytes h' = u64 (0 + 12).
Proof.
  apply (access_accumulates [4; 4; 4] Header.Header). discriminate.
Defined.

(** ** Sequences of events *)

Section EventSequences.

Import MemoryTraceGenerator.

Lemma events_dynamic fuel es : forall this this',
  events fuel es this = Ok this' ->
  u64 (Header.dynamic_instructions (_header this'))
  = u64 (Header.dynamic_instructions (_header this) + Z.of_nat (length es))
  /\ u64 (Header.dynamic_operations (_header this'))
     = u64 (Header.dynamic_operations (_header this) + Runs.operations es).
Proof.
  induction es as [|e es IH]; intros this this'; simpl.
  - intros [= <-]. unfold Runs.operations. simpl. rewrite !Z.add_0_r. auto.
  - destruct (event fuel e this) as [g|] eqn:He; simpl; [|discriminate].
    intros H. destruct (IH _ _ H) as [-> ->].
    apply event_dynamic in He. unfold Header.dynamic in He.
    injection He as -> ->. rewrite !u64_add_l. unfold Runs.operations.
    split; f_equal; simpl; unfold id; lia.
Qed.

Lemma events_dynamic_range fuel es : forall this this',
  events fuel es this = Ok this' ->
  0 <= Header.dynamic_instructions (_header this) < 2 ^ 64 ->
  0 <= Header.dynamic_operations (_header this) < 2 ^ 64 ->
  0 <= Header.dynamic_instructions (_header this') < 2 ^ 64
  /\ 0 <= Header.dynamic_operations (_header this') < 2 ^ 64.
Proof.
  induction es as [|e es IH]; intros this this'; simpl.
  - intros [= <-]. auto.
  - destruct (event fuel e this) as [g|] eqn:He; simpl; [|discriminate].
    intros H _ _. apply (IH _ _ H).
    + apply event_dynamic in He. unfold Header.dynamic in He.
      injection He as -> _. apply u64_range.
    + apply event_dynamic in He. unfold Header.dynamic in He.
      injection He as _ ->. apply u64_range.
Qed.

End EventSequences.

(** X2. After a sequence of events that all return, a header whose two
    dynamic counters were 64-bit values has [dynamic_instructions]
    advanced by the number of events and [dynamic_operations] by the
    number of active lanes over all events, as 64-bit counters. *)
Theorem events_count_dynamic (fuel : nat) (es : list TraceEvent.t)
    (this this' : MemoryTraceGenerator.t) :
  MemoryTraceGenerator.events fuel es this = Ok this' ->
  0 <= Header.dynamic_instructions (MemoryTraceGenerator._header this) < 2 ^ 64 ->
  0 <= Header.dynamic_operations (MemoryTraceGenerator._header this) < 2 ^ 64 ->
  Header.dynamic_instructions (MemoryTraceGenerator._header this')
  = u64 (Header.dynamic_instructions (MemoryTraceGenerator._header this)
         + Z.of_nat (length es))
  /\ Header.dynamic_operations (MemoryTraceGenerator._header this')
     = u64 (Header.dynamic_operations (MemoryTraceGenerator._header this)
            + Runs.operations es).
Proof.
  intros H Hi Ho. destruct (events_dynamic _ _ _ _ H) as [Ei Eo].
  destruct (events_dynamic_range _ _ _ _ H Hi Ho) as [Ri Ro].
  rewrite <- Ei, <- Eo, !u64_small by assumption. auto.
Qed.

Lemma events_count_dynamic_witness :
  exists this',
    MemoryTraceGenerator.events 9
      [Examples.load Examples.lanes_0_to_3 [0; 4; 8; 12];
       Examples.load Examples.lanes_6_and_7 [0; 4]]
      (Examples.generator false 8) = Ok this'
    /\ Header.dynamic_instructions (MemoryTraceGenerator._header this')
       = u64 (0 + Z.of_nat 2)
    /\ Header.dynamic_operations (MemoryTraceGenerator._header this')
       = u64 (0 + Runs.operations
                    [Examples.load Examples.lanes_0_to_3 [0; 4; 8; 12];
                     Examples.load Examples.lanes_6_and_7 [0; 4]]).
Proof.
  eexists. split; [vm_compute; reflexivity|].
  apply (events_count_dynamic 9
           [Examples.load Examples.lanes_0_to_3 [0; 4; 8; 12];
            Examples.load Examples.lanes_6_and_7 [0; 4]]
           (Examples.generator false 8)).
  - vm_compute. reflexivity.
  - simpl. lia.
  - simpl. lia.
Defined.

(** ** Header-only mode and the archive *)

(** X3. In header-only mode a sequence of events that all return leaves
    the mode set, leaves [_event] as it was (no access is appended) and
    leaves the access log as it was (no event is serialized). *)
Theorem header_only_never_records (fuel : nat) (es : list TraceEvent.t)
    (this this' : MemoryTraceGenerator.t) :
  MemoryTraceGenerator.headerOnly this = true ->
  MemoryTraceGenerator.events fuel es this = Ok this' ->
  MemoryTraceGenerator.headerOnly this' = true
  /\ MemoryTraceGenerator._event this' = MemoryTraceGenerator._event this
  /\ MemoryTraceGenerator._file this' = MemoryTraceGenerator._file this.
Proof.
  revert this. induction es as [|e es IH]; intros this Hh; simpl.
  - intros [= <-]. auto.
  - destruct (MemoryTraceGenerator.event fuel e this) as [g|] eqn:He; simpl;
      [|discriminate].
    destruct (event_headerOnly_records_nothing _ _ _ _ Hh He)
      as (Hg & <- & <-).
    apply IH. exact Hg.
Qed.

Lemma header_only_never_records_witness :
  exists this',
    MemoryTraceGenerator.events 9
      [Examples.load Examples.lanes_0_to_3 [0; 4; 8; 12];
       Examples.load Examples.lanes_6_and_7 [0; 4]]
      (Examples.generator true 8) = Ok this'
    /\ MemoryTraceGenerator.headerOnly this' = true
    /\ MemoryTraceGenerator._event this'
       = MemoryTraceGenerator._event (Examples.generator true 8)
    /\ MemoryTraceGenerator._file this'
       = MemoryTraceGenerator._file (Examples.generator true 8).
Proof.
  eexists. split; [vm_compute; reflexivity|].
  apply (header_only_never_records 9
           [Examples.load Examples.lanes_0_to_3 [0; 4; 8; 12];
            Examples.load Examples.lanes_6_and_7 [0; 4]]
           (Examples.generator true 8)).
  - reflexivity.
  - vm_compute. reflexivity.
Defined.

Section NoArchive.

Import MemoryTraceGenerator.

#[local] Arguments coalesce : simpl never.
#[local] Arguments Header.address : simpl never.
#[local] Arguments Header.access : simpl never.







End NoArchive.



(** ** The header after an event, up to the segment counters *)

Section HeaderSummary.

Import MemoryTraceGenerator.

#[local] Arguments coalesce : simpl never.
#[local] Arguments Header.address : simpl never.
#[local] Arguments Header.access : simpl never.
#[local] Arguments Header.addresses : simpl never.

Lemma address_forget space addr h :
  Runs.forget_segments (Header.address space addr h)
  = Header.address space addr (Runs.forget_segments h).
Proof.
  destruct h. unfold Runs.forget_segments, Header.address, Header.extrema.
  destruct space; try reflexivity; simpl;
    destruct (global_min_address =? 0), (addr <? global_min_address); simpl;
    destruct (global_max_address =? 0), (global_max_address <? addr);
    reflexivity.
Qed.

Lemma access_forget space bytes h :
  Runs.forget_segments (Header.access space bytes h)
  = Header.access space bytes (Runs.forget_segments h).
Proof. destruct h, space; reflexivity. Qed.

Lemma addresses_forget space l : forall h,
  Runs.forget_segments (Header.addresses space l h)
  = Header.addresses space l (Runs.forget_segments h).
Proof.
  induction l as [|a l IH]; intros h; [reflexivity|].
  rewrite !addresses_cons, IH, address_forget. reflexivity.
Qed.

Lemma coalesce_forget halfwarpSize addr size s :
  Runs.forget_segments (_header (coalesce halfwarpSize addr size s).1)
  = Runs.forget_segments (_header s.1).
Proof.
  destruct s as [this l]. unfold coalesce.
  destruct (_ <? _); [destruct this as [? ? ? [] ? ?]; reflexivity|].
  destruct (negb _); [destruct this as [? ? ? [] ? ?]; reflexivity|].
  reflexivity.
Qed.

Lemma coalesce_bytes halfwarpSize addr size s :
  Locals.bytes (coalesce halfwarpSize addr size s).2 = Locals.bytes s.2.
Proof.
  destruct s as [this l]. unfold coalesce.
  destruct (_ <? _); [reflexivity|]. destruct (negb _); reflexivity.
Qed.

Lemma record_lane_bytes fuel e copies addr size s s' :
  record_lane fuel e copies addr size s = Ok s' ->
  Locals.bytes s'.2 = Locals.bytes s.2.
Proof.
  destruct s as [this l]. unfold record_lane.
  destruct (headerOnly this); [intros [= <-]; reflexivity|].
  destruct (skip_inactive _ _ _ _); simpl; [|discriminate].
  intros [= <-]. reflexivity.
Qed.

(** What one pass of a lane loop does to the header, up to the segment
    counters, and to [bytes]. *)
Let lane_step (space : AddressSpace)
    (body : Z -> Z -> t * Locals.t -> outcome (t * Locals.t)) : Prop :=
  forall addr size s s',
    body addr size s = Ok s' ->
    Runs.forget_segments (_header s'.1)
    = Runs.forget_segments (Header.address space addr (_header s.1))
    /\ Locals.bytes s'.2 = u64 (Locals.bytes s.2 + size).

Lemma ldst_lane_step fuel e halfwarpSize :
  lane_step (Instruction.addressSpace (TraceEvent.instruction e))
    (ldst_lane fuel e halfwarpSize).
Proof.
  intros addr size s s'. unfold ldst_lane.
  destruct (record_lane fuel e 1 addr size s) as [[this l]|] eqn:Hr; simpl;
    [|discriminate].
  pose proof (record_lane_header _ _ _ _ _ _ _ Hr) as Hh.
  pose proof (record_lane_bytes _ _ _ _ _ _ _ Hr) as Hb. simpl in Hh, Hb.
  intros [= <-]. rewrite coalesce_forget, coalesce_bytes. simpl.
  rewrite Hh, Hb. auto.
Qed.

Lemma tex_lane_step fuel e halfwarpSize :
  lane_step Texture (tex_lane fuel e halfwarpSize).
Proof.
  intros addr size s s'. unfold tex_lane.
  destruct (record_lane fuel e 4 addr size s) as [[this l]|] eqn:Hr; simpl;
    [|discriminate].
  pose proof (record_lane_header _ _ _ _ _ _ _ Hr) as Hh.
  pose proof (record_lane_bytes _ _ _ _ _ _ _ Hr) as Hb. simpl in Hh, Hb.
  intros [= <-]. rewrite coalesce_forget, coalesce_bytes. simpl.
  rewrite Hh, Hb. auto.
Qed.

Lemma lanes_summary space body :
  lane_step space body ->
  forall addresses sizes s s',
    lanes body addresses sizes s = Ok s' ->
    Runs.forget_segments (_header s'.1)
    = Runs.forget_segments (Header.addresses space addresses (_header s.1))
    /\ u64 (Locals.bytes s'.2)
       = u64 (Locals.bytes s.2 + sumZ id (take (length addresses) sizes)).
Proof.
  intros Hbody addresses.
  induction addresses as [|a addresses IH]; intros sizes s s'; simpl lanes.
  - intros [= <-]. simpl. rewrite Z.add_0_r. auto.
  - destruct sizes as [|sz sizes]; [discriminate|].
    destruct (body a sz s) as [[this l]|] eqn:Hb; simpl; [|discriminate].
    intros Hl. apply IH in Hl as [Hh Hy]. simpl in Hh, Hy.
    destruct (Hbody _ _ _ _ Hb) as [Hh1 Hb1]. simpl in Hh1, Hb1.
    rewrite addresses_cons. split.
    + rewrite Hh, !addresses_forget, Hh1. reflexivity.
    + rewrite Hy, Hb1, u64_add_l. f_equal. unfold id. lia.
Qed.

Lemma lanes_bytes_range space body :
  lane_step space body ->
  forall addresses sizes s s',
    lanes body addresses sizes s = Ok s' ->
    0 <= Locals.bytes s.2 < 2 ^ 64 -> 0 <= Locals.bytes s'.2 < 2 ^ 64.
Proof.
  intros Hbody addresses.
  induction addresses as [|a addresses IH]; intros sizes s s'; simpl lanes.
  - intros [= <-]. auto.
  - destruct sizes as [|sz sizes]; [discriminate|].
    destruct (body a sz s) as [[this l]|] eqn:Hb; simpl; [|discriminate].
    intros Hl _. apply (IH _ _ _ Hl). simpl.
    destruct (Hbody _ _ _ _ Hb) as [_ Hb1]. simpl in Hb1. rewrite Hb1.
    apply u64_range.
Qed.

Lemma trace_accesses_summary e space body this this' :
  (forall hw, lane_step space (body hw)) ->
  trace_accesses e space body this = Ok this' ->
  Runs.forget_segments (_header this')
  = Runs.forget_segments
      (Header.access space (Runs.bytes_of e)
         (Header.addresses space (TraceEvent.memory_addresses e)
            (_header this))).
Proof.
  intros Hbody. unfold trace_accesses.
  set (this0 := if headerOnly this then this else set_event _ this).
  assert (H0 : _header this0 = _header this)
    by (subst this0; destruct (headerOnly this); reflexivity).
  destruct (lanes _ _ _ _) as [[g l]|] eqn:Hl; simpl; [|discriminate].
  pose proof (lanes_summary space _ (Hbody _) _ _ _ _ Hl) as [Hh Hb].
  pose proof (lanes_bytes_range space _ (Hbody _) _ _ _ _ Hl) as Hr.
  simpl in Hh, Hb, Hr. rewrite H0 in Hh.
  assert (Hbytes : Locals.bytes l = Runs.bytes_of e).
  { unfold Runs.bytes_of. rewrite <- (u64_small (Locals.bytes l)) by (apply Hr; lia).
    rewrite Hb. f_equal. }
  assert (Hres : forall g',
             _header g' = Header.access space (Locals.bytes l) (_header g) ->
             Runs.forget_segments (_header g')
             = Runs.forget_segments
                 (Header.access space (Runs.bytes_of e)
                    (Header.addresses space (TraceEvent.memory_addresses e)
                       (_header this)))).
  { intros g' ->. rewrite !access_forget, Hh, Hbytes. reflexivity. }
  destruct (headerOnly g).
  - intros [= <-]. apply Hres. reflexivity.
  - intros Hs. apply Hres. rewrite (serialize_header _ _ Hs). reflexivity.
Qed.

Lemma event_summary fuel e this this' :
  event fuel e this = Ok this' ->
  Runs.forget_segments (_header this')
  = Runs.forget_segments (Summary.summary e this).
Proof.
  unfold event, Summary.summary.
  destruct (Instruction.opcode _).
  - apply trace_accesses_summary. intros hw. apply ldst_lane_step.
  - apply trace_accesses_summary. intros hw. apply ldst_lane_step.
  - apply trace_accesses_summary. intros hw. apply tex_lane_step.
  - intros [= <-]. reflexivity.
Qed.

(** The summary reads the header only up to the segment counters. *)
Lemma summary_forget e this this2 :
  Runs.forget_segments (_header this) = Runs.forget_segments (_header this2) ->
  Runs.forget_segments (Summary.summary e this)
  = Runs.forget_segments (Summary.summary e this2).
Proof.
  intros H. unfold Summary.summary.
  assert (Hc : Runs.forget_segments (_header (count_dynamic e this))
               = Runs.forget_segments (_header (count_dynamic e this2))).
  { unfold count_dynamic. simpl.
    destruct (_header this), (_header this2).
    unfold Runs.forget_segments in *. simpl in *.
    injection H. intros. subst. reflexivity. }
  destruct (Instruction.opcode _); try exact Hc;
    rewrite !access_forget, !addresses_forget, Hc; reflexivity.
Qed.

Lemma address_forget_mode space addr h :
  Runs.forget_mode (Header.address space addr h)
  = Header.address space addr (Runs.forget_mode h).
Proof.
  destruct h. unfold Runs.forget_mode, Header.address, Header.extrema.
  destruct space; try reflexivity; simpl;
    destruct (global_min_address =? 0), (addr <? global_min_address); simpl;
    destruct (global_max_address =? 0), (global_max_address <? addr);
    reflexivity.
Qed.

Lemma access_forget_mode space bytes h :
  Runs.forget_mode (Header.access space bytes h)
  = Header.access space bytes (Runs.forget_mode h).
Proof. destruct h, space; reflexivity. Qed.

Lemma addresses_forget_mode space l : forall h,
  Runs.forget_mode (Header.addresses space l h)
  = Header.addresses space l (Runs.forget_mode h).
Proof.
  induction l as [|a l IH]; intros h; [reflexivity|].
  rewrite !addresses_cons, IH, address_forget_mode. reflexivity.
Qed.

(** The aggregates of the summary are read off the aggregates of the
    header. *)
Lemma summary_aggregates e this this2 :
  Runs.aggregates (_header this) = Runs.aggregates (_header this2) ->
  Runs.aggregates (Summary.summary e this)
  = Runs.aggregates (Summary.summary e this2).
Proof.
  intros H. unfold Summary.summary.
  assert (Hc : Runs.aggregates (_header (count_dynamic e this))
               = Runs.aggregates (_header (count_dynamic e this2))).
  { unfold count_dynamic. simpl.
    destruct (_header this), (_header this2).
    unfold Runs.aggregates, Runs.forget_mode, Runs.forget_segments in *.
    simpl in *. injection H. intros. subst. reflexivity. }
  unfold Runs.aggregates in *.
  destruct (Instruction.opcode _); try exact Hc;
    rewrite !access_forget, !addresses_forget, !access_forget_mode,
      !addresses_forget_mode, Hc; reflexivity.
Qed.

End HeaderSummary.

(** X5. Up to [global_segments] and [halfwarps], the header after an
    event that returns is the header before it with the dynamic counters
    advanced, [address] called for every lane address in order and
    [access] called once with the sum of the lane sizes, for the space of
    a load or store and for Texture for a texture fetch; any other
    opcode only advances the dynamic counters. Mode, fuel and active mask
    do not matter. *)
Theorem event_header_summary (fuel : nat) (e : TraceEvent.t)
    (this this' : MemoryTraceGenerator.t) :
  MemoryTraceGenerator.event fuel e this = Ok this' ->
  Runs.forget_segments (MemoryTraceGenerator._header this')
  = Runs.forget_segments (Summary.summary e this).
Proof. apply event_summary. Qed.

Lemma event_header_summary_witness :
  exists this',
    MemoryTraceGenerator.event 9 (Examples.load Examples.lanes_6_and_7 [0; 4])
      (Examples.generator false 8) = Ok this'
    /\ Runs.forget_segments (MemoryTraceGenerator._header this')
       = Runs.forget_segments
           (Summary.summary (Examples.load Examples.lanes_6_and_7 [0; 4])
              (Examples.generator false 8)).
Proof.
  eexists. split; [vm_compute; reflexivity|].
  apply (event_header_summary 9 (Examples.load Examples.lanes_6_and_7 [0; 4])
           (Examples.generator false 8)).
  vm_compute. reflexivity.
Defined.

(** X6. Two generators whose headers agree in all members but
    [global_segments], [halfwarps] and the copy of the mode, whatever
    their modes, archives and fuel, have headers that agree in the same
    members after the same sequence of events, when both runs return:
    apart from the two segment counters, the header of a header-only
    session is the header of the full trace. *)
Theorem events_agree_up_to_segments (fuel1 fuel2 : nat)
    (es : list TraceEvent.t) (g1 g2 g1' g2' : MemoryTraceGenerator.t) :
  Runs.aggregates (MemoryTraceGenerator._header g1)
  = Runs.aggregates (MemoryTraceGenerator._header g2) ->
  MemoryTraceGenerator.events fuel1 es g1 = Ok g1' ->
  MemoryTraceGenerator.events fuel2 es g2 = Ok g2' ->
  Runs.aggregates (MemoryTraceGenerator._header g1')
  = Runs.aggregates (MemoryTraceGenerator._header g2').
Proof.
  revert g1 g2. induction es as [|e es IH]; intros g1 g2 H; simpl.
  - intros [= <-] [= <-]. exact H.
  - destruct (MemoryTraceGenerator.event fuel1 e g1) as [h1|] eqn:E1; simpl;
      [|discriminate].
    destruct (MemoryTraceGenerator.event fuel2 e g2) as [h2|] eqn:E2; simpl;
      [|discriminate].
    apply IH. unfold Runs.aggregates.
    rewrite (event_summary _ _ _ _ E1), (event_summary _ _ _ _ E2).
    apply summary_aggregates. exact H.
Qed.

Lemma events_agree_up_to_segments_witness :
  exists recorded summarized,
    MemoryTraceGenerator.events 9
      [Examples.load Examples.lanes_6_and_7 [0; 4]]
      (Examples.generator false 8) = Ok recorded
    /\ MemoryTraceGenerator.events 1
         [Examples.load Examples.lanes_6_and_7 [0; 4]]
         (Examples.generator true 8) = Ok summarized
    /\ Runs.aggregates (MemoryTraceGenerator._header recorded)
       = Runs.aggregates (MemoryTraceGenerator._header summarized).
Proof.
  eexists _, _. split; [vm_compute; reflexivity|].
  split; [vm_compute; reflexivity|].
  apply (events_agree_up_to_segments 9 1
           [Examples.load Examples.lanes_6_and_7 [0; 4]]
           (Examples.generator false 8) (Examples.generator true 8)).
  - reflexivity.
  - vm_compute. reflexivity.
  - vm_compute. reflexivity.
Defined.

(** ** The accesses that an event records *)

Section Recorded.

Import MemoryTraceGenerator.

#[local] Arguments coalesce : simpl never.
#[local] Arguments Header.address : simpl never.
#[local] Arguments Header.access : simpl never.

Variables (fuel : nat) (e : TraceEvent.t).

Let active := TraceEvent.active e.

Hypothesis Hfuel : (length active < fuel)%nat.
Hypothesis Hlanes : Z.of_nat (length active) < 2 ^ 32.

(** The active lanes from lane [i] on. *)
Let from (i : Z) : list Z := Runs.active_lanes i (drop (Z.to_nat i) active).

Lemma from_step (i : Z) (b : bool) :
  0 <= i -> active !! Z.to_nat i = Some b ->
  from i = if b then i :: from (i + 1) else from (i + 1).
Proof.
  intros Hi Hb. unfold from. rewrite (drop_S _ _ _ Hb).
  replace (Z.to_nat (i + 1)) with (S (Z.to_nat i)) by lia.
  destruct b; reflexivity.
Qed.

Lemma from_nonempty (i x : Z) (xs : list Z) :
  0 <= i -> from i = x :: xs -> exists b, active !! Z.to_nat i = Some b.
Proof.
  intros Hi H. destruct (active !! Z.to_nat i) as [b|] eqn:Hb; [eauto|].
  apply lookup_ge_None in Hb. unfold from in H.
  rewrite drop_ge in H by lia. discriminate.
Qed.

(** The scan stops at the next active lane. *)
Lemma skip_inactive_first thread_count : forall f i x xs,
  (length active - Z.to_nat i < f)%nat -> 0 <= i ->
  Z.of_nat (length active) <= thread_count ->
  from i = x :: xs ->
  skip_inactive f active thread_count i = Ok x
  /\ 0 <= x < Z.of_nat (length active) /\ from (x + 1) = xs.
Proof.
  induction f as [|f IH]; intros i x xs Hf Hi Htc Hfrom; [lia|].
  destruct (from_nonempty i x xs Hi Hfrom) as [b Hb].
  assert (Hlt : (Z.to_nat i < length active)%nat)
    by (apply lookup_lt_is_Some; eauto).
  simpl. destruct (Z.ltb_spec i thread_count); [|lia].
  unfold at_index. destruct (Z.ltb_spec i 0); [lia|]. rewrite Hb. simpl.
  rewrite (from_step i b Hi Hb) in Hfrom. destruct b; simpl.
  - injection Hfrom as <- <-. repeat split; auto; lia.
  - rewrite u32_small by lia. apply IH; auto; lia.
Qed.

(** An event with further accesses appended. *)
Let append (accesses : list Access.t) (ev : Event.t) : Event.t :=
  Event.mk (Event.PC ev) (Event.opcode ev) (Event.addressSpace ev)
    (Event.ctaX ev) (Event.ctaY ev) (Event.ctaZ ev)
    (Event.accesses ev ++ accesses).

Lemma push_back_copies n a ev :
  Nat.iter n (Event.push_back a) ev = append (replicate n a) ev.
Proof.
  revert ev. induction n as [|n IH]; intros ev.
  - destruct ev. unfold append. simpl. rewrite app_nil_r. reflexivity.
  - rewrite Nat.iter_succ_r, IH. destruct ev. unfold append, Event.push_back.
    simpl. rewrite <- app_assoc. reflexivity.
Qed.

Lemma append_append l1 l2 ev : append l2 (append l1 ev) = append (l1 ++ l2) ev.
Proof. unfold append. simpl. rewrite app_assoc. reflexivity. Qed.

Lemma coalesce_keeps halfwarpSize addr size g l :
  exists g' l',
    coalesce halfwarpSize addr size (g, l) = (g', l')
    /\ headerOnly g' = headerOnly g /\ _file g' = _file g
    /\ _event g' = _event g
    /\ Header.thread_count (_header g') = Header.thread_count (_header g)
    /\ Locals.threadID l' = Locals.threadID l.
Proof.
  unfold coalesce.
  destruct (_ <? _);
    [eexists _, _; split; [reflexivity|];
     destruct g as [? ? ? [] ? ?]; simpl; auto 10|].
  destruct (negb _);
    [eexists _, _; split; [reflexivity|];
     destruct g as [? ? ? [] ? ?]; simpl; auto 10|].
  eexists _, _. split; [reflexivity|]. auto 10.
Qed.

Lemma address_thread_count space addr h :
  Header.thread_count (Header.address space addr h) = Header.thread_count h.
Proof.
  destruct h. unfold Header.address, Header.extrema.
  destruct space; try reflexivity; simpl;
    destruct (global_min_address =? 0), (addr <? global_min_address); simpl;
    destruct (global_max_address =? 0), (global_max_address <? addr);
    reflexivity.
Qed.

(** What the lane loops maintain while they record. *)
Let recording (g : t) (l : Locals.t) : Prop :=
  headerOnly g = false
  /\ Z.of_nat (length active) <= Header.thread_count (_header g)
  /\ 0 <= Locals.threadID l.

(** One pass of a lane loop that records [copies] accesses. *)
Let records (copies : nat)
    (body : Z -> Z -> t * Locals.t -> outcome (t * Locals.t)) : Prop :=
  forall addr size g l x xs,
    recording g l -> from (Locals.threadID l) = x :: xs ->
    exists g' l',
      body addr size (g, l) = Ok (g', l')
      /\ recording g' l' /\ Locals.threadID l' = x
      /\ x < Z.of_nat (length active) /\ from (x + 1) = xs
      /\ _event g' = append (replicate copies (Access.mk addr x size)) (_event g)
      /\ _file g' = _file g.

Lemma record_lane_records copies addr size g l x xs :
  recording g l -> from (Locals.threadID l) = x :: xs ->
  record_lane fuel e copies addr size (g, l)
  = Ok (set_event (append (replicate copies (Access.mk addr x size)) (_event g)) g,
        Locals.mk (Locals.bytes l) x (Locals.starting_address l))
  /\ 0 <= x < Z.of_nat (length active) /\ from (x + 1) = xs.
Proof.
  intros (Hh & Htc & Ht) Hfrom. unfold record_lane. rewrite Hh.
  destruct (skip_inactive_first (Header.thread_count (_header g)) fuel
              (Locals.threadID l) x xs) as (Hs & Hx & Hxs); auto; [lia|].
  unfold active in Hs. rewrite Hs. simpl. rewrite push_back_copies. auto.
Qed.

Lemma ldst_lane_records halfwarpSize :
  records 1 (ldst_lane fuel e halfwarpSize).
Proof.
  intros addr size g l x xs Hrec Hfrom. unfold ldst_lane.
  destruct (record_lane_records 1 addr size g l x xs Hrec Hfrom)
    as (-> & Hx & Hxs).
  destruct Hrec as (Hh & Htc & Ht). cbn [mbind outcome_bind].
  match goal with |- context [coalesce ?a ?b ?c (?g0, ?l0)] =>
    destruct (coalesce_keeps a b c g0 l0)
      as (g' & l' & -> & Fh & Ff & Fe & Fs & Ft) end.
  simpl in Fh, Ff, Fe, Fs, Ft. rewrite address_thread_count in Fs.
  exists g', l'. split; [reflexivity|].
  unfold recording. rewrite Fh, Fs, Ft, Fe, Ff. repeat split; auto; lia.
Qed.

Lemma tex_lane_records halfwarpSize :
  records 4 (tex_lane fuel e halfwarpSize).
Proof.
  intros addr size g l x xs Hrec Hfrom. unfold tex_lane.
  destruct (record_lane_records 4 addr size g l x xs Hrec Hfrom)
    as (-> & Hx & Hxs).
  destruct Hrec as (Hh & Htc & Ht). cbn [mbind outcome_bind].
  match goal with |- context [coalesce ?a ?b ?c (?g0, ?l0)] =>
    destruct (coalesce_keeps a b c g0 l0)
      as (g' & l' & -> & Fh & Ff & Fe & Fs & Ft) end.
  pose proof (eq_trans Fs (address_thread_count Texture addr (_header g)))
    as Fs'. clear Fs. rename Fs' into Fs.
  simpl in Fh, Ff, Fe, Ft.
  exists g', l'. split; [reflexivity|].
  unfold recording. rewrite Fh, Fs, Ft, Fe, Ff. repeat split; auto; lia.
Qed.

Lemma append_nil ev : append [] ev = ev.
Proof. destruct ev. unfold append. simpl. rewrite app_nil_r. reflexivity. Qed.

Lemma lanes_records copies body :
  records copies body ->
  forall addresses sizes g l,
    (length addresses <= length sizes)%nat ->
    (length addresses <= length (from (Locals.threadID l)))%nat ->
    recording g l ->
    exists g' l',
      lanes body addresses sizes (g, l) = Ok (g', l')
      /\ headerOnly g' = false
      /\ _event g'
         = append (Runs.recorded copies addresses sizes
                     (from (Locals.threadID l))) (_event g)
      /\ _file g' = _file g.
Proof.
  intros Hbody addresses.
  induction addresses as [|a addresses IH]; intros sizes g l Hs Hf Hrec.
  - simpl. exists g, l. destruct Hrec as (Hh & _). rewrite append_nil. auto.
  - destruct sizes as [|sz sizes]; simpl in Hs; [lia|].
    destruct (from (Locals.threadID l)) as [|x xs] eqn:Hfrom; simpl in Hf;
      [lia|].
    destruct (Hbody a sz g l x xs Hrec Hfrom)
      as (g1 & l1 & Hb & (Hh1 & Htc1 & Ht1) & Hx & Hlt & Hxs & He1 & Hf1).
    simpl lanes. rewrite Hb. cbn [mbind outcome_bind].
    assert (Hnext : u32 (Locals.threadID l1 + 1) = x + 1)
      by (rewrite Hx; apply u32_small; lia).
    rewrite Hnext.
    destruct (IH sizes g1
                (Locals.mk (Locals.bytes l1) (x + 1)
                   (Locals.starting_address l1)))
      as (g' & l' & Hl & Hh' & He' & Hf'); [lia|simpl; rewrite Hxs; lia| |].
    + unfold recording. simpl. repeat split; auto; lia.
    + exists g', l'. split; [exact Hl|]. split; [exact Hh'|].
      split; [|congruence].
      rewrite He'. simpl Locals.threadID. rewrite Hxs, He1, append_append.
      reflexivity.
Qed.

Lemma trace_accesses_records space copies body this log :
  (forall hw, records copies (body hw)) ->
  headerOnly this = false -> _file this = Some log ->
  (length (TraceEvent.memory_addresses e)
   <= length (TraceEvent.memory_sizes e))%nat ->
  (length (TraceEvent.memory_addresses e)
   <= length (Runs.active_lanes 0 active))%nat ->
  Z.of_nat (length active) <= Header.thread_count (_header this) ->
  exists this',
    trace_accesses e space body this = Ok this'
    /\ _event this'
       = Event.mk (TraceEvent.PC e)
           (Instruction.opcode (TraceEvent.instruction e)) space
           (Dim3.x (TraceEvent.blockId e)) (Dim3.y (TraceEvent.blockId e))
           (Dim3.z (TraceEvent.blockId e))
           (Runs.recorded copies (TraceEvent.memory_addresses e)
              (TraceEvent.memory_sizes e) (Runs.active_lanes 0 active))
    /\ _file this'
       = Some (Stream.mk (Stream.path log)
                 (Stream.written log ++ [_event this'])).
Proof.
  intros Hbody Hh Hf Hs Ha Htc. unfold trace_accesses. rewrite Hh.
  match goal with |- context [lanes ?b ?as_ ?ss (?g0, ?l0)] =>
    destruct (lanes_records copies b (Hbody _) as_ ss g0 l0)
      as (g' & l' & -> & Hh' & He' & Hf') end.
  - exact Hs.
  - simpl. unfold from. simpl. exact Ha.
  - unfold recording. simpl. rewrite Hh. auto with lia.
  - cbn [mbind outcome_bind]. simpl in He', Hf'. unfold from in He'.
    simpl in He'. simpl. rewrite Hh'. unfold serialize. simpl.
    rewrite Hf', Hf. eexists. split; [reflexivity|]. simpl.
    rewrite He'. auto.
Qed.

Lemma event_records this log :
  headerOnly this = false -> _file this = Some log ->
  (length (TraceEvent.memory_addresses e)
   <= length (TraceEvent.memory_sizes e))%nat ->
  (length (TraceEvent.memory_addresses e)
   <= length (Runs.active_lanes 0 active))%nat ->
  Z.of_nat (length active) <= Header.thread_count (_header this) ->
  (forall n, Instruction.opcode (TraceEvent.instruction e) <> OtherOpcode n) ->
  exists this',
    event fuel e this = Ok this'
    /\ _event this' = Runs.recorded_event e
    /\ _file this'
       = Some (Stream.mk (Stream.path log)
                 (Stream.written log ++ [Runs.recorded_event e])).
Proof.
  intros Hh Hf Hs Ha Htc Hop.
  unfold event, Runs.recorded_event, Runs.traced_space, Runs.copies.
  destruct (Instruction.opcode (TraceEvent.instruction e)) eqn:Ho.
  - destruct (trace_accesses_records
                (Instruction.addressSpace (TraceEvent.instruction e)) 1
                (ldst_lane fuel e) (count_dynamic e this) log)
      as (this' & -> & He & Hf'); auto using ldst_lane_records.
    rewrite Ho in He. unfold active in He. rewrite He in Hf'.
    exists this'. auto.
  - destruct (trace_accesses_records
                (Instruction.addressSpace (TraceEvent.instruction e)) 1
                (ldst_lane fuel e) (count_dynamic e this) log)
      as (this' & -> & He & Hf'); auto using ldst_lane_records.
    rewrite Ho in He. unfold active in He. rewrite He in Hf'.
    exists this'. auto.
  - destruct (trace_accesses_records Texture 4
                (tex_lane fuel e) (count_dynamic e this) log)
      as (this' & -> & He & Hf'); auto using tex_lane_records.
    rewrite Ho in He. unfold active in He. rewrite He in Hf'.
    exists this'. auto.
  - destruct (Hop n). reflexivity.
Qed.

End Recorded.

(** X7. While accesses are recorded, a load, store or texture fetch whose
    addresses have a size each and are no more than the active lanes,
    with a mask no longer than [thread_count], returns (given fuel for
    the mask) and leaves in [_event], and appends to the archive, the
    event with the program counter, opcode and block of the
    instruction, its address space (Texture for a texture fetch) and, for
    each address in order, one access (four for a texture fetch) with
    that address, the size at the same position and the number of the
    active lane at the same position among the active lanes. *)
Theorem event_records_accesses (fuel : nat) (e : TraceEvent.t)
    (this : MemoryTraceGenerator.t) (log : Stream.t) :
  MemoryTraceGenerator.headerOnly this = false ->
  MemoryTraceGenerator._file this = Some log ->
  (length (TraceEvent.memory_addresses e)
   <= length (TraceEvent.memory_sizes e))%nat ->
  (length (TraceEvent.memory_addresses e)
   <= length (Runs.active_lanes 0 (TraceEvent.active e)))%nat ->
  Z.of_nat (length (TraceEvent.active e))
  <= Header.thread_count (MemoryTraceGenerator._header this) ->
  Z.of_nat (length (TraceEvent.active e)) < 2 ^ 32 ->
  (length (TraceEvent.active e) < fuel)%nat ->
  (forall n, Instruction.opcode (TraceEvent.instruction e) <> OtherOpcode n) ->
  exists this',
    MemoryTraceGenerator.event fuel e this = Ok this'
    /\ MemoryTraceGenerator._event this' = Runs.recorded_event e
    /\ MemoryTraceGenerator._file this'
       = Some (Stream.mk (Stream.path log)
                 (Stream.written log ++ [Runs.recorded_event e])).
Proof.
  intros Hh Hf Hs Ha Htc Hlanes Hfuel Hop.
  apply event_records; assumption.
Qed.

Lemma event_records_accesses_witness :
  exists this',
    MemoryTraceGenerator.event 9 (Examples.load Examples.lanes_6_and_7 [0; 4])
      (Examples.generator false 8) = Ok this'
    /\ MemoryTraceGenerator._event this'
       = Runs.recorded_event (Examples.load Examples.lanes_6_and_7 [0; 4])
    /\ MemoryTraceGenerator._file this'
       = Some (Stream.mk "/tmp/k_0.trace"
                 ([] ++ [Runs.recorded_event
                           (Examples.load Examples.lanes_6_and_7 [0; 4])])).
Proof.
  apply (event_records_accesses 9
           (Examples.load Examples.lanes_6_and_7 [0; 4])
           (Examples.generator false 8) (Stream.mk "/tmp/k_0.trace" [])).
  - reflexivity.
  - reflexivity.
  - simpl. lia.
  - simpl. lia.
  - simpl. lia.
  - simpl. lia.
  - simpl. lia.
  - intros n. discriminate.
Defined.

(** The accesses of the example: lanes 6 and 7. *)
Example recorded_event_lanes :
  Event.accesses
    (Runs.recorded_event (Examples.load Examples.lanes_6_and_7 [0; 4]))
  = [Access.mk 0 6 4; Access.mk 4 7 4].
Proof. reflexivity. Qed.

(** ** analyze, again *)

Section AnalyzeMore.

Import BasicBlockInstrumentor.


End AnalyzeMore.

(** X8. When the module has no kernel under [kernelName], be the name
    empty or not, [analyze] dereferences the end iterator of the kernel
    map: it throws no exception and builds no label list. *)
Theorem analyze_missing_kernel (module : Module_.t)
    (this : BasicBlockInstrumentor.t) :
  Module_.kernels module !! BasicBlockInstrumentor.kernelName this = None ->
  BasicBlockInstrumentor.analyze module this = Fault Undefined.
Proof.
  intros Hk. unfold BasicBlockInstrumentor.analyze,
    BasicBlockInstrumentor.find_kernel.
  destruct (negb _); simpl; rewrite Hk; reflexivity.
Qed.

Lemma analyze_missing_kernel_witness :
  BasicBlockInstrumentor.analyze Examples.module1
    (Examples.instrumentor "other" 1) = Fault Undefined.
Proof.
  apply (analyze_missing_kernel Examples.module1
           (Examples.instrumentor "other" 1)).
  reflexivity.
Defined.



(** X10. For a target kernel whose control-flow graph has as many blocks
    as its dataflow graph, two of them labelled as boundary blocks, and
    an instrumentor without labels, [analyze] leaves as many labels as it
    counts basic blocks: every block index below [basicBlocks] has a
    label. *)
Theorem analyze_one_label_per_block (module : Module_.t)
    (this : BasicBlockInstrumentor.t) (kernel : Kernel.t) :
  BasicBlockInstrumentor.kernelName this <> EmptyString ->
  Module_.kernels module !! BasicBlockInstrumentor.kernelName this
  = Some kernel ->
  BasicBlockInstrumentor.labels this = [] ->
  Kernel.dfg_size kernel = Z.of_nat (length (Kernel.cfg kernel)) ->
  Kernel.dfg_size kernel < 2 ^ 32 ->
  length (filter (fun l => BasicBlockInstrumentor.is_boundary l = true)
            (Kernel.cfg kernel)) = 2%nat ->
  exists this',
    BasicBlockInstrumentor.analyze module this = Ok this'
    /\ BasicBlockInstrumentor.basicBlocks this'
       = Z.of_nat (length (BasicBlockInstrumentor.labels this')).
Proof.
  intros Hname Hk Hl Hsize Hfit Htwo.
  rewrite (analyze_named _ _ _ Hname Hk). eexists. split; [reflexivity|].
  simpl. rewrite Hl. simpl.
  assert (Hsplit : forall l : list string,
             (length (filter (fun l => BasicBlockInstrumentor.is_boundary l = true) l)
              + length (filter (fun l => BasicBlockInstrumentor.is_boundary l = false) l)
              = length l)%nat).
  { induction l as [|x l IH]; [reflexivity|].
    rewrite !filter_cons.
    destruct (BasicBlockInstrumentor.is_boundary x) eqn:Hx;
      repeat case_decide; simpl; try congruence; lia. }
  specialize (Hsplit (Kernel.cfg kernel)).
  rewrite u32_u64, u32_small by lia. lia.
Qed.

Lemma analyze_one_label_per_block_witness :
  exists this',
    BasicBlockInstrumentor.analyze Examples.module1
      (Examples.instrumentor "k" 1) = Ok this'
    /\ BasicBlockInstrumentor.basicBlocks this'
       = Z.of_nat (length (BasicBlockInstrumentor.labels this')).
Proof.
  apply (analyze_one_label_per_block Examples.module1
           (Examples.instrumentor "k" 1) Examples.kernel3).
  - discriminate.
  - reflexivity.
  - reflexivity.
  - reflexivity.
  - simpl. lia.
  - reflexivity.
Defined.

(** ** The report of extractResults *)

Section ReportFacts.

Import BasicBlockInstrumentor.

Variable this : t.

(** The line printed for block [j] from a profile. *)
Let line_of (p : KernelProfile.t) (j : Z) : list item :=
  Report.line (default EmptyString (labels this !! Z.to_nat j))
    (default 0 (KernelProfile.basicBlockExecutionCountMap p !! j))
    (if type this =? memoryIntensity
     then Some (default 0 (KernelProfile.memoryOperationsMap p !! j))
     else None).

Lemma read_at_value j (m : gmap Z Z) : (read_at j m).2 = default 0 (m !! j).
Proof. unfold read_at. destruct (m !! j); reflexivity. Qed.

Lemma read_at_default j (m : gmap Z Z) b :
  default 0 ((read_at j m).1 !! b) = default 0 (m !! b).
Proof.
  rewrite read_at_lookup. destruct (decide (b = j)) as [->|]; reflexivity.
Qed.

(** One pass of the printing loop. *)
Lemma print_block_line j p out :
  0 <= j < Z.of_nat (length (labels this)) ->
  print_block this j (p, out)
  = Ok (KernelProfile.mk
          (read_at j (KernelProfile.basicBlockExecutionCountMap p)).1
          (if type this =? memoryIntensity
           then (read_at j (KernelProfile.memoryOperationsMap p)).1
           else KernelProfile.memoryOperationsMap p),
        out ++ line_of p j).
Proof.
  intros Hj. unfold print_block, line_of, Report.line, at_index.
  destruct (Z.ltb_spec j 0); [lia|].
  destruct (lookup_lt_is_Some_2 (labels this) (Z.to_nat j)) as [label ->];
    [lia|].
  simpl.
  rewrite <- (read_at_value j (KernelProfile.basicBlockExecutionCountMap p)).
  destruct (read_at j (KernelProfile.basicBlockExecutionCountMap p))
    as [exec n].
  destruct (type this =? memoryIntensity).
  - rewrite <- (read_at_value j (KernelProfile.memoryOperationsMap p)).
    destruct (read_at j (KernelProfile.memoryOperationsMap p)) as [mem n'].
    simpl. rewrite <- !app_assoc. reflexivity.
  - simpl. rewrite <- !app_assoc. reflexivity.
Qed.

Lemma line_of_ext p q j :
  (forall b, default 0 (KernelProfile.basicBlockExecutionCountMap p !! b)
             = default 0 (KernelProfile.basicBlockExecutionCountMap q !! b)) ->
  (forall b, default 0 (KernelProfile.memoryOperationsMap p !! b)
             = default 0 (KernelProfile.memoryOperationsMap q !! b)) ->
  line_of p j = line_of q j.
Proof. intros He Hm. unfold line_of. rewrite He, Hm. reflexivity. Qed.

(** The printing loop over the blocks of [l]: the lines are those of the
    profile it starts from, and the maps are read at every block. *)
Lemma print_lines l : forall p out,
  (forall j, j ∈ l -> 0 <= j < Z.of_nat (length (labels this))) ->
  exists p',
    for_each (print_block this) l (p, out)
    = Ok (p', out ++ concat (map (line_of p) l))
    /\ KernelProfile.basicBlockExecutionCountMap p'
       = foldl (fun m j => (read_at j m).1)
           (KernelProfile.basicBlockExecutionCountMap p) l
    /\ (type this = memoryIntensity ->
        KernelProfile.memoryOperationsMap p'
        = foldl (fun m j => (read_at j m).1)
            (KernelProfile.memoryOperationsMap p) l).
Proof.
  induction l as [|j l IH]; intros p out Hl.
  - simpl. exists p. rewrite app_nil_r. auto.
  - cbn [for_each]. rewrite print_block_line by (apply Hl, list_elem_of_here).
    cbn [mbind outcome_bind].
    match goal with |- context [for_each _ l (?p1, ?o1)] =>
      destruct (IH p1 o1) as (p' & -> & He & Hm) end.
    { intros j' Hj'. apply Hl, list_elem_of_further, Hj'. }
    exists p'. split; [|split].
    + rewrite <- app_assoc. simpl concat.
      match goal with |- context [map (line_of ?p1) l] =>
        rewrite (List.map_ext (line_of p1) (line_of p)) end; [reflexivity|].
      intros j'. apply line_of_ext; simpl.
      * intros b. apply read_at_default.
      * intros b. destruct (type this =? memoryIntensity); [|reflexivity].
        apply read_at_default.
    + rewrite He. reflexivity.
    + intros Hty. rewrite (Hm Hty). simpl. rewrite Hty. reflexivity.
Qed.

End ReportFacts.

(** Reading the maps at the blocks of [l] makes those keys present with
    the value they had, zero where there was none. *)
Lemma reads_lookup l : forall (m : gmap Z Z) b,
  foldl (fun m j => (BasicBlockInstrumentor.read_at j m).1) m l !! b
  = if decide (b ∈ l) then Some (default 0 (m !! b)) else m !! b.
Proof.
  induction l as [|j l IH]; intros m b; simpl.
  - destruct (decide (b ∈ [])) as [H|]; [|reflexivity].
    apply not_elem_of_nil in H. contradiction.
  - rewrite IH, read_at_lookup.
    destruct (decide (b ∈ l)) as [Hin|Hin].
    + destruct (decide (b ∈ j :: l)) as [_|Hn].
      * destruct (decide (b = j)) as [->|]; reflexivity.
      * destruct Hn. apply list_elem_of_further, Hin.
    + destruct (decide (b = j)) as [->|].
      * destruct (decide (j ∈ j :: l)) as [_|Hn]; [reflexivity|].
        destruct Hn. apply list_elem_of_here.
      * destruct (decide (b ∈ j :: l)) as [Hc|_]; [|reflexivity].
        apply elem_of_cons in Hc as [Hc|Hc]; contradiction.
Qed.

(** The stream after [extractResults]. *)
Lemma extractResults_prints (fuel : nat) (info : list Z)
    (this : BasicBlockInstrumentor.t) (out : list item) :
  BasicBlockInstrumentor.representable this ->
  0 < BasicBlockInstrumentor.entries this ->
  (BasicBlockInstrumentor.type this = memoryIntensity ->
   2 <= BasicBlockInstrumentor.entries this) ->
  Z.of_nat (length info)
  = BasicBlockInstrumentor.totalElements
      (BasicBlockInstrumentor.entries this)
      (BasicBlockInstrumentor.basicBlocks this)
      (BasicBlockInstrumentor.threadBlocks this)
      (BasicBlockInstrumentor.threads this) ->
  Z.of_nat (length info) < 2 ^ 64 ->
  BasicBlockInstrumentor.basicBlocks this
  <= Z.of_nat (length (BasicBlockInstrumentor.labels this)) ->
  (Z.to_nat (Z.max (BasicBlockInstrumentor.threadBlocks this)
               (Z.max (BasicBlockInstrumentor.basicBlocks this)
                  (BasicBlockInstrumentor.threads this))) < fuel)%nat ->
  exists this',
    BasicBlockInstrumentor.extractResults fuel info this out
    = Ok (this', out ++ Report.report info this, info).
Proof.
  intros Hrep HE HMI Hlen Hfit Hlabels Hfuel.
  destruct (extractResults_profile info this Hrep HE HMI Hlen
              ltac:(rewrite <- Hlen; exact Hfit) fuel Hfuel Hlabels out)
    as (this' & out' & Hx & Hexec & _ & Hmem & _).
  destruct Hrep as (_ & _ & HB & _).
  unfold BasicBlockInstrumentor.extractResults in Hx |- *.
  destruct (BasicBlockInstrumentor.reduce fuel info this _) as [p|] eqn:Hr;
    [|discriminate].
  cbn [mbind outcome_bind] in Hx |- *.
  rewrite for_loop_count in Hx |- * by lia. rewrite Z.sub_0_r in Hx |- *.
  match type of Hx with context [for_each _ _ (p, ?o)] =>
    destruct (print_lines this
                (seqZ 0 (BasicBlockInstrumentor.basicBlocks this)) p o)
      as (p' & Hp & He & Hm) end.
  { intros j Hj. apply elem_of_seqZ in Hj. lia. }
  rewrite Hp in Hx |- *. cbn [mbind outcome_bind fst snd] in Hx |- *.
  injection Hx as <- _.
  eexists. f_equal. f_equal. f_equal.
  rewrite <- !app_assoc. f_equal. unfold Report.report.
  change (Report.preamble this) with
    ([Text ("{" +:+ nl +:+ dq +:+ "kernel" +:+ dq +:+ ": ");
      Text (BasicBlockInstrumentor.kernelName this); Text ("," +:+ nl);
      Text (nl +:+ dq +:+ "threadBlocks" +:+ dq +:+ ": ");
      Number (BasicBlockInstrumentor.threadBlocks this); Text ("," +:+ nl);
      Text (nl +:+ dq +:+ "threads" +:+ dq +:+ ": ");
      Number (BasicBlockInstrumentor.threads this); Text ("," +:+ nl);
      Text (nl +:+ dq +:+ "counters" +:+ dq +:+ ": {" +:+ nl)]).
  f_equal. f_equal. f_equal.
  apply List.map_ext_in. intros j Hj. apply list_elem_of_In in Hj.
  pose proof Hj as Hj'. apply elem_of_seqZ in Hj'.
  f_equal.
  - specialize (Hexec j ltac:(lia)). simpl in Hexec.
    rewrite He, reads_lookup in Hexec.
    destruct (decide _) as [_|Hn]; [|contradiction].
    injection Hexec as ->. reflexivity.
  - destruct (Z.eqb_spec (BasicBlockInstrumentor.type this) memoryIntensity)
      as [Hty|]; [|reflexivity].
    specialize (Hmem Hty j). simpl in Hmem.
    rewrite (Hm Hty), reads_lookup in Hmem.
    destruct (decide (j ∈ _)) as [_|Hn]; [|contradiction].
    destruct (decide (0 <= j < _)) as [_|Hn]; [|lia].
    injection Hmem as ->. reflexivity.
Qed.

(** X11. Under the conditions under which [extractResults] reduces the
    counters, what it appends to the stream is the report: the kernel
    name and the launch geometry, then for every block in order its
    label, the sum of its entry 0 over all thread blocks and threads and,
    under [memoryIntensity] only, the sum of its entry 1, then the
    closing braces. What the stream held before is kept. *)
Theorem extractResults_report (fuel : nat) (info : list Z)
    (this : BasicBlockInstrumentor.t) (out : list item) :
  BasicBlockInstrumentor.representable this ->
  0 < BasicBlockInstrumentor.entries this ->
  (BasicBlockInstrumentor.type this = memoryIntensity ->
   2 <= BasicBlockInstrumentor.entries this) ->
  Z.of_nat (length info)
  = BasicBlockInstrumentor.totalElements
      (BasicBlockInstrumentor.entries this)
      (BasicBlockInstrumentor.basicBlocks this)
      (BasicBlockInstrumentor.threadBlocks this)
      (BasicBlockInstrumentor.threads this) ->
  Z.of_nat (length info) < 2 ^ 64 ->
  BasicBlockInstrumentor.basicBlocks this
  <= Z.of_nat (length (BasicBlockInstrumentor.labels this)) ->
  (Z.to_nat (Z.max (BasicBlockInstrumentor.threadBlocks this)
               (Z.max (BasicBlockInstrumentor.basicBlocks this)
                  (BasicBlockInstrumentor.threads this))) < fuel)%nat ->
  exists this',
    BasicBlockInstrumentor.extractResults fuel info this out
    = Ok (this', out ++ Report.report info this, info).
Proof.
  intros Hrep HE HMI Hlen Hfit Hlabels Hfuel.
  apply extractResults_prints; assumption.
Qed.

Lemma extractResults_report_witness :
  exists this',
    BasicBlockInstrumentor.extractResults 5 Examples.counters
      Examples.profiler []
    = Ok (this', [] ++ Report.report Examples.counters Examples.profiler,
          Examples.counters).
Proof.
  apply (extractResults_report 5 Examples.counters Examples.profiler []).
  - unfold BasicBlockInstrumentor.representable. simpl. lia.
  - simpl. lia.
  - simpl. lia.
  - reflexivity.
  - simpl. lia.
  - simpl. lia.
  - simpl. lia.
Defined.

(** ** initialize of the instrumentor *)

Section InitializeFacts.

Import BasicBlockInstrumentor.

(** Without overflow the byte count of [initialize] is eight times the
    number of counters. *)
Lemma counterBytes_exact E B K T :
  0 <= E -> 0 <= B -> 0 <= K -> 0 <= T ->
  8 * totalElements E B K T < 2 ^ 64 ->
  counterBytes E B K T = 8 * totalElements E B K T.
Proof.
  intros HE HB HK HT Hfit. unfold counterBytes, totalElements in *.
  rewrite (u64_mul_l (E * B) K), (u64_mul_l (E * B * K) T),
    (u64_mul_l (E * B * K * T) 8).
  rewrite u64_small; [lia|].
  assert (0 <= E * B) by (apply Z.mul_nonneg_nonneg; lia).
  assert (0 <= E * B * K) by (apply Z.mul_nonneg_nonneg; lia).
  assert (0 <= E * B * K * T) by (apply Z.mul_nonneg_nonneg; lia).
  lia.
Qed.

Lemma counterBytes_range E B K T : 0 <= counterBytes E B K T < 2 ^ 64.
Proof. unfold counterBytes. apply u64_range. Qed.

End InitializeFacts.

(** [initialize] when the runtime calls succeed. *)
Lemma initialize_succeeds (runtime : cuda.Runtime) (symbol : string)
    (this : BasicBlockInstrumentor.t) (devPtr : Z) :
  let bytes :=
    8 * BasicBlockInstrumentor.totalElements
          (BasicBlockInstrumentor.entries this)
          (BasicBlockInstrumentor.basicBlocks this)
          (BasicBlockInstrumentor.threadBlocks this)
          (BasicBlockInstrumentor.threads this) in
  BasicBlockInstrumentor.representable this ->
  bytes < 2 ^ 64 ->
  cuda.malloc runtime bytes = Some devPtr ->
  cuda.memset runtime devPtr 0 bytes = true ->
  cuda.memcpyToSymbol runtime symbol devPtr 8 0 = true ->
  Initialize.initialize runtime symbol this
  = ([cuda.cudaMalloc bytes; cuda.cudaMemset devPtr 0 bytes;
      cuda.cudaMemcpyToSymbol symbol devPtr 8 0],
     Ok (Initialize.set_counter devPtr this)).
Proof.
  intros bytes (HK & HT & HB & HE) Hfit Hmalloc Hmemset Hcopy.
  unfold Initialize.initialize. cbn [Initialize.set_counter
    BasicBlockInstrumentor.entries BasicBlockInstrumentor.basicBlocks
    BasicBlockInstrumentor.threadBlocks BasicBlockInstrumentor.threads
    BasicBlockInstrumentor.counter].
  rewrite counterBytes_exact by (subst bytes; lia).
  fold bytes. rewrite Hmalloc, Hmemset.
  unfold Initialize.sizeof_size_t. rewrite Hcopy. reflexivity.
Qed.

(** X12. When eight times the number of counters fits [size_t] and the
    three runtime calls succeed, [initialize] requests and clears exactly
    eight bytes per counter, copies the eight bytes of the device pointer
    to the symbol of the pass and leaves that pointer in [counter],
    changing no other member; every counter that the subscript of
    [extractResults] addresses in the index space lies inside the
    allocation. *)
Theorem initialize_allocates_counters (runtime : cuda.Runtime)
    (symbol : string) (this : BasicBlockInstrumentor.t) (devPtr : Z) :
  let E := BasicBlockInstrumentor.entries this in
  let B := BasicBlockInstrumentor.basicBlocks this in
  let K := BasicBlockInstrumentor.threadBlocks this in
  let T := BasicBlockInstrumentor.threads this in
  let bytes := 8 * BasicBlockInstrumentor.totalElements E B K T in
  BasicBlockInstrumentor.representable this ->
  bytes < 2 ^ 64 ->
  cuda.malloc runtime bytes = Some devPtr ->
  cuda.memset runtime devPtr 0 bytes = true ->
  cuda.memcpyToSymbol runtime symbol devPtr 8 0 = true ->
  Initialize.initialize runtime symbol this
  = ([cuda.cudaMalloc bytes; cuda.cudaMemset devPtr 0 bytes;
      cuda.cudaMemcpyToSymbol symbol devPtr 8 0],
     Ok (Initialize.set_counter devPtr this))
  /\ forall b e t k,
       BasicBlockInstrumentor.inIndexSpace E B K T b e t k ->
       0 <= 8 * BasicBlockInstrumentor.counterIndex E B T b e t k
       /\ 8 * BasicBlockInstrumentor.counterIndex E B T b e t k + 8 <= bytes.
Proof.
  intros E B K T bytes Hrep Hfit Hmalloc Hmemset Hcopy.
  split.
  - apply initialize_succeeds; assumption.
  - intros b e t k Hin.
    assert (0 <= BasicBlockInstrumentor.counterIndex E B T b e t k
            <= BasicBlockInstrumentor.totalElements E B K T - 1) as Hb.
    { destruct Hin as (? & ? & ? & ?).
      apply counterIndex_bounds; solve [lia | repeat split; lia]. }
    subst bytes. lia.
Qed.

Lemma initialize_allocates_counters_witness :
  Initialize.initialize Inputs.runtime "counterBase" Examples.profiler
  = ([cuda.cudaMalloc 384; cuda.cudaMemset 4096 0 384;
      cuda.cudaMemcpyToSymbol "counterBase" 4096 8 0],
     Ok (Initialize.set_counter 4096 Examples.profiler))
  /\ forall b e t k,
       BasicBlockInstrumentor.inIndexSpace 2 3 2 4 b e t k ->
       0 <= 8 * BasicBlockInstrumentor.counterIndex 2 3 4 b e t k
       /\ 8 * BasicBlockInstrumentor.counterIndex 2 3 4 b e t k + 8 <= 384.
Proof.
  apply (initialize_allocates_counters Inputs.runtime "counterBase"
           Examples.profiler 4096).
  - unfold BasicBlockInstrumentor.representable. simpl. lia.
  - vm_compute. reflexivity.
  - reflexivity.
  - reflexivity.
  - reflexivity.
Defined.

(** X13. Whatever the runtime answers, [initialize] calls it in the
    order allocate, clear, bind and stops at the first call that fails:
    the memory it clears is the memory just allocated, with the byte
    count of the allocation; the symbol is bound only to cleared memory;
    and it returns exactly when the binding is made and succeeds, with
    the allocated pointer in [counter]. Each failure is an exception, and
    the byte count is the [size_t] product, which is below [2^64] however
    many counters there are. *)
Theorem initialize_stages (runtime : cuda.Runtime) (symbol : string)
    (this : BasicBlockInstrumentor.t) :
  let bytes :=
    BasicBlockInstrumentor.counterBytes (BasicBlockInstrumentor.entries this)
      (BasicBlockInstrumentor.basicBlocks this)
      (BasicBlockInstrumentor.threadBlocks this)
      (BasicBlockInstrumentor.threads this) in
  let calls := (Initialize.initialize runtime symbol this).1 in
  let result := (Initialize.initialize runtime symbol this).2 in
  0 <= bytes < 2 ^ 64
  /\ head calls = Some (cuda.cudaMalloc bytes)
  /\ (forall devPtr value count,
        cuda.cudaMemset devPtr value count ∈ calls ->
        cuda.malloc runtime bytes = Some devPtr /\ value = 0 /\ count = bytes)
  /\ (forall name src count offset,
        cuda.cudaMemcpyToSymbol name src count offset ∈ calls ->
        cuda.malloc runtime bytes = Some src
        /\ cuda.memset runtime src 0 bytes = true
        /\ name = symbol /\ count = 8 /\ offset = 0)
  /\ ((exists this', result = Ok this')
      <-> exists devPtr,
            cuda.malloc runtime bytes = Some devPtr
            /\ cuda.memset runtime devPtr 0 bytes = true
            /\ cuda.memcpyToSymbol runtime symbol devPtr 8 0 = true
            /\ result = Ok (Initialize.set_counter devPtr this))
  /\ (forall f, result = Fault f -> exists what, f = Exception what).
Proof.
  intros bytes calls result. subst calls result.
  split; [apply counterBytes_range|].
  unfold Initialize.initialize.
  cbn [Initialize.set_counter BasicBlockInstrumentor.entries
       BasicBlockInstrumentor.basicBlocks BasicBlockInstrumentor.threadBlocks
       BasicBlockInstrumentor.threads BasicBlockInstrumentor.counter].
  fold bytes. unfold Initialize.sizeof_size_t.
  destruct (cuda.malloc runtime bytes) as [p|] eqn:Hm.
  - destruct (cuda.memset runtime p 0 bytes) eqn:Hs.
    + destruct (cuda.memcpyToSymbol runtime symbol p 8 0) eqn:Hc;
        cbn [fst snd head].
      * split; [reflexivity|]. split.
        { intros d v c Hin. rewrite !elem_of_cons in Hin.
          destruct Hin as [Hin|[Hin|[Hin|Hin]]];
            try discriminate; [|apply elem_of_nil in Hin; contradiction].
          injection Hin as -> -> ->. auto. }
        split.
        { intros n s c o Hin. rewrite !elem_of_cons in Hin.
          destruct Hin as [Hin|[Hin|[Hin|Hin]]];
            try discriminate; [|apply elem_of_nil in Hin; contradiction].
          injection Hin as -> -> -> ->. auto. }
        split.
        { split; [intros _; exists p; auto|intros _; eauto]. }
        intros f Hf. discriminate.
      * split; [reflexivity|]. split.
        { intros d v c Hin. rewrite !elem_of_cons in Hin.
          destruct Hin as [Hin|[Hin|[Hin|Hin]]];
            try discriminate; [|apply elem_of_nil in Hin; contradiction].
          injection Hin as -> -> ->. auto. }
        split.
        { intros n s c o Hin. rewrite !elem_of_cons in Hin.
          destruct Hin as [Hin|[Hin|[Hin|Hin]]];
            try discriminate; [|apply elem_of_nil in Hin; contradiction].
          injection Hin as -> -> -> ->. auto. }
        split.
        { split; [intros [? ?]; discriminate|].
          intros (d & Hd & _ & Hc' & _). injection Hd as <-.
          rewrite Hc in Hc'. discriminate. }
        intros f Hf. injection Hf as <-. eauto.
    + cbn [fst snd head]. split; [reflexivity|]. split.
      { intros d v c Hin. rewrite !elem_of_cons in Hin.
        destruct Hin as [Hin|[Hin|Hin]];
          try discriminate; [|apply elem_of_nil in Hin; contradiction].
        injection Hin as -> -> ->. auto. }
      split.
      { intros n s c o Hin. rewrite !elem_of_cons in Hin.
        destruct Hin as [Hin|[Hin|Hin]];
          try discriminate. apply elem_of_nil in Hin. contradiction. }
      split.
      { split; [intros [? ?]; discriminate|].
        intros (d & Hd & Hs' & _). injection Hd as <-.
        rewrite Hs in Hs'. discriminate. }
      intros f Hf. injection Hf as <-. eauto.
  - cbn [fst snd head]. split; [reflexivity|]. split.
    { intros d v c Hin. rewrite !elem_of_cons in Hin.
      destruct Hin as [Hin|Hin]; try discriminate.
      apply elem_of_nil in Hin. contradiction. }
    split.
    { intros n s c o Hin. rewrite !elem_of_cons in Hin.
      destruct Hin as [Hin|Hin]; try discriminate.
      apply elem_of_nil in Hin. contradiction. }
    split.
    { split; [intros [? ?]; discriminate|].
      intros (d & Hd & _). discriminate. }
    intros f Hf. injection Hf as <-. eauto.
Qed.

(** ** The segment counters *)

Section SegmentFacts.

Import MemoryTraceGenerator.

#[local] Arguments coalesce : simpl never.
#[local] Arguments Header.address : simpl never.
#[local] Arguments Header.access : simpl never.
#[local] Arguments Segments.count_lane : simpl never.

Lemma coalesce_count halfwarpSize addr size s :
  Segments.state (coalesce halfwarpSize addr size s)
  = Segments.count_lane halfwarpSize (Segments.state s)
      (Locals.threadID s.2, (addr, size)).
Proof.
  destruct s as [g l]. unfold coalesce, Segments.count_lane, Segments.state.
  cbn [fst snd].
  destruct (_ <? _); [destruct g as [? ? ? [] ? ?]; reflexivity|].
  destruct (negb _); [destruct g as [? ? ? [] ? ?]; reflexivity|].
  reflexivity.
Qed.

Lemma address_segments space addr h :
  Header.global_segments (Header.address space addr h)
  = Header.global_segments h
  /\ Header.halfwarps (Header.address space addr h) = Header.halfwarps h.
Proof.
  destruct h. unfold Header.address, Header.extrema.
  destruct space; try (split; reflexivity); simpl;
    destruct (global_min_address =? 0), (addr <? global_min_address); simpl;
    destruct (global_max_address =? 0), (global_max_address <? addr);
    split; reflexivity.
Qed.

Lemma access_segments space bytes h :
  Header.global_segments (Header.access space bytes h)
  = Header.global_segments h
  /\ Header.halfwarps (Header.access space bytes h) = Header.halfwarps h.
Proof. destruct h, space; split; reflexivity. Qed.

Variables (fuel : nat) (e : TraceEvent.t).

Let active := TraceEvent.active e.

Let from (i : Z) : list Z := Runs.active_lanes i (drop (Z.to_nat i) active).

(** The values of [threadID] that are still to come when the loop is at
    [threadID]. *)
Let tracks (g : t) (threadID : Z) (ids : list Z) : Prop :=
  0 <= threadID
  /\ if headerOnly g
     then ids = seqZ threadID (Z.of_nat (length ids))
          /\ threadID + Z.of_nat (length ids) < 2 ^ 32
     else Z.of_nat (length active) <= Header.thread_count (_header g)
          /\ Z.of_nat (length active) < 2 ^ 32
          /\ (length active < fuel)%nat
          /\ exists rest, from threadID = ids ++ rest.

(** One pass of a lane loop, as far as the segment counters go. *)
Let steps (halfwarpSize : Z)
    (body : Z -> Z -> t * Locals.t -> outcome (t * Locals.t)) : Prop :=
  forall addr size g l x xs,
    tracks g (Locals.threadID l) (x :: xs) ->
    exists g' l',
      body addr size (g, l) = Ok (g', l')
      /\ headerOnly g' = headerOnly g
      /\ Header.thread_count (_header g') = Header.thread_count (_header g)
      /\ _file g' = _file g
      /\ Locals.threadID l' = x
      /\ tracks g (u32 (x + 1)) xs
      /\ Segments.state (g', l')
         = Segments.count_lane halfwarpSize (Segments.state (g, l))
             (x, (addr, size)).

Lemma record_lane_tracks copies addr size g l x xs :
  tracks g (Locals.threadID l) (x :: xs) ->
  exists g',
    record_lane fuel e copies addr size (g, l)
    = Ok (g', Locals.mk (Locals.bytes l) x (Locals.starting_address l))
    /\ headerOnly g' = headerOnly g /\ _header g' = _header g
    /\ _file g' = _file g
    /\ tracks g (u32 (x + 1)) xs.
Proof.
  intros (Ht & Hids). unfold record_lane, tracks.
  destruct (headerOnly g) eqn:Hh.
  - destruct Hids as (Hids & Hlt). simpl length in Hids, Hlt.
    rewrite seqZ_cons in Hids by lia. injection Hids as Hx Hxs.
    subst x. exists g. destruct l. simpl in *.
    rewrite u32_small by lia.
    repeat split; auto; try lia.
    rewrite Hxs at 1. f_equal; lia.
  - destruct Hids as (Htc & Hl & Hf & rest & Hfrom).
    unfold from, active in *.
    destruct (skip_inactive_first fuel e Hf Hl
                (Header.thread_count (_header g)) fuel (Locals.threadID l)
                x (xs ++ rest)) as (Hs & Hx & Hxs);
      [lia|lia|lia|exact Hfrom|].
    rewrite Hs. cbn [mbind outcome_bind].
    eexists. split; [reflexivity|]. simpl.
    rewrite u32_small by lia.
    repeat split; auto; try lia. exists rest. exact Hxs.
Qed.

Lemma ldst_lane_steps halfwarpSize :
  steps halfwarpSize (ldst_lane fuel e halfwarpSize).
Proof.
  intros addr size g l x xs Htr. unfold ldst_lane.
  destruct (record_lane_tracks 1 addr size g l x xs Htr)
    as (g1 & -> & Hh & Hhd & Hf & Htr').
  cbn [mbind outcome_bind].
  match goal with |- context [coalesce ?a ?b ?c (?g0, ?l0)] =>
    pose proof (coalesce_count a b c (g0, l0)) as Hc;
    destruct (coalesce_keeps a b c g0 l0)
      as (g' & l' & Heq & Fh & Ff & Fe & Fs & Ft) end.
  rewrite Heq in Hc |- *. exists g', l'. split; [reflexivity|].
  simpl in Fh, Ff, Ft.
  pose proof (eq_trans Fs (address_thread_count _ addr (_header g1))) as Fs'.
  rewrite Fh, Hh, Ff, Hf, Ft, Fs', Hhd.
  do 4 (split; [reflexivity|]). split; [exact Htr'|].
  rewrite Hc. unfold Segments.state. cbn [fst snd _header set_header
    Locals.starting_address Locals.threadID].
  destruct (address_segments
              (Instruction.addressSpace (TraceEvent.instruction e)) addr
              (_header g1)) as (-> & ->).
  rewrite Hhd. reflexivity.
Qed.

Lemma tex_lane_steps halfwarpSize :
  steps halfwarpSize (tex_lane fuel e halfwarpSize).
Proof.
  intros addr size g l x xs Htr. unfold tex_lane.
  destruct (record_lane_tracks 4 addr size g l x xs Htr)
    as (g1 & -> & Hh & Hhd & Hf & Htr').
  cbn [mbind outcome_bind].
  match goal with |- context [coalesce ?a ?b ?c (?g0, ?l0)] =>
    pose proof (coalesce_count a b c (g0, l0)) as Hc;
    destruct (coalesce_keeps a b c g0 l0)
      as (g' & l' & Heq & Fh & Ff & Fe & Fs & Ft) end.
  rewrite Heq in Hc |- *. exists g', l'. split; [reflexivity|].
  simpl in Fh, Ff, Ft.
  pose proof (eq_trans Fs (address_thread_count _ addr (_header g1))) as Fs'.
  rewrite Fh, Hh, Ff, Hf, Ft, Fs', Hhd.
  do 4 (split; [reflexivity|]). split; [exact Htr'|].
  rewrite Hc. unfold Segments.state. cbn [fst snd _header set_header
    Locals.starting_address Locals.threadID].
  destruct (address_segments Texture addr (_header g1)) as (-> & ->).
  rewrite Hhd. reflexivity.
Qed.

Lemma tracks_ext g g' threadID ids :
  headerOnly g' = headerOnly g ->
  Header.thread_count (_header g') = Header.thread_count (_header g) ->
  tracks g threadID ids -> tracks g' threadID ids.
Proof. unfold tracks. intros -> ->. auto. Qed.

Lemma lanes_counts halfwarpSize body :
  steps halfwarpSize body ->
  forall addresses sizes ids g l,
    (length addresses <= length sizes)%nat ->
    length ids = length addresses ->
    tracks g (Locals.threadID l) ids ->
    exists g' l',
      lanes body addresses sizes (g, l) = Ok (g', l')
      /\ headerOnly g' = headerOnly g
      /\ Header.thread_count (_header g') = Header.thread_count (_header g)
      /\ _file g' = _file g
      /\ Segments.state (g', l')
         = foldl (Segments.count_lane halfwarpSize) (Segments.state (g, l))
             (zip ids (zip addresses sizes)).
Proof.
  intros Hbody addresses.
  induction addresses as [|a addresses IH]; intros sizes ids g l Hs Hi Htr.
  - destruct ids; [|discriminate]. simpl. eauto 10.
  - destruct sizes as [|sz sizes]; simpl in Hs; [lia|].
    destruct ids as [|x xs]; [discriminate|]. simpl in Hi.
    destruct (Hbody a sz g l x xs Htr)
      as (g1 & l1 & Hb & Hh1 & Htc1 & Hf1 & Hx & Htr1 & Hst).
    simpl lanes. rewrite Hb. cbn [mbind outcome_bind]. rewrite Hx.
    destruct (IH sizes xs g1
                (Locals.mk (Locals.bytes l1) (u32 (x + 1))
                   (Locals.starting_address l1)))
      as (g' & l' & Hl & Hh' & Htc' & Hf' & Hst'); [lia|lia| |].
    + apply (tracks_ext g); assumption.
    + exists g', l'. split; [exact Hl|].
      split; [congruence|]. split; [congruence|]. split; [congruence|].
      rewrite Hst'. simpl zip. simpl foldl. rewrite <- Hst. reflexivity.
Qed.

Lemma count_dynamic_counted this :
  Segments.counted e (count_dynamic e this) = Segments.counted e this.
Proof. destruct this as [? ? ? [] ? ?]. reflexivity. Qed.

Lemma trace_accesses_counts space body this :
  (forall hw, steps hw (body hw)) ->
  Segments.traceable fuel e this ->
  exists this',
    trace_accesses e space body this = Ok this'
    /\ headerOnly this' = headerOnly this
    /\ Header.global_segments (_header this') = (Segments.counted e this).1.1
    /\ Header.halfwarps (_header this') = (Segments.counted e this).1.2.
Proof.
  intros Hbody (Hs & Hn & Hrec). unfold trace_accesses.
  set (this0 := if headerOnly this then this else set_event _ this).
  assert (H0 : headerOnly this0 = headerOnly this
               /\ _header this0 = _header this /\ _file this0 = _file this)
    by (subst this0; destruct (headerOnly this) eqn:E; auto).
  destruct H0 as (Hh0 & Hd0 & Hf0).
  destruct (lanes_counts (u32 (Header.thread_count (_header this0) / 2))
              (body _) (Hbody _) (TraceEvent.memory_addresses e)
              (TraceEvent.memory_sizes e) (Segments.lane_numbers e this)
              this0 (Locals.mk 0 0 (u64 (-1))))
    as (g' & l' & -> & Hh' & Htc' & Hf' & Hst); [exact Hs| | |].
  - unfold Segments.lane_numbers. destruct (headerOnly this).
    + rewrite length_seqZ. lia.
    + rewrite length_take. specialize (Hrec eq_refl). lia.
  - unfold tracks, Segments.lane_numbers. simpl Locals.threadID.
    rewrite Hh0, Hd0. split; [lia|]. destruct (headerOnly this).
    + rewrite length_seqZ. split; [f_equal; lia|lia].
    + destruct (Hrec eq_refl) as (_ & Ha & Htc & Hl & Hf).
      repeat split; auto. unfold from. simpl.
      exists (drop (length (TraceEvent.memory_addresses e))
                (Runs.active_lanes 0 active)).
      symmetry. apply take_drop.
  - cbn [mbind outcome_bind].
    assert (Hc : Segments.state (g', l') = Segments.counted e this).
    { rewrite Hst. unfold Segments.counted, Segments.halfwarpSize,
        Segments.state. cbn [fst snd Locals.starting_address].
      rewrite Hd0. reflexivity. }
    unfold Segments.state in Hc. cbn [fst snd] in Hc.
    set (this1 := set_header _ g').
    assert (H1 : headerOnly this1 = headerOnly this
                 /\ _file this1 = _file this
                 /\ Header.global_segments (_header this1)
                    = (Segments.counted e this).1.1
                 /\ Header.halfwarps (_header this1)
                    = (Segments.counted e this).1.2).
    { subst this1. cbn [headerOnly _file _header set_header].
      destruct (access_segments space (Locals.bytes l') (_header g'))
        as (-> & ->).
      rewrite <- Hc. cbn [fst snd]. rewrite Hh', Hf', Hh0, Hf0. auto. }
    clearbody this1. destruct H1 as (Hh1 & Hf1 & Hg1 & Hw1).
    rewrite Hh1. destruct (headerOnly this) eqn:Hh.
    + exists this1. auto.
    + destruct (Hrec eq_refl) as ([log Hlog] & _).
      unfold serialize. rewrite Hf1, Hlog. eexists. split; [reflexivity|].
      cbn [headerOnly _header set_file]. auto.
Qed.

Lemma traceable_count_dynamic this :
  Segments.traceable fuel e this ->
  Segments.traceable fuel e (count_dynamic e this).
Proof. destruct this as [? ? ? [] ? ?]. exact (fun H => H). Qed.

(** The segment counters after a load, store or texture fetch. *)
Lemma event_counts this :
  Segments.traceable fuel e this ->
  (forall n, Instruction.opcode (TraceEvent.instruction e) <> OtherOpcode n) ->
  exists this',
    event fuel e this = Ok this'
    /\ headerOnly this' = headerOnly this
    /\ Header.global_segments (_header this') = (Segments.counted e this).1.1
    /\ Header.halfwarps (_header this') = (Segments.counted e this).1.2.
Proof.
  intros Htr Hop. apply traceable_count_dynamic in Htr.
  rewrite <- count_dynamic_counted.
  change (headerOnly this) with (headerOnly (count_dynamic e this)).
  unfold event. destruct (Instruction.opcode (TraceEvent.instruction e)).
  - apply trace_accesses_counts; [apply ldst_lane_steps|exact Htr].
  - apply trace_accesses_counts; [apply ldst_lane_steps|exact Htr].
  - apply trace_accesses_counts; [apply tex_lane_steps|exact Htr].
  - destruct (Hop n). reflexivity.
Qed.

(** With fewer sizes than addresses the loop reads past the sizes. *)
Lemma lanes_sizes_short halfwarpSize body :
  steps halfwarpSize body ->
  forall addresses sizes ids g l,
    (length sizes < length addresses)%nat ->
    length ids = length sizes ->
    tracks g (Locals.threadID l) ids ->
    lanes body addresses sizes (g, l) = Fault Undefined.
Proof.
  intros Hbody addresses.
  induction addresses as [|a addresses IH]; intros sizes ids g l Hs Hi Htr.
  - simpl in Hs. lia.
  - destruct sizes as [|sz sizes]; [reflexivity|].
    destruct ids as [|x xs]; [discriminate|]. simpl in Hs, Hi.
    destruct (Hbody a sz g l x xs Htr)
      as (g1 & l1 & Hb & Hh1 & Htc1 & Hf1 & Hx & Htr1 & Hst).
    simpl lanes. rewrite Hb. cbn [mbind outcome_bind]. rewrite Hx.
    apply (IH sizes xs); [lia|lia|].
    apply (tracks_ext g); assumption.
Qed.

Lemma trace_accesses_sizes_short space body this :
  (forall hw, steps hw (body hw)) ->
  (length (TraceEvent.memory_sizes e)
   < length (TraceEvent.memory_addresses e))%nat ->
  Z.of_nat (length (TraceEvent.memory_sizes e)) < 2 ^ 32 ->
  (headerOnly this = false ->
   (length (TraceEvent.memory_sizes e)
    <= length (Runs.active_lanes 0 active))%nat
   /\ Z.of_nat (length active) <= Header.thread_count (_header this)
   /\ Z.of_nat (length active) < 2 ^ 32
   /\ (length active < fuel)%nat) ->
  trace_accesses e space body this = Fault Undefined.
Proof.
  intros Hbody Hs Hn Hrec. unfold trace_accesses.
  set (this0 := if headerOnly this then this else set_event _ this).
  assert (H0 : headerOnly this0 = headerOnly this
               /\ _header this0 = _header this)
    by (subst this0; destruct (headerOnly this) eqn:E; auto).
  destruct H0 as (Hh0 & Hd0).
  rewrite (lanes_sizes_short _ (body _) (Hbody _)
             (TraceEvent.memory_addresses e) (TraceEvent.memory_sizes e)
             (if headerOnly this
              then seqZ 0 (Z.of_nat (length (TraceEvent.memory_sizes e)))
              else take (length (TraceEvent.memory_sizes e))
                     (Runs.active_lanes 0 active))
             this0 (Locals.mk 0 0 (u64 (-1)))); [reflexivity|exact Hs| |].
  - destruct (headerOnly this).
    + rewrite length_seqZ. lia.
    + rewrite length_take. specialize (Hrec eq_refl). lia.
  - unfold tracks. simpl Locals.threadID. rewrite Hh0, Hd0.
    split; [lia|]. destruct (headerOnly this).
    + rewrite length_seqZ. split; [f_equal; lia|lia].
    + destruct (Hrec eq_refl) as (Ha & Htc & Hl & Hf).
      repeat split; auto. unfold from. simpl.
      exists (drop (length (TraceEvent.memory_sizes e))
                (Runs.active_lanes 0 active)).
      symmetry. apply take_drop.
Qed.

Lemma event_sizes_short this :
  (length (TraceEvent.memory_sizes e)
   < length (TraceEvent.memory_addresses e))%nat ->
  Z.of_nat (length (TraceEvent.memory_sizes e)) < 2 ^ 32 ->
  (headerOnly this = false ->
   (length (TraceEvent.memory_sizes e)
    <= length (Runs.active_lanes 0 active))%nat
   /\ Z.of_nat (length active) <= Header.thread_count (_header this)
   /\ Z.of_nat (length active) < 2 ^ 32
   /\ (length active < fuel)%nat) ->
  (forall n, Instruction.opcode (TraceEvent.instruction e) <> OtherOpcode n) ->
  event fuel e this = Fault Undefined.
Proof.
  intros Hs Hn Hrec Hop.
  assert (Hrec' : headerOnly (count_dynamic e this) = false ->
            (length (TraceEvent.memory_sizes e)
             <= length (Runs.active_lanes 0 active))%nat
            /\ Z.of_nat (length active)
               <= Header.thread_count (_header (count_dynamic e this))
            /\ Z.of_nat (length active) < 2 ^ 32
            /\ (length active < fuel)%nat)
    by (destruct this as [? ? ? [] ? ?]; exact Hrec).
  unfold event. destruct (Instruction.opcode (TraceEvent.instruction e)).
  - apply trace_accesses_sizes_short; auto using ldst_lane_steps.
  - apply trace_accesses_sizes_short; auto using ldst_lane_steps.
  - apply trace_accesses_sizes_short; auto using tex_lane_steps.
  - destruct (Hop n). reflexivity.
Qed.

End SegmentFacts.

(** ** What the lanes of an event count *)

Section CountFacts.

#[local] Arguments Segments.count_lane : simpl never.

Variable hw : Z.

Lemma count_lane_upper segments halfwarps start tid addr size :
  hw < tid ->
  Segments.count_lane hw (segments, halfwarps, start) (tid, (addr, size))
  = (u64 (segments + 1), u64 (halfwarps + 1), u64 (addr + size)).
Proof.
  intros H. unfold Segments.count_lane.
  destruct (Z.ltb_spec hw tid); [reflexivity|lia].
Qed.

Lemma count_lane_break segments halfwarps start tid addr size :
  tid <= hw -> start <> addr ->
  Segments.count_lane hw (segments, halfwarps, start) (tid, (addr, size))
  = (u64 (segments + 1), halfwarps, u64 (addr + size)).
Proof.
  intros H Hne. unfold Segments.count_lane.
  destruct (Z.ltb_spec hw tid); [lia|].
  destruct (Z.eqb_spec start addr); [contradiction|reflexivity].
Qed.

Lemma count_lane_match segments halfwarps start tid size :
  tid <= hw ->
  Segments.count_lane hw (segments, halfwarps, start) (tid, (start, size))
  = (segments, halfwarps, start).
Proof.
  intros H. unfold Segments.count_lane.
  destruct (Z.ltb_spec hw tid); [lia|].
  rewrite Z.eqb_refl. reflexivity.
Qed.

Lemma upper_cons x l :
  Segments.upper hw (x :: l)
  = (if hw <? x then 1 else 0) + Segments.upper hw l.
Proof.
  unfold Segments.upper. rewrite filter_cons.
  destruct (decide (hw < x)), (Z.ltb_spec hw x); try lia; simpl length; lia.
Qed.

Lemma upper_nonneg l : 0 <= Segments.upper hw l.
Proof. unfold Segments.upper. lia. Qed.

Lemma upper_seqZ n : forall m,
  Segments.upper hw (seqZ m (Z.of_nat n))
  = Z.max 0 (m + Z.of_nat n - Z.max m (hw + 1)).
Proof.
  induction n as [|n IH]; intros m.
  - simpl. unfold Segments.upper. simpl. lia.
  - rewrite seqZ_cons by lia. rewrite upper_cons.
    replace (Z.pred (Z.of_nat (S n))) with (Z.of_nat n) by lia.
    rewrite IH. destruct (Z.ltb_spec hw m); lia.
Qed.

(** The half-warp counter counts the lanes above the half-warp size. *)
Lemma count_halfwarps : forall l c,
  0 <= c.1.2 < 2 ^ 64 ->
  (foldl (Segments.count_lane hw) c l).1.2
  = u64 (c.1.2 + Segments.upper hw (l.*1)).
Proof.
  induction l as [|[tid [addr size]] l IH]; intros [[segments halfwarps] start]
    Hc; cbn [fst snd] in *.
  - simpl. unfold Segments.upper. simpl. rewrite Z.add_0_r.
    symmetry. apply u64_small. exact Hc.
  - simpl foldl. cbn [fmap list_fmap fst]. rewrite upper_cons.
    destruct (Z.ltb_spec hw tid); [|destruct (Z.eq_dec start addr) as [->|]].
    + rewrite count_lane_upper by assumption.
      rewrite IH by (cbn [fst snd]; apply u64_range). cbn [fst snd].
      rewrite u64_add_l. f_equal. lia.
    + rewrite count_lane_match by assumption.
      rewrite IH by exact Hc. cbn [fst snd]. f_equal; lia.
    + rewrite count_lane_break by assumption.
      rewrite IH by exact Hc. cbn [fst snd]. f_equal; lia.
Qed.

(** Each lane counts at most one segment, and a half warp only together
    with a segment. *)
Lemma count_bounds : forall l c,
  0 <= c.1.1 -> 0 <= c.1.2 ->
  c.1.1 + Z.of_nat (length l) < 2 ^ 64 ->
  c.1.2 + Z.of_nat (length l) < 2 ^ 64 ->
  let c' := foldl (Segments.count_lane hw) c l in
  0 <= c'.1.2 - c.1.2
  /\ c'.1.2 - c.1.2 <= c'.1.1 - c.1.1
  /\ c'.1.1 - c.1.1 <= Z.of_nat (length l).
Proof.
  induction l as [|[tid [addr size]] l IH]; intros [[segments halfwarps] start]
    Hs Hh Hsn Hhn; cbn [fst snd] in *.
  - simpl. lia.
  - simpl foldl. simpl length in *.
    destruct (Z.ltb_spec hw tid); [|destruct (Z.eq_dec start addr) as [->|]].
    + rewrite count_lane_upper by assumption.
      rewrite !u64_small by lia.
      specialize (IH (segments + 1, halfwarps + 1, u64 (addr + size))).
      cbn [fst snd] in IH. lia.
    + rewrite count_lane_match by assumption.
      specialize (IH (segments, halfwarps, addr)).
      cbn [fst snd] in IH. lia.
    + rewrite count_lane_break by assumption.
      rewrite !u64_small by lia.
      specialize (IH (segments + 1, halfwarps, u64 (addr + size))).
      cbn [fst snd] in IH. lia.
Qed.

(** A first lane whose address is not [starting_address] counts a
    segment. *)
Lemma count_first tid addr size l c :
  0 <= c.1.1 -> 0 <= c.1.2 ->
  c.1.1 + Z.of_nat (S (length l)) < 2 ^ 64 ->
  c.1.2 + Z.of_nat (S (length l)) < 2 ^ 64 ->
  c.2 <> addr ->
  1 <= (foldl (Segments.count_lane hw) c ((tid, (addr, size)) :: l)).1.1
       - c.1.1.
Proof.
  destruct c as [[segments halfwarps] start]. cbn [fst snd].
  intros Hs Hh Hsn Hhn Hne. simpl foldl. simpl length in *.
  destruct (Z.ltb_spec hw tid).
  - rewrite count_lane_upper by assumption.
    rewrite !u64_small by lia.
    pose proof (count_bounds l (segments + 1, halfwarps + 1, u64 (addr + size)))
      as Hb. cbn [fst snd] in Hb. lia.
  - rewrite count_lane_break by assumption.
    rewrite !u64_small by lia.
    pose proof (count_bounds l (segments + 1, halfwarps, u64 (addr + size)))
      as Hb. cbn [fst snd] in Hb. lia.
Qed.

Lemma sumZ_positive sizes :
  Forall (fun size => 0 < size) sizes -> 0 <= sumZ id sizes.
Proof.
  induction 1 as [|size sizes Hsize _ IH]; [reflexivity|].
  change (sumZ id (size :: sizes)) with (size + sumZ id sizes). lia.
Qed.

(** Lanes of the lower half warp at addresses without a gap: every
    second lane counts a segment. *)
Lemma count_contiguous : forall sizes ids a c,
  length ids = length sizes ->
  Forall (fun x => x <= hw) ids ->
  Forall (fun size => 0 < size) sizes ->
  0 <= a -> a + sumZ id sizes < 2 ^ 64 ->
  0 <= c.1.1 < 2 ^ 64 ->
  let c' := foldl (Segments.count_lane hw) c
              (zip ids (zip (Segments.contiguous a sizes) sizes)) in
  c'.1.2 = c.1.2
  /\ c'.1.1
     = u64 (c.1.1
            + (if c.2 =? a then Z.of_nat (length sizes) / 2
               else (Z.of_nat (length sizes) + 1) / 2)).
Proof.
  induction sizes as [|size sizes IH];
    intros ids a [[segments halfwarps] start] Hl Hids Hpos Ha Hfit Hc;
    cbn [fst snd] in *.
  - destruct ids; [|discriminate]. simpl. split; [reflexivity|].
    destruct (start =? a); simpl; rewrite Z.add_0_r; symmetry;
      apply u64_small; exact Hc.
  - destruct ids as [|tid ids]; [discriminate|]. simpl in Hl.
    apply Forall_cons in Hids as [Htid Hids].
    apply Forall_cons in Hpos as [Hsize Hpos].
    change (sumZ id (size :: sizes)) with (size + sumZ id sizes) in Hfit.
    pose proof (sumZ_positive sizes Hpos) as Hsum.
    simpl Segments.contiguous. simpl zip. simpl foldl.
    replace (Z.of_nat (length (size :: sizes)))
      with (Z.of_nat (length sizes) + 1) by (simpl length; lia).
    destruct (Z.eqb_spec start a) as [->|Hne].
    + rewrite count_lane_match by assumption.
      specialize (IH ids (a + size) (segments, halfwarps, a)).
      cbn [fst snd] in IH.
      destruct IH as (IHh & IHs); auto; try lia.
      split; [exact IHh|]. rewrite IHs.
      destruct (Z.eqb_spec a (a + size)); [lia|]. reflexivity.
    + rewrite count_lane_break by assumption.
      specialize (IH ids (a + size)
                    (u64 (segments + 1), halfwarps, u64 (a + size))).
      cbn [fst snd] in IH.
      destruct IH as (IHh & IHs); auto; try lia; [apply u64_range|].
      split; [exact IHh|]. rewrite IHs.
      rewrite (u64_small (a + size)) by lia. rewrite Z.eqb_refl.
      rewrite u64_add_l. f_equal.
      rewrite <- Z.add_assoc. f_equal.
      replace (Z.of_nat (length sizes) + 1 + 1)
        with (Z.of_nat (length sizes) + 1 * 2) by lia.
      rewrite Z.div_add by lia. lia.
Qed.

End CountFacts.

(** ** The segment counters after an event *)

Section SegmentTheorems.

Import MemoryTraceGenerator.

Lemma lane_numbers_length fuel e this :
  Segments.traceable fuel e this ->
  length (Segments.lane_numbers e this)
  = length (TraceEvent.memory_addresses e).
Proof.
  intros (_ & _ & Hrec). unfold Segments.lane_numbers.
  destruct (headerOnly this).
  - rewrite length_seqZ. lia.
  - rewrite length_take. specialize (Hrec eq_refl). lia.
Qed.

Lemma counted_lanes fuel e this :
  Segments.traceable fuel e this ->
  (zip (Segments.lane_numbers e this)
     (zip (TraceEvent.memory_addresses e) (TraceEvent.memory_sizes e))).*1
  = Segments.lane_numbers e this.
Proof.
  intros Htr. apply fst_zip. rewrite length_zip_with.
  rewrite (lane_numbers_length fuel e this Htr). destruct Htr as (Hs & _).
  lia.
Qed.

Lemma counted_length fuel e this :
  Segments.traceable fuel e this ->
  length (zip (Segments.lane_numbers e this)
            (zip (TraceEvent.memory_addresses e) (TraceEvent.memory_sizes e)))
  = length (TraceEvent.memory_addresses e).
Proof.
  intros Htr. rewrite !length_zip_with.
  rewrite (lane_numbers_length fuel e this Htr). destruct Htr as (Hs & _).
  lia.
Qed.

Lemma halfwarpSize_nonneg this : 0 <= Segments.halfwarpSize this.
Proof. unfold Segments.halfwarpSize. apply u32_range. Qed.

End SegmentTheorems.

(** X14. A load, store or texture fetch that the loops can pass returns
    and advances [halfwarps], as a 64-bit counter, by the number of
    values of [threadID] above half of [thread_count]: of the numbers of
    the active lanes that have an address while accesses are recorded,
    of the positions of the addresses in header-only mode. *)
Theorem event_counts_halfwarps (fuel : nat) (e : TraceEvent.t)
    (this : MemoryTraceGenerator.t) :
  Segments.traceable fuel e this ->
  (forall n, Instruction.opcode (TraceEvent.instruction e) <> OtherOpcode n) ->
  0 <= Header.halfwarps (MemoryTraceGenerator._header this) < 2 ^ 64 ->
  exists this',
    MemoryTraceGenerator.event fuel e this = Ok this'
    /\ Header.halfwarps (MemoryTraceGenerator._header this')
       = u64 (Header.halfwarps (MemoryTraceGenerator._header this)
              + Segments.upper (Segments.halfwarpSize this)
                  (Segments.lane_numbers e this)).
Proof.
  intros Htr Hop Hh.
  destruct (event_counts fuel e this Htr Hop) as (this' & He & _ & _ & Hw).
  exists this'. split; [exact He|]. rewrite Hw. unfold Segments.counted.
  rewrite count_halfwarps by exact Hh. cbn [fst snd].
  rewrite (counted_lanes fuel e this Htr). reflexivity.
Qed.

Lemma event_counts_halfwarps_witness :
  exists this',
    MemoryTraceGenerator.event 9 (Examples.load Examples.lanes_6_and_7 [0; 4])
      (Examples.generator false 8) = Ok this'
    /\ Header.halfwarps (MemoryTraceGenerator._header this')
       = u64 (Header.halfwarps
                (MemoryTraceGenerator._header (Examples.generator false 8))
              + Segments.upper
                  (Segments.halfwarpSize (Examples.generator false 8))
                  (Segments.lane_numbers
                     (Examples.load Examples.lanes_6_and_7 [0; 4])
                     (Examples.generator false 8))).
Proof.
  apply (event_counts_halfwarps 9
           (Examples.load Examples.lanes_6_and_7 [0; 4])
           (Examples.generator false 8)).
  - unfold Segments.traceable. simpl.
    split; [lia|]. split; [lia|]. intros _.
    split; [eexists; reflexivity|]. repeat split; lia.
  - intros n. discriminate.
  - simpl. lia.
Defined.

(** X15. In header-only mode a load, store or texture fetch with [n]
    addresses, a size for each, advances [halfwarps] by
    [max 0 (n - 1 - halfwarpSize)], as a 64-bit counter: the count
    depends on the number of addresses only, the active mask plays no
    part in it. *)
Theorem header_only_halfwarps (fuel : nat) (e : TraceEvent.t)
    (this : MemoryTraceGenerator.t) :
  MemoryTraceGenerator.headerOnly this = true ->
  (length (TraceEvent.memory_addresses e)
   <= length (TraceEvent.memory_sizes e))%nat ->
  Z.of_nat (length (TraceEvent.memory_addresses e)) < 2 ^ 32 ->
  (forall n, Instruction.opcode (TraceEvent.instruction e) <> OtherOpcode n) ->
  0 <= Header.halfwarps (MemoryTraceGenerator._header this) < 2 ^ 64 ->
  exists this',
    MemoryTraceGenerator.event fuel e this = Ok this'
    /\ Header.halfwarps (MemoryTraceGenerator._header this')
       = u64 (Header.halfwarps (MemoryTraceGenerator._header this)
              + Z.max 0 (Z.of_nat (length (TraceEvent.memory_addresses e)) - 1
                         - Segments.halfwarpSize this)).
Proof.
  intros Hmode Hs Hn Hop Hh.
  assert (Htr : Segments.traceable fuel e this).
  { split; [exact Hs|]. split; [exact Hn|]. rewrite Hmode. discriminate. }
  destruct (event_counts fuel e this Htr Hop) as (this' & He & _ & _ & Hw).
  exists this'. split; [exact He|]. rewrite Hw. unfold Segments.counted.
  rewrite count_halfwarps by exact Hh. cbn [fst snd].
  rewrite (counted_lanes fuel e this Htr). unfold Segments.lane_numbers.
  rewrite Hmode, upper_seqZ. pose proof (halfwarpSize_nonneg this).
  f_equal. lia.
Qed.

Lemma header_only_halfwarps_witness :
  exists this',
    MemoryTraceGenerator.event 0
      (Examples.load Examples.lanes_0_to_3 [0; 4; 8; 12])
      (Examples.generator true 2) = Ok this'
    /\ Header.halfwarps (MemoryTraceGenerator._header this')
       = u64 (Header.halfwarps
                (MemoryTraceGenerator._header (Examples.generator true 2))
              + Z.max 0
                  (Z.of_nat
                     (length (TraceEvent.memory_addresses
                                (Examples.load Examples.lanes_0_to_3
                                   [0; 4; 8; 12])))
                   - 1
                   - Segments.halfwarpSize (Examples.generator true 2))).
Proof.
  apply (header_only_halfwarps 0
           (Examples.load Examples.lanes_0_to_3 [0; 4; 8; 12])
           (Examples.generator true 2)).
  - reflexivity.
  - simpl. lia.
  - simpl. lia.
  - intros n. discriminate.
  - simpl. lia.
Defined.

(** In the example four addresses meet a half-warp size of one: the
    positions 2 and 3 are counted, whatever the mask. *)
Example header_only_halfwarps_counts :
  Z.max 0
    (Z.of_nat
       (length (TraceEvent.memory_addresses
                  (Examples.load Examples.lanes_0_to_3 [0; 4; 8; 12])))
     - 1 - Segments.halfwarpSize (Examples.generator true 2)) = 2
  /\ (MemoryTraceGenerator.event 0
        (Examples.load Examples.lanes_0_to_3 [0; 4; 8; 12])
        (Examples.generator true 2)
      ≫= fun this' =>
           Ok (Header.halfwarps (MemoryTraceGenerator._header this')))
     = Ok 2
  /\ (MemoryTraceGenerator.event 0
        (Examples.load Examples.lanes_6_and_7 [0; 4; 8; 12])
        (Examples.generator true 2)
      ≫= fun this' =>
           Ok (Header.halfwarps (MemoryTraceGenerator._header this')))
     = Ok 2.
Proof. repeat split; vm_compute; reflexivity. Qed.

(** X16. A load, store or texture fetch that the loops can pass returns
    with [global_segments] advanced by at most the number of addresses
    and by at least the advance of [halfwarps], when the counters do not
    wrap; and by at least one when there is a first address and it is
    not [2^64 - 1], the initial [starting_address]. The address space of
    the instruction plays no part: accesses to any space count into
    [global_segments]. *)
Theorem event_segments_bounds (fuel : nat) (e : TraceEvent.t)
    (this : MemoryTraceGenerator.t) :
  let n := Z.of_nat (length (TraceEvent.memory_addresses e)) in
  let segments := Header.global_segments (MemoryTraceGenerator._header this) in
  let halfwarps := Header.halfwarps (MemoryTraceGenerator._header this) in
  Segments.traceable fuel e this ->
  (forall n, Instruction.opcode (TraceEvent.instruction e) <> OtherOpcode n) ->
  0 <= segments -> 0 <= halfwarps ->
  segments + n < 2 ^ 64 -> halfwarps + n < 2 ^ 64 ->
  exists this',
    MemoryTraceGenerator.event fuel e this = Ok this'
    /\ 0 <= Header.halfwarps (MemoryTraceGenerator._header this') - halfwarps
    /\ Header.halfwarps (MemoryTraceGenerator._header this') - halfwarps
       <= Header.global_segments (MemoryTraceGenerator._header this')
          - segments
    /\ Header.global_segments (MemoryTraceGenerator._header this') - segments
       <= n
    /\ (forall a,
          head (TraceEvent.memory_addresses e) = Some a -> a <> 2 ^ 64 - 1 ->
          1 <= Header.global_segments (MemoryTraceGenerator._header this')
               - segments).
Proof.
  intros n segments halfwarps. subst n segments halfwarps.
  intros Htr Hop Hs Hh Hsn Hhn.
  destruct (event_counts fuel e this Htr Hop) as (this' & He & _ & Hg & Hw).
  exists this'. split; [exact He|]. rewrite Hg, Hw.
  pose proof (counted_length fuel e this Htr) as Hlen.
  pose proof (lane_numbers_length fuel e this Htr) as Hids.
  destruct Htr as (Hsz & _).
  unfold Segments.counted in *.
  set (l := zip _ _) in *.
  pose proof (count_bounds (Segments.halfwarpSize this) l
                (Header.global_segments (MemoryTraceGenerator._header this),
                 Header.halfwarps (MemoryTraceGenerator._header this),
                 u64 (-1))) as Hb.
  cbn [fst snd] in Hb. rewrite Hlen in Hb.
  specialize (Hb Hs Hh Hsn Hhn).
  split; [lia|]. split; [lia|]. split; [lia|].
  intros a Ha Hne. subst l.
  destruct (TraceEvent.memory_addresses e) as [|a' addresses]; [discriminate|].
  injection Ha as ->.
  destruct (TraceEvent.memory_sizes e) as [|size sizes];
    [simpl in Hsz; lia|].
  destruct (Segments.lane_numbers e this) as [|x xs]; [discriminate|].
  simpl zip in *. simpl in Hlen.
  apply (count_first (Segments.halfwarpSize this) x a size
           (zip xs (zip addresses sizes))
           (Header.global_segments (MemoryTraceGenerator._header this),
            Header.halfwarps (MemoryTraceGenerator._header this),
            u64 (-1)));
    cbn [fst snd]; try assumption.
  - injection Hlen as ->. exact Hsn.
  - injection Hlen as ->. exact Hhn.
  - intros <-. apply Hne. reflexivity.
Qed.

Lemma event_segments_bounds_witness :
  exists this',
    MemoryTraceGenerator.event 9 (Examples.load Examples.lanes_6_and_7 [0; 4])
      (Examples.generator false 8) = Ok this'
    /\ 0 <= Header.halfwarps (MemoryTraceGenerator._header this') - 0
    /\ Header.halfwarps (MemoryTraceGenerator._header this') - 0
       <= Header.global_segments (MemoryTraceGenerator._header this') - 0
    /\ Header.global_segments (MemoryTraceGenerator._header this') - 0 <= 2
    /\ (forall a,
          head [0; 4] = Some a -> a <> 2 ^ 64 - 1 ->
          1 <= Header.global_segments (MemoryTraceGenerator._header this')
               - 0).
Proof.
  apply (event_segments_bounds 9
           (Examples.load Examples.lanes_6_and_7 [0; 4])
           (Examples.generator false 8)).
  - unfold Segments.traceable. simpl.
    split; [lia|]. split; [lia|]. intros _.
    split; [eexists; reflexivity|]. repeat split; lia.
  - intros n. discriminate.
  - simpl. lia.
  - simpl. lia.
  - simpl. lia.
  - simpl. lia.
Defined.

(** X17. A load, store or texture fetch whose addresses follow one
    another without a gap (each the previous address plus the previous
    size, sizes positive, no wrap) and whose lanes are all within the
    lower half warp counts [ceil(n / 2)] segments for [n] addresses, not
    one: a lane that continues the segment leaves [starting_address] at
    its own address, so the lane after it starts a new segment.
    [halfwarps] is unchanged. *)
Theorem coalesced_run_counts_half (fuel : nat) (e : TraceEvent.t)
    (this : MemoryTraceGenerator.t) (a : Z) :
  Segments.traceable fuel e this ->
  (forall n, Instruction.opcode (TraceEvent.instruction e) <> OtherOpcode n) ->
  TraceEvent.memory_addresses e
  = Segments.contiguous a (TraceEvent.memory_sizes e) ->
  Forall (fun size => 0 < size) (TraceEvent.memory_sizes e) ->
  0 <= a -> a + sumZ id (TraceEvent.memory_sizes e) < 2 ^ 64 ->
  Forall (fun x => x <= Segments.halfwarpSize this)
    (Segments.lane_numbers e this) ->
  0 <= Header.global_segments (MemoryTraceGenerator._header this) < 2 ^ 64 ->
  exists this',
    MemoryTraceGenerator.event fuel e this = Ok this'
    /\ Header.global_segments (MemoryTraceGenerator._header this')
       = u64 (Header.global_segments (MemoryTraceGenerator._header this)
              + (Z.of_nat (length (TraceEvent.memory_addresses e)) + 1) / 2)
    /\ Header.halfwarps (MemoryTraceGenerator._header this')
       = Header.halfwarps (MemoryTraceGenerator._header this).
Proof.
  intros Htr Hop Hadr Hpos Ha Hfit Hlow Hs.
  destruct (event_counts fuel e this Htr Hop) as (this' & He & _ & Hg & Hw).
  exists this'. split; [exact He|]. rewrite Hg, Hw.
  pose proof (lane_numbers_length fuel e this Htr) as Hids.
  unfold Segments.counted. rewrite Hadr in Hids |- *.
  assert (Hlen : forall sizes b,
             length (Segments.contiguous b sizes) = length sizes).
  { induction sizes as [|s sizes IH]; intros b; simpl; auto. }
  rewrite Hlen in Hids |- *.
  destruct (count_contiguous (Segments.halfwarpSize this)
              (TraceEvent.memory_sizes e) (Segments.lane_numbers e this) a
              (Header.global_segments (MemoryTraceGenerator._header this),
               Header.halfwarps (MemoryTraceGenerator._header this),
               u64 (-1))) as (Hh' & Hs'); auto.
  cbn [fst snd] in Hh', Hs'. rewrite Hh', Hs'. split; [|reflexivity].
  destruct (Z.eqb_spec (u64 (-1)) a) as [Heq|]; [|reflexivity].
  destruct (TraceEvent.memory_sizes e) as [|size sizes]; [reflexivity|].
  apply Forall_cons in Hpos as [Hsize Hpos].
  pose proof (sumZ_positive sizes Hpos) as Hsum.
  change (sumZ id (size :: sizes)) with (size + sumZ id sizes) in Hfit.
  change (u64 (-1)) with (2 ^ 64 - 1) in Heq. lia.
Qed.

Lemma coalesced_run_counts_half_witness :
  exists this',
    MemoryTraceGenerator.event 9
      (Examples.load Examples.lanes_0_to_3 [0; 4; 8; 12])
      (Examples.generator false 8) = Ok this'
    /\ Header.global_segments (MemoryTraceGenerator._header this')
       = u64 (0 + (Z.of_nat (length [0; 4; 8; 12]) + 1) / 2)
    /\ Header.halfwarps (MemoryTraceGenerator._header this') = 0.
Proof.
  apply (coalesced_run_counts_half 9
           (Examples.load Examples.lanes_0_to_3 [0; 4; 8; 12])
           (Examples.generator false 8) 0).
  - unfold Segments.traceable. simpl.
    split; [lia|]. split; [lia|]. intros _.
    split; [eexists; reflexivity|]. repeat split; lia.
  - intros n. discriminate.
  - reflexivity.
  - simpl. repeat constructor.
  - lia.
  - vm_compute. reflexivity.
  - vm_compute. repeat constructor; intros H; discriminate H.
  - simpl. lia.
Defined.

(** ** A trace session *)

Section SessionFacts.

Import MemoryTraceGenerator.

#[local] Arguments Header.address : simpl never.
#[local] Arguments Header.access : simpl never.
#[local] Arguments coalesce : simpl never.

Lemma address_launch space addr h :
  Session.launch_members (Header.address space addr h)
  = Session.launch_members h.
Proof.
  destruct h. unfold Header.address, Header.extrema.
  destruct space; try reflexivity; simpl;
    destruct (global_min_address =? 0), (addr <? global_min_address); simpl;
    destruct (global_max_address =? 0), (global_max_address <? addr);
    reflexivity.
Qed.

Lemma access_launch space bytes h :
  Session.launch_members (Header.access space bytes h)
  = Session.launch_members h.
Proof. destruct h, space; reflexivity. Qed.

Lemma addresses_launch space l : forall h,
  Session.launch_members (Header.addresses space l h)
  = Session.launch_members h.
Proof.
  unfold Header.addresses.
  induction l as [|a l IH]; intros h; simpl; [reflexivity|].
  rewrite IH. apply address_launch.
Qed.

Lemma forget_segments_launch h :
  Session.launch_members (Runs.forget_segments h) = Session.launch_members h.
Proof. destruct h. reflexivity. Qed.

(** An event leaves the members that [initialize] assigns. *)
Lemma event_launch fuel e this this' :
  event fuel e this = Ok this' ->
  Session.launch_members (_header this')
  = Session.launch_members (_header this).
Proof.
  intros H. apply event_summary in H.
  apply (f_equal Session.launch_members) in H.
  rewrite !forget_segments_launch in H. rewrite H.
  unfold Summary.summary.
  assert (Hc : Session.launch_members (_header (count_dynamic e this))
               = Session.launch_members (_header this))
    by (destruct this as [? ? ? [] ? ?]; reflexivity).
  destruct (Instruction.opcode _);
    rewrite ?access_launch, ?addresses_launch; exact Hc.
Qed.

(** The members of the generator that no event assigns, and the path of
    the archive. *)
Let fixed (g : t) : string * bool * TraceEntry.t * option string :=
  (database g, headerOnly g, _entry g, Stream.path <$> _file g).

Lemma coalesce_fixed halfwarpSize addr size s :
  fixed (coalesce halfwarpSize addr size s).1 = fixed s.1.
Proof.
  destruct s as [g l]. unfold coalesce.
  destruct (_ <? _); [reflexivity|]. destruct (negb _); reflexivity.
Qed.

Lemma record_lane_fixed fuel e copies addr size s s' :
  record_lane fuel e copies addr size s = Ok s' -> fixed s'.1 = fixed s.1.
Proof.
  destruct s as [g l]. unfold record_lane.
  destruct (headerOnly g) eqn:Hh; [intros [= <-]; reflexivity|].
  destruct (skip_inactive _ _ _ _); simpl; [|discriminate].
  intros [= <-]. reflexivity.
Qed.

Lemma ldst_lane_fixed fuel e halfwarpSize addr size s s' :
  ldst_lane fuel e halfwarpSize addr size s = Ok s' -> fixed s'.1 = fixed s.1.
Proof.
  unfold ldst_lane.
  destruct (record_lane fuel e 1 addr size s) as [[g l]|] eqn:Hr;
    cbn [mbind outcome_bind]; [|discriminate].
  apply record_lane_fixed in Hr. intros [= <-].
  rewrite coalesce_fixed. exact Hr.
Qed.

Lemma tex_lane_fixed fuel e halfwarpSize addr size s s' :
  tex_lane fuel e halfwarpSize addr size s = Ok s' -> fixed s'.1 = fixed s.1.
Proof.
  unfold tex_lane.
  destruct (record_lane fuel e 4 addr size s) as [[g l]|] eqn:Hr;
    cbn [mbind outcome_bind]; [|discriminate].
  apply record_lane_fixed in Hr. intros [= <-].
  rewrite coalesce_fixed. exact Hr.
Qed.

Lemma trace_accesses_fixed e space body this this' :
  (forall hw a sz s s', body hw a sz s = Ok s' -> fixed s'.1 = fixed s.1) ->
  trace_accesses e space body this = Ok this' -> fixed this' = fixed this.
Proof.
  intros Hbody. unfold trace_accesses.
  set (this0 := if headerOnly this then this else set_event _ this).
  assert (H0 : fixed this0 = fixed this)
    by (subst this0; destruct (headerOnly this); reflexivity).
  destruct (lanes _ _ _ _) as [[this1 l]|] eqn:Hl; simpl; [|discriminate].
  apply (lanes_preserves (fun g => fixed g = fixed this)) in Hl.
  - simpl in Hl. destruct (headerOnly this1).
    + intros [= <-]. exact Hl.
    + unfold serialize. simpl. destruct (_file this1) eqn:Hf; [|discriminate].
      intros [= <-]. rewrite <- Hl. unfold fixed. simpl. rewrite Hf.
      reflexivity.
  - intros a sz s s' Hs Hb. rewrite (Hbody _ _ _ _ _ Hb). exact Hs.
  - exact H0.
Qed.

Lemma event_fixed fuel e this this' :
  event fuel e this = Ok this' -> fixed this' = fixed this.
Proof.
  unfold event.
  assert (Hc : fixed (count_dynamic e this) = fixed this) by reflexivity.
  destruct (Instruction.opcode _); intros H.
  - apply trace_accesses_fixed in H; [congruence|].
    intros hw. apply ldst_lane_fixed.
  - apply trace_accesses_fixed in H; [congruence|].
    intros hw. apply ldst_lane_fixed.
  - apply trace_accesses_fixed in H; [congruence|].
    intros hw. apply tex_lane_fixed.
  - injection H as <-. exact Hc.
Qed.

Lemma events_session fuel es : forall this this',
  events fuel es this = Ok this' ->
  database this' = database this /\ headerOnly this' = headerOnly this
  /\ _entry this' = _entry this
  /\ Stream.path <$> _file this' = Stream.path <$> _file this
  /\ Session.launch_members (_header this')
     = Session.launch_members (_header this).
Proof.
  induction es as [|e es IH]; intros this this'; simpl.
  - intros [= <-]. auto.
  - destruct (event fuel e this) as [g|] eqn:He; simpl; [|discriminate].
    intros H. destruct (IH _ _ H) as (-> & -> & -> & -> & ->).
    pose proof (event_fixed _ _ _ _ He) as Hf. unfold fixed in Hf.
    injection Hf as -> -> -> ->.
    rewrite (event_launch _ _ _ _ He). auto.
Qed.

End SessionFacts.

(** X18. A session whose trace file and header file open and whose
    events return: [initialize] closes an archive that was left open and
    does nothing else for it; [finish] then registers the entry of the
    new session in the database, closes the access log, which is at the
    path of the entry and is empty in header-only mode, and writes to
    the header path a header in which the launch members are those
    assigned by [initialize] (block dimensions, [thread_count] from
    [maxThreadsPerBlock], the mode, [global_extent] from [extent]) and
    the dynamic counters are the number of events and the number of
    active lanes, modulo [2^64], whatever the generator counted before.
    The generator ends without an archive. The static counter, an
    [unsigned int], is one higher modulo [2^32]: the session that finds
    it at [2^32 - 1] leaves it at 0, and the next session reuses the
    paths of the first. *)
Theorem session_writes_header (host : Host.t) (counter : Z)
    (launch : Launch.t) (fuel : nat) (es : list TraceEvent.t) (w : World.t)
    (this g1 : MemoryTraceGenerator.t) :
  let entry := Session.entry host counter launch this in
  0 <= counter < 2 ^ 32 ->
  World.opens w (TraceEntry.path entry) = true ->
  World.opens w (TraceEntry.header entry) = true ->
  MemoryTraceGenerator.events fuel es
    (Session.initialized host counter launch this) = Ok g1 ->
  exists log h g2,
    Session.session host counter launch fuel es w this
    = Ok (g2, u32 (counter + 1),
          World.mk (World.opens w)
            (World.performed (Session.abandon w this)
             ++ [UpdateDatabase (MemoryTraceGenerator.database this) entry;
                 CloseTrace log;
                 WriteHeader (TraceEntry.header entry) h]))
    /\ World.performed (Session.abandon w this)
       = World.performed w
         ++ match MemoryTraceGenerator._file this with
            | Some old => [CloseTrace old]
            | None => []
            end
    /\ MemoryTraceGenerator._file g2 = None
    /\ Stream.path log = TraceEntry.path entry
    /\ (MemoryTraceGenerator.headerOnly this = true -> Stream.written log = [])
    /\ Session.launch_members h
       = Session.launch_members (Session.fresh_header launch this)
    /\ Header.dynamic_instructions h = u64 (Z.of_nat (length es))
    /\ Header.dynamic_operations h = u64 (Runs.operations es).
Proof.
  intros entry Hcounter Htrace Hheader Hev.
  assert (Hopens : World.opens (Session.abandon w this) = World.opens w)
    by (unfold Session.abandon;
        destruct (MemoryTraceGenerator._file this); reflexivity).
  destruct (events_session fuel es _ _ Hev) as (Hd & Hm & He & Hp & Hl).
  destruct (events_dynamic fuel es _ _ Hev) as (Hi & Ho).
  destruct (events_dynamic_range fuel es _ _ Hev) as (Hir & Hor);
    [simpl; lia..|].
  rewrite u64_small in Hi, Ho by assumption.
  cbn [Session.initialized MemoryTraceGenerator.database
       MemoryTraceGenerator.headerOnly MemoryTraceGenerator._entry
       MemoryTraceGenerator._file MemoryTraceGenerator._header
       Session.fresh_header Header.dynamic_instructions
       Header.dynamic_operations fmap option_fmap option_map Stream.path]
    in Hd, Hm, He, Hp, Hl, Hi, Ho.
  fold entry in He, Hp.
  destruct (MemoryTraceGenerator._file g1) as [log|] eqn:Hlog;
    [|discriminate].
  injection Hp as Hp.
  exists log, (MemoryTraceGenerator._header g1),
    (MemoryTraceGenerator.set_file None g1).
  split.
  - unfold Session.session, Session.initialize. fold entry.
    rewrite Hopens, Htrace. cbn [mbind outcome_bind]. rewrite Hev.
    cbn [mbind outcome_bind]. unfold MemoryTraceGenerator.finish.
    rewrite Hlog. cbn [MemoryTraceGenerator._entry
      MemoryTraceGenerator.set_file MemoryTraceGenerator._header
      MemoryTraceGenerator.database World.perform World.opens
      World.performed].
    rewrite He, Hd, Hopens, Hheader. cbn [mbind outcome_bind].
    unfold World.perform. cbn [World.opens World.performed].
    rewrite Hopens, <- !app_assoc. reflexivity.
  - split.
    { unfold Session.abandon.
      destruct (MemoryTraceGenerator._file this); simpl;
        [reflexivity|rewrite app_nil_r; reflexivity]. }
    split; [reflexivity|]. split; [exact Hp|]. split.
    { intros Hmode.
      destruct (events_headerOnly_record_nothing fuel es
                  (Session.initialized host counter launch this) g1)
        as (_ & Hf); [exact Hmode|exact Hev|].
      rewrite Hlog in Hf. simpl in Hf. injection Hf as ->. reflexivity. }
    split; [exact Hl|]. split; [rewrite Hi|rewrite Ho]; f_equal; lia.
Qed.

Lemma session_writes_header_witness :
  exists log h g2,
    Session.session Inputs.host (2 ^ 32 - 1) Inputs.launch 9
      [Examples.load Examples.lanes_6_and_7 [0; 4]] Examples.world
      (Inputs.created true)
    = Ok (g2, u32 (2 ^ 32 - 1 + 1),
          World.mk (World.opens Examples.world)
            (World.performed
               (Session.abandon Examples.world (Inputs.created true))
             ++ [UpdateDatabase
                   (MemoryTraceGenerator.database (Inputs.created true))
                   (Session.entry Inputs.host (2 ^ 32 - 1) Inputs.launch
                      (Inputs.created true));
                 CloseTrace log;
                 WriteHeader
                   (TraceEntry.header
                      (Session.entry Inputs.host (2 ^ 32 - 1) Inputs.launch
                         (Inputs.created true))) h]))
    /\ World.performed (Session.abandon Examples.world (Inputs.created true))
       = World.performed Examples.world
         ++ match MemoryTraceGenerator._file (Inputs.created true) with
            | Some old => [CloseTrace old]
            | None => []
            end
    /\ MemoryTraceGenerator._file g2 = None
    /\ Stream.path log
       = TraceEntry.path
           (Session.entry Inputs.host (2 ^ 32 - 1) Inputs.launch (Inputs.created true))
    /\ (MemoryTraceGenerator.headerOnly (Inputs.created true) = true ->
        Stream.written log = [])
    /\ Session.launch_members h
       = Session.launch_members
           (Session.fresh_header Inputs.launch (Inputs.created true))
    /\ Header.dynamic_instructions h
       = u64 (Z.of_nat
                (length [Examples.load Examples.lanes_6_and_7 [0; 4]]))
    /\ Header.dynamic_operations h
       = u64 (Runs.operations [Examples.load Examples.lanes_6_and_7 [0; 4]]).
Proof.
  eapply (session_writes_header Inputs.host (2 ^ 32 - 1) Inputs.launch 9
            [Examples.load Examples.lanes_6_and_7 [0; 4]] Examples.world
            (Inputs.created true)).
  - lia.
  - reflexivity.
  - reflexivity.
  - vm_compute. reflexivity.
Defined.

(** The paths of the example sessions: the first session of a process,
    the session that finds the counter at its last value, and the
    counter that this session leaves. *)
Example session_paths :
  Session.entry Inputs.host 0 Inputs.launch (Inputs.created true)
  = TraceEntry.mk "k" "k.ptx" MemoryTraceFormat "/tmp/k_3_0.trace"
      "/tmp/k_3_0.header"
  /\ Session.entry Inputs.host (2 ^ 32 - 1) Inputs.launch
       (Inputs.created true)
     = TraceEntry.mk "k" "k.ptx" MemoryTraceFormat
         "/tmp/k_3_4294967295.trace" "/tmp/k_3_4294967295.header"
  /\ u32 (2 ^ 32 - 1 + 1) = 0.
Proof. repeat split; vm_compute; reflexivity. Qed.

(** ** The stages of the instrumentor together *)

Section Stages.

Import BasicBlockInstrumentor.

(** [createPass] assigns [entries] and nothing else. *)
Lemma createPass_stage this this1 pass :
  createPass this = Ok (this1, pass) ->
  this1 = set_entries (if type this =? memoryIntensity then 2 else 1) this
  /\ BasicBlockInstrumentationPass.entries pass = entries this1.
Proof.
  intros H.
  destruct (Z.eq_dec (type this) executionCount) as [He|He].
  { rewrite (createPass_executionCount this He) in H. injection H as <- <-.
    rewrite He. destruct this. auto. }
  destruct (Z.eq_dec (type this) instructionCount) as [Hi|Hi].
  { rewrite (createPass_instructionCount this Hi) in H. injection H as <- <-.
    rewrite Hi. destruct this. auto. }
  destruct (Z.eq_dec (type this) memoryIntensity) as [Hm|Hm].
  { rewrite (createPass_memoryIntensity this Hm) in H. injection H as <- <-.
    rewrite Hm. destruct this. auto. }
  rewrite (createPass_unset this He Hi Hm) in H. discriminate.
Qed.

(** The boundary labels and the other labels of a graph make up its
    blocks. *)
Lemma boundary_split (l : list string) :
  (length (filter (fun l => is_boundary l = true) l)
   + length (filter (fun l => is_boundary l = false) l)
   = length l)%nat.
Proof.
  induction l as [|x l IH]; [reflexivity|].
  rewrite !filter_cons.
  destruct (is_boundary x) eqn:Hx;
    repeat case_decide; simpl; try congruence; lia.
Qed.

End Stages.

(** X19. The stages fit together. For a named kernel whose control-flow
    graph has the blocks of its dataflow graph, two of them boundary
    blocks, an instrumentor without labels and a launch geometry in
    [unsigned int]: after [createPass], [analyze] returns; the pass has
    the entries of the instrumentor, two for [memoryIntensity] and one
    otherwise; [initialize], when the runtime calls succeed, allocates
    eight bytes for each of [entries * (blocks - 2) * threadBlocks *
    threads] counters; and [extractResults] on as many counters returns
    and appends the report of those counters. No stage leaves a
    condition of a later stage open. *)
Theorem instrumentation_stages (runtime : cuda.Runtime) (symbol : string)
    (module : Module_.t) (kernel : Kernel.t)
    (this this1 : BasicBlockInstrumentor.t)
    (pass : BasicBlockInstrumentationPass.t) (devPtr : Z) (info : list Z)
    (fuel : nat) (out : list item) :
  let E := if BasicBlockInstrumentor.type this =? memoryIntensity
           then 2 else 1 in
  let B := Kernel.dfg_size kernel - 2 in
  let K := BasicBlockInstrumentor.threadBlocks this in
  let T := BasicBlockInstrumentor.threads this in
  let bytes := 8 * (E * B * K * T) in
  BasicBlockInstrumentor.createPass this = Ok (this1, pass) ->
  BasicBlockInstrumentor.kernelName this <> EmptyString ->
  Module_.kernels module !! BasicBlockInstrumentor.kernelName this
  = Some kernel ->
  BasicBlockInstrumentor.labels this = [] ->
  Kernel.dfg_size kernel = Z.of_nat (length (Kernel.cfg kernel)) ->
  Kernel.dfg_size kernel < 2 ^ 32 ->
  length (filter (fun l => BasicBlockInstrumentor.is_boundary l = true)
            (Kernel.cfg kernel)) = 2%nat ->
  0 <= K < 2 ^ 32 -> 0 <= T < 2 ^ 32 ->
  bytes < 2 ^ 64 ->
  cuda.malloc runtime bytes = Some devPtr ->
  cuda.memset runtime devPtr 0 bytes = true ->
  cuda.memcpyToSymbol runtime symbol devPtr 8 0 = true ->
  Z.of_nat (length info) = E * B * K * T ->
  (Z.to_nat (Z.max K (Z.max B T)) < fuel)%nat ->
  exists this2 this3 this4,
    BasicBlockInstrumentationPass.entries pass = E
    /\ BasicBlockInstrumentor.analyze module this1 = Ok this2
    /\ BasicBlockInstrumentor.entries this2 = E
    /\ BasicBlockInstrumentor.basicBlocks this2 = B
    /\ Initialize.initialize runtime symbol this2
       = ([cuda.cudaMalloc bytes; cuda.cudaMemset devPtr 0 bytes;
           cuda.cudaMemcpyToSymbol symbol devPtr 8 0], Ok this3)
    /\ BasicBlockInstrumentor.extractResults fuel info this3 out
       = Ok (this4, out ++ Report.report info this3, info).
Proof.
  intros E B K T bytes Hpass Hname Hk Hl Hsize Hfit32 Htwo HK HT Hfit
    Hmalloc Hmemset Hcopy Hlen Hfuel.
  destruct (createPass_stage this this1 pass Hpass) as (-> & Hentries).
  pose proof (boundary_split (Kernel.cfg kernel)) as Hsplit.
  set (this1 := BasicBlockInstrumentor.set_entries E this) in *.
  assert (Hname1 : BasicBlockInstrumentor.kernelName this1 <> EmptyString)
    by exact Hname.
  assert (Hk1 : Module_.kernels module
                !! BasicBlockInstrumentor.kernelName this1 = Some kernel)
    by exact Hk.
  pose proof (analyze_named module this1 kernel Hname1 Hk1) as Han.
  rewrite u32_u64, u32_small in Han by lia. fold B in Han.
  set (this2 := BasicBlockInstrumentor.set_labels _ _) in Han.
  assert (Hrep : BasicBlockInstrumentor.representable this2).
  { unfold BasicBlockInstrumentor.representable. subst this2 this1. simpl.
    fold K T. subst E B. destruct (_ =? _); lia. }
  assert (HE2 : BasicBlockInstrumentor.entries this2 = E) by reflexivity.
  assert (HB2 : BasicBlockInstrumentor.basicBlocks this2 = B) by reflexivity.
  assert (HK2 : BasicBlockInstrumentor.threadBlocks this2 = K) by reflexivity.
  assert (HT2 : BasicBlockInstrumentor.threads this2 = T) by reflexivity.
  assert (Hty2 : BasicBlockInstrumentor.type this2
                 = BasicBlockInstrumentor.type this) by reflexivity.
  assert (Hlab2 : BasicBlockInstrumentor.labels this2
                  = filter (fun l => BasicBlockInstrumentor.is_boundary l
                                     = false) (Kernel.cfg kernel)).
  { subst this2 this1. simpl. rewrite Hl. reflexivity. }
  pose proof (initialize_succeeds runtime symbol this2 devPtr) as Hinit.
  cbv zeta in Hinit. rewrite HE2, HB2, HK2, HT2 in Hinit.
  unfold BasicBlockInstrumentor.totalElements in Hinit. fold bytes in Hinit.
  specialize (Hinit Hrep Hfit Hmalloc Hmemset Hcopy).
  set (this3 := Initialize.set_counter devPtr this2) in *.
  destruct (extractResults_prints fuel info this3 out) as (this4 & Hx).
  - exact Hrep.
  - change (0 < E). subst E. destruct (_ =? _); lia.
  - change (BasicBlockInstrumentor.type this = memoryIntensity -> 2 <= E).
    intros Hm. subst E. rewrite Hm. simpl. lia.
  - exact Hlen.
  - rewrite Hlen. subst bytes. lia.
  - change (B <= Z.of_nat (length (BasicBlockInstrumentor.labels this2))).
    rewrite Hlab2. subst B. lia.
  - exact Hfuel.
  - exists this2, this3, this4. rewrite Hentries. auto 10.
Qed.

Lemma instrumentation_stages_witness :
  exists this2 this3 this4,
    BasicBlockInstrumentationPass.entries
      (BasicBlockInstrumentationPass.mk MemoryIntensityPass 2) = 2
    /\ BasicBlockInstrumentor.analyze Examples.module1
         (BasicBlockInstrumentor.set_entries 2
            (BasicBlockInstrumentor.set_entries 1
               (Examples.instrumentor "k" memoryIntensity))) = Ok this2
    /\ BasicBlockInstrumentor.entries this2 = 2
    /\ BasicBlockInstrumentor.basicBlocks this2 = 5 - 2
    /\ Initialize.initialize Inputs.runtime "counterBase" this2
       = ([cuda.cudaMalloc 384; cuda.cudaMemset 4096 0 384;
           cuda.cudaMemcpyToSymbol "counterBase" 4096 8 0], Ok this3)
    /\ BasicBlockInstrumentor.extractResults 5 Examples.counters this3 []
       = Ok (this4, [] ++ Report.report Examples.counters this3,
             Examples.counters).
Proof.
  apply (instrumentation_stages Inputs.runtime "counterBase" Examples.module1
           Examples.kernel3 (Examples.instrumentor "k" memoryIntensity)
           (BasicBlockInstrumentor.set_entries 2
              (BasicBlockInstrumentor.set_entries 1
                 (Examples.instrumentor "k" memoryIntensity)))
           (BasicBlockInstrumentationPass.mk MemoryIntensityPass 2)
           4096 Examples.counters 5 []).
  - reflexivity.
  - discriminate.
  - reflexivity.
  - reflexivity.
  - reflexivity.
  - simpl. lia.
  - reflexivity.
  - simpl. lia.
  - simpl. lia.
  - vm_compute. reflexivity.
  - reflexivity.
  - reflexivity.
  - reflexivity.
  - reflexivity.
  - simpl. lia.
Defined.

(** ** The offsets of the kernel arguments *)

Section ArgumentOffsets.

Import vir vir.ExecutableKernel.

Variable layout : Layout.t.

Lemma align_spec size alignment :
  0 < alignment -> 0 <= size -> size + alignment < 2 ^ 32 ->
  exists size',
    align size alignment = Ok size'
    /\ size <= size' < size + alignment /\ size' mod alignment = 0.
Proof.
  intros Ha Hs Hfit. unfold align.
  destruct (Z.eqb_spec alignment 0); [lia|].
  pose proof (Z.mod_pos_bound size alignment Ha) as Hm.
  pose proof (Z.div_mod size alignment ltac:(lia)) as Hd.
  destruct (Z.eqb_spec (size mod alignment) 0) as [H0|H0].
  - rewrite Z.add_0_r, u32_small by lia. eexists. split; [reflexivity|].
    split; [lia|exact H0].
  - rewrite (u32_small (alignment - _)) by lia.
    rewrite u32_small by lia. eexists. split; [reflexivity|].
    split; [lia|].
    replace (size + (alignment - size mod alignment))
      with ((size / alignment + 1) * alignment) by lia.
    apply Z.mod_mul. lia.
Qed.

Lemma padded_cons p arguments :
  padded layout (p :: arguments)
  = u32 (Layout.getAlignment layout p) + u32 (Layout.getSize layout p)
    + padded layout arguments.
Proof. reflexivity. Qed.

Lemma padded_nonneg arguments : 0 <= padded layout arguments.
Proof.
  induction arguments as [|p arguments IH]; [reflexivity|].
  rewrite padded_cons.
  pose proof (u32_range (Layout.getAlignment layout p)).
  pose proof (u32_range (Layout.getSize layout p)). lia.
Qed.

Hypothesis Hstable : stable layout.

Lemma stable_offset v p :
  Layout.getAlignment layout (Parameter_.set_offset v p)
  = Layout.getAlignment layout p
  /\ Layout.getSize layout (Parameter_.set_offset v p)
     = Layout.getSize layout p
  /\ Layout.getElementSize layout (Parameter_.set_offset v p)
     = Layout.getElementSize layout p.
Proof. apply Hstable; reflexivity. Qed.

(** The loop lays the arguments out one after the other. *)
Lemma map_offsets_laid_out : forall arguments start,
  Forall (fun p => u32 (Layout.getAlignment layout p) <> 0) arguments ->
  0 <= start -> start + padded layout arguments < 2 ^ 32 ->
  exists arguments' size,
    map_offsets layout arguments start = Ok (arguments', size)
    /\ Forall2 (fun p p' => p' = Parameter_.set_offset (Parameter_.offset p') p)
         arguments arguments'
    /\ laid_out layout arguments' start size
    /\ start <= size <= start + padded layout arguments.
Proof.
  induction arguments as [|it arguments IH]; intros start Hal Hs Hfit.
  - exists [], start. simpl. repeat split; auto; try lia.
    unfold padded. simpl. lia.
  - apply Forall_cons in Hal as [Ha Hal]. rewrite padded_cons in Hfit.
    pose proof (padded_nonneg arguments) as Hp.
    pose proof (u32_range (Layout.getAlignment layout it)) as Har.
    pose proof (u32_range (Layout.getSize layout it)) as Hsr.
    destruct (align_spec start (u32 (Layout.getAlignment layout it)))
      as (size1 & Halign & Hsize1 & Hmod); [lia..|].
    simpl map_offsets. rewrite Halign. cbn [mbind outcome_bind].
    destruct (stable_offset size1 it) as (Hga & Hgs & _).
    rewrite Hgs. rewrite (u32_small (size1 + _)) by lia.
    destruct (IH (size1 + u32 (Layout.getSize layout it)))
      as (arguments' & size & Hmap & Hsame & Hlaid & Hsize);
      [exact Hal|lia|lia|].
    rewrite Hmap. cbn [mbind outcome_bind fst snd].
    eexists _, _. split; [reflexivity|]. split.
    { constructor; [reflexivity|exact Hsame]. }
    split.
    { simpl laid_out. rewrite Hga, Hgs. simpl Parameter_.offset.
      repeat split; try lia; assumption. }
    rewrite padded_cons. lia.
Qed.

(** An alignment of zero leaves the loop at the remainder. *)
Lemma map_offsets_zero_alignment : forall arguments start,
  Exists (fun p => u32 (Layout.getAlignment layout p) = 0) arguments ->
  map_offsets layout arguments start = Fault Undefined.
Proof.
  clear Hstable.
  induction arguments as [|it arguments IH]; intros start Hex.
  - apply Exists_nil in Hex. contradiction.
  - simpl. unfold align at 1.
    destruct (Z.eqb_spec (u32 (Layout.getAlignment layout it)) 0) as [H0|H0];
      [reflexivity|].
    apply Exists_cons in Hex as [Hex|Hex]; [contradiction|].
    cbn [mbind outcome_bind]. rewrite (IH _ Hex). reflexivity.
Qed.

End ArgumentOffsets.

(** X20. For member functions of the parameters that do not read the
    offset or the values, alignments that are not zero and a padded
    size within [unsigned int], [mapArgumentOffsets] returns, changes of
    the arguments their offsets only, and lays them out in order: each
    offset is the least multiple of the alignment of its argument at or
    after the end of the argument before, the first end being 0; the
    size returned is the end of the last argument. *)
Theorem mapArgumentOffsets_lays_out (layout : vir.Layout.t)
    (arguments : list vir.Parameter_.t) :
  vir.ExecutableKernel.stable layout ->
  Forall (fun p => u32 (vir.Layout.getAlignment layout p) <> 0) arguments ->
  vir.ExecutableKernel.padded layout arguments < 2 ^ 32 ->
  exists arguments' size,
    vir.ExecutableKernel.mapArgumentOffsets layout arguments
    = Ok (arguments', size)
    /\ Forall2
         (fun p p' =>
            p' = vir.Parameter_.set_offset (vir.Parameter_.offset p') p)
         arguments arguments'
    /\ vir.ExecutableKernel.laid_out layout arguments' 0 size
    /\ size <= vir.ExecutableKernel.padded layout arguments.
Proof.
  intros Hstable Hal Hfit.
  destruct (map_offsets_laid_out layout Hstable arguments 0)
    as (arguments' & size & Hmap & Hsame & Hlaid & Hsize);
    [exact Hal|lia|lia|].
  exists arguments', size. repeat split; auto. lia.
Qed.

Lemma mapArgumentOffsets_lays_out_witness :
  exists arguments' size,
    vir.ExecutableKernel.mapArgumentOffsets Inputs.layout Inputs.arguments
    = Ok (arguments', size)
    /\ Forall2
         (fun p p' =>
            p' = vir.Parameter_.set_offset (vir.Parameter_.offset p') p)
         Inputs.arguments arguments'
    /\ vir.ExecutableKernel.laid_out Inputs.layout arguments' 0 size
    /\ size <= vir.ExecutableKernel.padded Inputs.layout Inputs.arguments.
Proof.
  apply (mapArgumentOffsets_lays_out Inputs.layout Inputs.arguments).
  - intros p q Hn Ht Hl. simpl. rewrite Ht, Hl. auto.
  - repeat constructor; discriminate.
  - vm_compute. reflexivity.
Defined.

(** The offsets of the example: 0, 4 and 16, in 24 bytes. *)
Example arguments_offsets :
  (vir.ExecutableKernel.mapArgumentOffsets Inputs.layout Inputs.arguments
   ≫= fun r => Ok (map vir.Parameter_.offset r.1, r.2))
  = Ok ([0; 4; 16], 24).
Proof. vm_compute. reflexivity. Qed.

(** X21. When an argument has the alignment zero, [mapArgumentOffsets]
    divides by it: there is no result, whatever the other arguments
    are, and [setArgumentBlock], which starts with
    [mapArgumentOffsets], reads no byte of the block. *)
Theorem mapArgumentOffsets_zero_alignment (layout : vir.Layout.t)
    (arguments : list vir.Parameter_.t) (parameter : list Z) (size : Z) :
  Exists (fun p => u32 (vir.Layout.getAlignment layout p) = 0) arguments ->
  vir.ExecutableKernel.mapArgumentOffsets layout arguments = Fault Undefined
  /\ vir.ExecutableKernel.setArgumentBlock layout parameter size arguments
     = Fault Undefined.
Proof.
  intros Hex. unfold vir.ExecutableKernel.setArgumentBlock,
    vir.ExecutableKernel.mapArgumentOffsets.
  rewrite (map_offsets_zero_alignment layout arguments 0 Hex).
  split; reflexivity.
Qed.

Lemma mapArgumentOffsets_zero_alignment_witness :
  vir.ExecutableKernel.mapArgumentOffsets
    (vir.Layout.mk (fun _ => 0) (fun _ => 4) (fun _ => 4)) Inputs.arguments
  = Fault Undefined
  /\ vir.ExecutableKernel.setArgumentBlock
       (vir.Layout.mk (fun _ => 0) (fun _ => 4) (fun _ => 4)) [] 0
       Inputs.arguments
     = Fault Undefined.
Proof.
  apply (mapArgumentOffsets_zero_alignment
           (vir.Layout.mk (fun _ => 0) (fun _ => 4) (fun _ => 4))
           Inputs.arguments [] 0).
  left. reflexivity.
Defined.

(** ** The argument block *)

Section ByteFacts.

Import vir.

Lemma le_bytes_length k : forall v, length (Bytes.le_bytes k v) = k.
Proof. induction k as [|k IH]; intros v; simpl; [|rewrite IH]; reflexivity. Qed.

Lemma le_value_bytes k : forall v,
  Bytes.le_value (Bytes.le_bytes k v) = v mod 2 ^ (8 * Z.of_nat k).
Proof.
  induction k as [|k IH]; intros v.
  - simpl. rewrite Z.mod_1_r. reflexivity.
  - simpl Bytes.le_bytes. simpl Bytes.le_value.
    change (foldr (fun b acc => b + 256 * acc) 0 (Bytes.le_bytes k (v / 256)))
      with (Bytes.le_value (Bytes.le_bytes k (v / 256))).
    rewrite IH.
    replace (2 ^ (8 * Z.of_nat (S k))) with (256 * 2 ^ (8 * Z.of_nat k)).
    + rewrite Z.rem_mul_r by lia. reflexivity.
    + replace (8 * Z.of_nat (S k)) with (8 + 8 * Z.of_nat k) by lia.
      rewrite Z.pow_add_r by lia. reflexivity.
Qed.

(** Storing the low bytes of a value into it leaves the value. *)
Lemma store_low_same k v : Bytes.store_low (Bytes.le_bytes k v) v = v.
Proof.
  unfold Bytes.store_low. rewrite le_bytes_length, le_value_bytes.
  pose proof (Z.div_mod v (2 ^ (8 * Z.of_nat k))) as H.
  assert (0 < 2 ^ (8 * Z.of_nat k)) by (apply Z.pow_pos_nonneg; lia).
  lia.
Qed.

Lemma read_ok block rel k :
  0 <= rel -> 0 <= k -> rel + k <= Z.of_nat (length block) ->
  Bytes.read block rel k
  = Ok (take (Z.to_nat k) (drop (Z.to_nat rel) block)).
Proof.
  intros Hr Hk Hfit. unfold Bytes.read.
  destruct (Z.ltb_spec rel 0); [lia|]. destruct (Z.ltb_spec k 0); [lia|].
  destruct (Z.ltb_spec (Z.of_nat (length block)) (rel + k)); [lia|].
  reflexivity.
Qed.

Lemma write_ok block rel bytes :
  0 <= rel -> rel + Z.of_nat (length bytes) <= Z.of_nat (length block) ->
  Bytes.write block rel bytes
  = Ok (take (Z.to_nat rel) block ++ bytes
        ++ drop (Z.to_nat rel + length bytes) block).
Proof.
  intros Hr Hfit. unfold Bytes.write.
  destruct (Z.ltb_spec rel 0); [lia|].
  destruct (Z.ltb_spec (Z.of_nat (length block))
              (rel + Z.of_nat (length bytes))); [lia|].
  reflexivity.
Qed.

(** A block with bytes stored at a position. *)
Let stored (rel : nat) (bytes block : list Z) : list Z :=
  take rel block ++ bytes ++ drop (rel + length bytes) block.

Lemma stored_length rel bytes block :
  (rel + length bytes <= length block)%nat ->
  length (stored rel bytes block) = length block.
Proof.
  intros H. unfold stored. rewrite !length_app, length_take, length_drop.
  lia.
Qed.

Lemma stored_same rel bytes block :
  (rel + length bytes <= length block)%nat ->
  take (length bytes) (drop rel (stored rel bytes block)) = bytes.
Proof.
  intros H. unfold stored.
  rewrite drop_app_length' by (rewrite length_take; lia).
  rewrite take_app_length. reflexivity.
Qed.

Lemma stored_below rel bytes block rel2 k2 :
  (rel + length bytes <= length block)%nat -> (rel2 + k2 <= rel)%nat ->
  take k2 (drop rel2 (stored rel bytes block)) = take k2 (drop rel2 block).
Proof.
  intros H H2. unfold stored.
  rewrite drop_app_le by (rewrite length_take; lia).
  rewrite take_app_le by (rewrite length_drop, length_take; lia).
  rewrite <- (take_drop rel block) at 2.
  rewrite drop_app_le by (rewrite length_take; lia).
  rewrite take_app_le by (rewrite length_drop, length_take; lia).
  reflexivity.
Qed.

Lemma stored_above rel bytes block b :
  (rel + length bytes <= length block)%nat -> (rel + length bytes <= b)%nat ->
  drop b (stored rel bytes block) = drop b block.
Proof.
  intros H Hb. unfold stored.
  rewrite drop_app_ge by (rewrite length_take; lia).
  rewrite length_take.
  rewrite drop_app_ge by lia.
  rewrite drop_drop. f_equal. lia.
Qed.

(** What a store leaves of a block. *)
Lemma write_spec block rel bytes :
  0 <= rel -> rel + Z.of_nat (length bytes) <= Z.of_nat (length block) ->
  exists block',
    Bytes.write block rel bytes = Ok block'
    /\ length block' = length block
    /\ Bytes.read block' rel (Z.of_nat (length bytes)) = Ok bytes
    /\ (forall rel2 k2,
          0 <= rel2 -> 0 <= k2 -> rel2 + k2 <= rel ->
          Bytes.read block' rel2 k2 = Bytes.read block rel2 k2)
    /\ (forall b,
          rel + Z.of_nat (length bytes) <= b ->
          drop (Z.to_nat b) block' = drop (Z.to_nat b) block).
Proof.
  intros Hr Hfit. rewrite write_ok by assumption.
  fold (stored (Z.to_nat rel) bytes block).
  assert (Hn : (Z.to_nat rel + length bytes <= length block)%nat) by lia.
  pose proof (stored_length _ _ _ Hn) as Hlen.
  eexists. split; [reflexivity|]. split; [exact Hlen|]. split.
  { rewrite read_ok by lia. rewrite Nat2Z.id. f_equal.
    apply stored_same. exact Hn. }
  split.
  { intros rel2 k2 H2 Hk2 Hb. rewrite !read_ok by lia. f_equal.
    apply stored_below; [exact Hn|lia]. }
  intros b Hb. apply stored_above; [exact Hn|lia].
Qed.

End ByteFacts.

Section BlockFacts.

Import vir vir.ExecutableKernel.

Variable layout : Layout.t.

(** The element size of a parameter, as the loops read it. *)
Let elem (p : Parameter_.t) : Z := u32 (Layout.getElementSize layout p).

(** A parameter whose elements fit a value and whose values fit its
    size. *)
Let fits (p : Parameter_.t) : Prop :=
  elem p <= 8
  /\ elem p * Z.of_nat (length (Parameter_.arrayValues p))
     <= u32 (Layout.getSize layout p).

(** The block holds the values of a parameter from position [i] on. *)
Let holds (block : list Z) (p : Parameter_.t) (i : nat) : Prop :=
  forall j v,
    (i <= j)%nat -> Parameter_.arrayValues p !! j = Some v ->
    Bytes.read block (Parameter_.offset p + elem p * Z.of_nat j) (elem p)
    = Ok (Bytes.le_bytes (Z.to_nat (elem p)) v).

Lemma elem_nonneg p : 0 <= elem p.
Proof. unfold elem. apply u32_range. Qed.

(** The values of one parameter are stored one after the other, and
    nothing else is written. *)
Lemma get_values_spec elementSize : forall values block ptr,
  0 <= elementSize <= 8 -> 0 <= ptr ->
  ptr + elementSize * Z.of_nat (length values) <= Z.of_nat (length block) ->
  exists block',
    get_values block elementSize values ptr = Ok block'
    /\ length block' = length block
    /\ (forall rel k,
          0 <= rel -> 0 <= k -> rel + k <= ptr ->
          Bytes.read block' rel k = Bytes.read block rel k)
    /\ (forall b,
          ptr + elementSize * Z.of_nat (length values) <= b ->
          drop (Z.to_nat b) block' = drop (Z.to_nat b) block)
    /\ (forall j v,
          values !! j = Some v ->
          Bytes.read block' (ptr + elementSize * Z.of_nat j) elementSize
          = Ok (Bytes.le_bytes (Z.to_nat elementSize) v)).
Proof.
  intros values.
  induction values as [|val values IH]; intros block ptr He Hp Hfit.
  - exists block. simpl. repeat split; auto. intros j v H. discriminate.
  - simpl length in Hfit. simpl get_values.
    destruct (Z.ltb_spec 8 elementSize); [lia|].
    destruct (write_spec block ptr
                (Bytes.le_bytes (Z.to_nat elementSize) val))
      as (block1 & -> & Hlen1 & Hsame1 & Hbelow1 & Habove1);
      [lia|rewrite le_bytes_length;
           pose proof (Z.mul_nonneg_nonneg elementSize
                         (Z.of_nat (length values))); lia|].
    rewrite le_bytes_length, Z2Nat.id in Hsame1, Habove1 by lia.
    cbn [mbind outcome_bind].
    destruct (IH block1 (ptr + elementSize))
      as (block' & -> & Hlen & Hbelow & Habove & Hin);
      [lia|lia|rewrite Hlen1; lia|].
    exists block'. split; [reflexivity|]. split; [congruence|]. split.
    { intros rel k Hr Hk Hb. rewrite Hbelow by lia. apply Hbelow1; lia. }
    split.
    { simpl length. intros b Hb. rewrite Habove by lia. apply Habove1.
      pose proof (Z.mul_nonneg_nonneg elementSize (Z.of_nat (length values))).
      lia. }
    intros [|j] v Hj.
    + injection Hj as <-. rewrite Z.mul_0_r, Z.add_0_r.
      rewrite Hbelow by lia. exact Hsame1.
    + simpl in Hj. specialize (Hin j v Hj).
      replace (ptr + elementSize * Z.of_nat (S j))
        with (ptr + elementSize + elementSize * Z.of_nat j) by lia.
      exact Hin.
Qed.

Lemma laid_out_end : forall arguments start size,
  laid_out layout arguments start size -> start <= size.
Proof.
  induction arguments as [|p arguments IH]; intros start size; simpl.
  - intros ->. lia.
  - intros (Ho & _ & Hl). apply IH in Hl.
    pose proof (u32_range (Layout.getSize layout p)). lia.
Qed.

(** The arguments are stored at their offsets, in order, and nothing is
    written before the first or after the last. *)
Lemma get_arguments_spec : forall arguments block start size offset,
  laid_out layout arguments start size -> 0 <= start ->
  Forall fits arguments -> size <= Z.of_nat (length block) ->
  exists block' offset',
    get_arguments layout block arguments offset = Ok (block', offset')
    /\ length block' = length block
    /\ (forall rel k,
          0 <= rel -> 0 <= k -> rel + k <= start ->
          Bytes.read block' rel k = Bytes.read block rel k)
    /\ (forall b,
          size <= b -> drop (Z.to_nat b) block' = drop (Z.to_nat b) block)
    /\ Forall (fun p => holds block' p 0) arguments
    /\ offset'
       = match last arguments with
         | Some p => u64 (Parameter_.offset p + elem p)
         | None => offset
         end.
Proof.
  induction arguments as [|p arguments IH];
    intros block start size offset Hlaid Hs Hfits Hsize.
  - exists block, offset. simpl. repeat split; auto.
  - simpl in Hlaid. destruct Hlaid as (Ho & _ & Hlaid).
    apply Forall_cons in Hfits as [(He & Hn) Hfits].
    pose proof (laid_out_end _ _ _ Hlaid) as Hend.
    pose proof (elem_nonneg p) as He0.
    simpl get_arguments. fold (elem p).
    destruct (get_values_spec (elem p) (Parameter_.arrayValues p) block
                (Parameter_.offset p))
      as (block1 & -> & Hlen1 & Hbelow1 & Habove1 & Hin1); [lia..|].
    cbn [mbind outcome_bind].
    destruct (IH block1
                (Parameter_.offset p + u32 (Layout.getSize layout p)) size
                (u64 (Parameter_.offset p + elem p)))
      as (block' & offset' & -> & Hlen & Hbelow & Habove & Hholds & Hoff);
      [exact Hlaid|lia|exact Hfits|lia|].
    exists block', offset'. split; [reflexivity|]. split; [congruence|].
    split.
    { intros rel k Hr Hk Hb. rewrite Hbelow by lia. apply Hbelow1; lia. }
    split.
    { intros b Hb. rewrite Habove by lia. apply Habove1. lia. }
    split.
    { constructor; [|exact Hholds].
      intros j v _ Hj. rewrite Hbelow.
      - apply Hin1. exact Hj.
      - pose proof (Z.mul_nonneg_nonneg (elem p) (Z.of_nat j)). lia.
      - exact He0.
      - apply lookup_lt_Some in Hj.
        assert (elem p * Z.of_nat j + elem p
                <= elem p * Z.of_nat (length (Parameter_.arrayValues p)))
          by nia.
        lia. }
    rewrite Hoff, last_cons. destruct (last arguments); reflexivity.
Qed.

(** Values that the block holds are read back as they are. *)
Lemma set_values_holds parameter size : forall remaining i it,
  (remaining + i = length (Parameter_.arrayValues it))%nat ->
  holds parameter it i -> elem it <= 8 ->
  Parameter_.offset it
  + elem it * Z.of_nat (length (Parameter_.arrayValues it)) <= size ->
  0 <= Parameter_.offset it -> size < 2 ^ 64 ->
  set_values layout parameter size remaining i it
    (Parameter_.offset it + elem it * Z.of_nat i)
  = Ok it.
Proof.
  induction remaining as [|remaining IH];
    intros i it Hlen Hholds He Hsize Ho Hfit; [reflexivity|].
  pose proof (elem_nonneg it) as He0.
  simpl set_values. fold (elem it).
  assert (Hi : (i < length (Parameter_.arrayValues it))%nat) by lia.
  destruct (lookup_lt_is_Some_2 _ _ Hi) as [v Hv].
  assert (Hnext : elem it * Z.of_nat i + elem it
                  <= elem it * Z.of_nat (length (Parameter_.arrayValues it)))
    by nia.
  pose proof (Z.mul_nonneg_nonneg (elem it) (Z.of_nat i)) as Hpos.
  rewrite u64_small by lia.
  destruct (Z.leb_spec (Parameter_.offset it + elem it * Z.of_nat i + elem it)
              size); [|lia].
  cbn [negb]. destruct (Z.ltb_spec 8 (elem it)); [lia|].
  rewrite (Hholds i v (le_n i) Hv). cbn [mbind outcome_bind].
  unfold at_index. destruct (Z.ltb_spec (Z.of_nat i) 0); [lia|].
  rewrite Nat2Z.id, Hv. cbn [mbind outcome_bind].
  rewrite store_low_same, list_insert_id by exact Hv.
  replace (Parameter_.set_arrayValues (Parameter_.arrayValues it) it)
    with it by (destruct it; reflexivity).
  fold (elem it).
  replace (Parameter_.offset it + elem it * Z.of_nat i + elem it)
    with (Parameter_.offset it + elem it * Z.of_nat (S i)) by lia.
  apply IH; try assumption; [lia|].
  intros j w Hj. apply Hholds. lia.
Qed.

Lemma set_arguments_holds parameter size : forall arguments start last,
  laid_out layout arguments start last -> 0 <= start -> last <= size ->
  Forall fits arguments ->
  Forall (fun p => holds parameter p 0) arguments ->
  size < 2 ^ 64 ->
  set_arguments layout parameter size arguments = Ok arguments.
Proof.
  induction arguments as [|p arguments IH];
    intros start last Hlaid Hs Hlast Hfits Hholds Hfit; [reflexivity|].
  simpl in Hlaid. destruct Hlaid as (Ho & _ & Hlaid).
  apply Forall_cons in Hfits as [(He & Hn) Hfits].
  apply Forall_cons in Hholds as [Hp Hholds].
  pose proof (laid_out_end _ _ _ Hlaid) as Hend.
  pose proof (u32_range (Layout.getSize layout p)) as Hgs.
  simpl set_arguments.
  pose proof (set_values_holds parameter size
                (length (Parameter_.arrayValues p)) 0 p) as Hset.
  rewrite Z.mul_0_r, Z.add_0_r in Hset.
  rewrite Hset; [|lia|exact Hp|exact He|lia|lia|exact Hfit].
  cbn [mbind outcome_bind].
  rewrite (IH (Parameter_.offset p + u32 (Layout.getSize layout p)) last);
    auto; try lia; reflexivity.
Qed.

Lemma fits_offset (Hstable : stable layout) arguments arguments' :
  Forall2 (fun p p' => p' = Parameter_.set_offset (Parameter_.offset p') p)
    arguments arguments' ->
  Forall fits arguments -> Forall fits arguments'.
Proof.
  induction 1 as [|p p' arguments arguments' Hp _ IH]; intros Hf;
    [constructor|].
  apply Forall_cons in Hf as [(He & Hn) Hf].
  constructor; [|apply IH; exact Hf].
  rewrite Hp. unfold fits, elem in *.
  destruct (Hstable (Parameter_.set_offset (Parameter_.offset p') p) p)
    as (_ & -> & ->); try reflexivity.
  split; assumption.
Qed.

(** The block after [getArgumentBlock], read by [setArgumentBlock]. *)
Lemma block_round_trip (Hstable : stable layout) arguments arguments' size
    block maxSize :
  Forall (fun p => u32 (Layout.getAlignment layout p) <> 0) arguments ->
  padded layout arguments < 2 ^ 32 ->
  Forall fits arguments ->
  mapArgumentOffsets layout arguments = Ok (arguments', size) ->
  size <= Z.of_nat (length block) ->
  Z.of_nat (length block) < 2 ^ 64 ->
  exists block' offset,
    getArgumentBlock layout block maxSize arguments' = Ok (block', offset)
    /\ length block' = length block
    /\ drop (Z.to_nat size) block' = drop (Z.to_nat size) block
    /\ offset
       = match last arguments' with
         | Some p => u64 (Parameter_.offset p + elem p)
         | None => 0
         end
    /\ setArgumentBlock layout block' (Z.of_nat (length block')) arguments
       = Ok arguments'.
Proof.
  intros Hal Hpad Hfits Hmap0 Hblock Hfit.
  destruct (map_offsets_laid_out layout Hstable arguments 0)
    as (arguments1 & size1 & Hmap & Hsame & Hlaid & Hsize);
    [exact Hal|lia|lia|].
  unfold mapArgumentOffsets in Hmap0. rewrite Hmap in Hmap0.
  injection Hmap0 as -> ->.
  pose proof (fits_offset Hstable _ _ Hsame Hfits) as Hfits'.
  destruct (get_arguments_spec arguments' block 0 size 0)
    as (block' & offset & Hget & Hlen & _ & Habove & Hholds & Hoff);
    [exact Hlaid|lia|exact Hfits'|lia|].
  exists block', offset.
  split; [exact Hget|]. split; [exact Hlen|].
  split; [apply Habove; lia|]. split; [exact Hoff|].
  unfold setArgumentBlock, mapArgumentOffsets in *. rewrite Hmap.
  cbn [mbind outcome_bind fst].
  apply (set_arguments_holds block' (Z.of_nat (length block')) arguments' 0
           size); auto; lia.
Qed.



Hypothesis Hstable : stable layout.









End BlockFacts.

(** X22. What [getArgumentBlock] stores, [setArgumentBlock] reads back.
    For arguments with alignments that are not zero, elements of at most
    eight bytes, values that fit the size of their parameter, and a
    block that has room for the mapped size: [getArgumentBlock] on
    the arguments with their offsets returns, keeps the length of the
    block and every byte from the mapped size on, and returns the offset
    of the last parameter plus one element size (0 without arguments);
    [setArgumentBlock] on the block it leaves returns the arguments with
    the same values. *)
Theorem argument_block_round_trip (layout : vir.Layout.t)
    (arguments arguments' : list vir.Parameter_.t) (size : Z)
    (block : list Z) (maxSize : Z) :
  vir.ExecutableKernel.stable layout ->
  Forall (fun p => u32 (vir.Layout.getAlignment layout p) <> 0) arguments ->
  vir.ExecutableKernel.padded layout arguments < 2 ^ 32 ->
  Forall (vir.ExecutableKernel.fits layout) arguments ->
  vir.ExecutableKernel.mapArgumentOffsets layout arguments
  = Ok (arguments', size) ->
  size <= Z.of_nat (length block) ->
  Z.of_nat (length block) < 2 ^ 64 ->
  exists block' offset,
    vir.ExecutableKernel.getArgumentBlock layout block maxSize arguments'
    = Ok (block', offset)
    /\ length block' = length block
    /\ drop (Z.to_nat size) block' = drop (Z.to_nat size) block
    /\ offset
       = match last arguments' with
         | Some p =>
             u64 (vir.Parameter_.offset p
                  + u32 (vir.Layout.getElementSize layout p))
         | None => 0
         end
    /\ vir.ExecutableKernel.setArgumentBlock layout block'
         (Z.of_nat (length block')) arguments
       = Ok arguments'.
Proof.
  intros Hstable Hal Hpad Hfits Hmap Hblock Hfit.
  apply block_round_trip; assumption.
Qed.

Lemma argument_block_round_trip_witness :
  exists block' offset,
    vir.ExecutableKernel.getArgumentBlock Inputs.layout (replicate 24 255) 8
      Inputs.mapped
    = Ok (block', offset)
    /\ length block' = length (replicate 24 255)
    /\ drop (Z.to_nat 24) block' = drop (Z.to_nat 24) (replicate 24 255)
    /\ offset
       = match last Inputs.mapped with
         | Some p =>
             u64 (vir.Parameter_.offset p
                  + u32 (vir.Layout.getElementSize Inputs.layout p))
         | None => 0
         end
    /\ vir.ExecutableKernel.setArgumentBlock Inputs.layout block'
         (Z.of_nat (length block')) Inputs.arguments
       = Ok Inputs.mapped.
Proof.
  apply (argument_block_round_trip Inputs.layout Inputs.arguments
           Inputs.mapped 24 (replicate 24 255) 8).
  - intros p q Hn Ht Hl. simpl. rewrite Ht, Hl. auto.
  - repeat constructor; discriminate.
  - vm_compute. reflexivity.
  - repeat constructor; vm_compute; discriminate.
  - vm_compute. reflexivity.
  - vm_compute. discriminate.
  - vm_compute. reflexivity.
Defined.

(** The block of the example after [getArgumentBlock]: the padding keeps
    what the block held. *)
Example argument_block_bytes :
  (vir.ExecutableKernel.mapArgumentOffsets Inputs.layout Inputs.arguments
   ≫= fun r =>
        vir.ExecutableKernel.getArgumentBlock Inputs.layout
          (replicate 24 255) 8 r.1)
  = Ok ([7; 255; 255; 255; 2; 1; 0; 0; 3; 0; 0; 0; 255; 255; 255; 255;
         5; 0; 0; 0; 0; 1; 0; 0], 24).
Proof. vm_compute. reflexivity. Qed.



(** ** traceEvent *)

(** A pointer that is not in the list is found no time in it. *)
Lemma filter_absent (id : nat) (generators : list nat) :
  id ∉ generators -> filter (fun x => x = id) generators = [].
Proof.
  induction generators as [|x l IHl]; intros Hnot; [reflexivity|].
  rewrite filter_cons. destruct (decide (x = id)) as [->|_].
  - destruct Hnot. apply list_elem_of_here.
  - apply IHl. intros Hel. apply Hnot. apply list_elem_of_further. exact Hel.
Qed.

Section TraceEventFacts.

Import MemoryTraceGenerator.

Variables (fuel : nat) (e : TraceEvent.t).

Hypothesis Hfuel : (length (TraceEvent.active e) < fuel)%nat.
Hypothesis Hlanes : Z.of_nat (length (TraceEvent.active e)) < 2 ^ 32.

(** An event leaves a generator able to take the event again. *)
Lemma event_well_formed g g' :
  well_formed e g -> event fuel e g = Ok g' -> well_formed e g'.
Proof.
  intros (Hs & Hrec) He. pose proof (event_fixed _ _ _ _ He) as Hf.
  injection Hf as _ Hh _ Hp.
  split; [exact Hs|]. rewrite Hh. intros Hmode.
  destruct (Hrec Hmode) as ([log Hlog] & Hn). split; [|exact Hn].
  rewrite Hlog in Hp. destruct (_file g'); [eauto|discriminate].
Qed.

(** How often a generator is attached. *)
Let attached (id : nat) (generators : list nat) : nat :=
  length (filter (fun x => x = id) generators).

Lemma traceEvent_events : forall generators heap,
  Forall (fun id => is_Some (heap !! id)) generators ->
  Forall (well_formed e) heap ->
  exists heap',
    vir.ExecutableKernel.traceEvent fuel e generators heap = Ok heap'
    /\ length heap' = length heap
    /\ Forall (well_formed e) heap'
    /\ forall id g,
         heap !! id = Some g ->
         exists g',
           heap' !! id = Some g'
           /\ events fuel (replicate (attached id generators) e) g = Ok g'.
Proof.
  induction generators as [|x generators IH]; intros heap Hin Hwf.
  - exists heap. simpl. repeat split; auto.
    intros id g Hg. exists g. auto.
  - apply Forall_cons in Hin as [[g Hx] Hin].
    simpl. rewrite Hx.
    pose proof (Forall_lookup_1 _ _ _ _ Hwf Hx) as Hg.
    destruct (event_returns fuel e Hfuel Hlanes g Hg) as [g1 He].
    rewrite He. cbn [mbind outcome_bind].
    pose proof (event_well_formed g g1 Hg He) as Hg1.
    destruct (IH (<[x := g1]> heap)) as (heap' & -> & Hlen & Hwf' & Hall).
    + eapply Forall_impl; [exact Hin|]. intros id [g0 Hid].
      apply lookup_lt_is_Some. rewrite length_insert.
      apply lookup_lt_Some in Hid. exact Hid.
    + apply Forall_insert; assumption.
    + exists heap'. split; [reflexivity|].
      split; [rewrite Hlen; apply length_insert|]. split; [exact Hwf'|].
      intros id g0 Hid. unfold attached. rewrite filter_cons.
      destruct (decide (x = id)) as [->|Hne].
      * rewrite Hx in Hid. injection Hid as <-.
        destruct (Hall id g1) as (g' & Hg' & Hev).
        { apply list_lookup_insert_eq. apply lookup_lt_Some in Hx. exact Hx. }
        exists g'. split; [exact Hg'|].
        simpl. rewrite He. cbn [mbind outcome_bind]. exact Hev.
      * destruct (Hall id g0) as (g' & Hg' & Hev).
        { rewrite list_lookup_insert_ne by exact Hne. exact Hid. }
        exists g'. split; [exact Hg'|exact Hev].
Qed.

(** The dynamic instruction counter after the same event, taken [n]
    times. *)
Lemma events_replicate_dynamic : forall n g g',
  events fuel (replicate n e) g = Ok g' ->
  u64 (Header.dynamic_instructions (_header g'))
  = u64 (Header.dynamic_instructions (_header g) + Z.of_nat n).
Proof.
  induction n as [|n IH]; intros g g' Hev.
  - simpl in Hev. injection Hev as <-. rewrite Z.add_0_r. reflexivity.
  - simpl in Hev. destruct (event fuel e g) as [g1|] eqn:He; [|discriminate].
    cbn [mbind outcome_bind] in Hev. rewrite (IH _ _ Hev).
    apply event_dynamic in He. unfold Header.dynamic in He.
    injection He as -> _. rewrite u64_add_l. f_equal. lia.
Qed.

End TraceEventFacts.

(** X24. [traceEvent] calls [event] on every generator attached to the
    kernel, once for each time it is attached: when every pointer of
    [_generators] refers to a generator and every generator can take the
    event, the call returns a heap of the same length in which each
    generator is exactly what [event], called on it with this event as
    many times in succession as [_generators] points to it, leaves. So a
    generator that is not attached is as it was, and the dynamic
    instruction counter of a generator has advanced by the number of
    times it is attached, modulo [2^64]. A generator is changed by its
    own calls only, so the heap does not depend on the order of the
    pointers to different generators. *)
Theorem traceEvent_delivers (fuel : nat) (e : TraceEvent.t)
    (generators : list nat) (heap : list MemoryTraceGenerator.t) :
  (length (TraceEvent.active e) < fuel)%nat ->
  Z.of_nat (length (TraceEvent.active e)) < 2 ^ 32 ->
  Forall (fun id => is_Some (heap !! id)) generators ->
  Forall (MemoryTraceGenerator.well_formed e) heap ->
  exists heap',
    vir.ExecutableKernel.traceEvent fuel e generators heap = Ok heap'
    /\ length heap' = length heap
    /\ (forall id g,
         heap !! id = Some g ->
         exists g',
           heap' !! id = Some g'
           /\ MemoryTraceGenerator.events fuel
                (replicate (length (filter (fun x => x = id) generators)) e) g
              = Ok g'
           /\ u64 (Header.dynamic_instructions (MemoryTraceGenerator._header g'))
              = u64 (Header.dynamic_instructions
                       (MemoryTraceGenerator._header g)
                     + Z.of_nat
                         (length (filter (fun x => x = id) generators)))
           /\ (id ∉ generators -> g' = g))
    /\ (forall generators',
         generators' ≡ₚ generators ->
         vir.ExecutableKernel.traceEvent fuel e generators' heap = Ok heap').
Proof.
  intros Hfuel Hlanes Hin Hwf.
  destruct (traceEvent_events fuel e Hfuel Hlanes generators heap Hin Hwf)
    as (heap' & Htr & Hlen & _ & Hall).
  exists heap'. split; [exact Htr|]. split; [exact Hlen|]. split.
  - intros id g Hg. destruct (Hall id g Hg) as (g' & Hg' & Hev).
    exists g'. split; [exact Hg'|]. split; [exact Hev|]. split.
    + eapply events_replicate_dynamic; eassumption.
    + intros Hnot.
      pose proof (filter_absent id generators Hnot) as Hnil.
      rewrite Hnil in Hev. simpl in Hev. injection Hev as <-. reflexivity.
  - intros generators' Hperm.
    destruct (traceEvent_events fuel e Hfuel Hlanes generators' heap)
      as (heap'' & Htr' & Hlen' & _ & Hall'); [|exact Hwf|].
    { rewrite Hperm. exact Hin. }
    rewrite Htr'. f_equal. apply list_eq. intros id.
    destruct (heap !! id) as [g|] eqn:Hg.
    + destruct (Hall id g Hg) as (g' & -> & Hev).
      destruct (Hall' id g Hg) as (g'' & -> & Hev').
      assert (Hn : length (filter (fun x => x = id) generators')
                   = length (filter (fun x => x = id) generators))
        by (rewrite Hperm; reflexivity).
      rewrite Hn in Hev'. rewrite Hev in Hev'. injection Hev' as ->.
      reflexivity.
    + apply lookup_ge_None in Hg.
      rewrite (proj2 (lookup_ge_None heap' id)) by lia.
      rewrite (proj2 (lookup_ge_None heap'' id)) by lia. reflexivity.
Qed.

Lemma traceEvent_delivers_witness :
  exists heap',
    vir.ExecutableKernel.traceEvent 9
      (Examples.load Examples.lanes_6_and_7 [0; 4]) [1; 0; 1]%nat
      [Examples.generator true 8; Examples.generator false 8;
       Examples.generator true 2]
    = Ok heap'
    /\ length heap'
       = length [Examples.generator true 8; Examples.generator false 8;
                 Examples.generator true 2]
    /\ (forall id g,
         [Examples.generator true 8; Examples.generator false 8;
          Examples.generator true 2] !! id = Some g ->
         exists g',
           heap' !! id = Some g'
           /\ MemoryTraceGenerator.events 9
                (replicate
                   (length (filter (fun x => x = id) [1; 0; 1]%nat))
                   (Examples.load Examples.lanes_6_and_7 [0; 4])) g
              = Ok g'
           /\ u64 (Header.dynamic_instructions (MemoryTraceGenerator._header g'))
              = u64 (Header.dynamic_instructions
                       (MemoryTraceGenerator._header g)
                     + Z.of_nat
                         (length (filter (fun x => x = id) [1; 0; 1]%nat)))
           /\ (id ∉ [1; 0; 1]%nat -> g' = g))
    /\ (forall generators',
         generators' ≡ₚ [1; 0; 1]%nat ->
         vir.ExecutableKernel.traceEvent 9
           (Examples.load Examples.lanes_6_and_7 [0; 4]) generators'
           [Examples.generator true 8; Examples.generator false 8;
            Examples.generator true 2]
         = Ok heap').
Proof.
  apply (traceEvent_delivers 9 (Examples.load Examples.lanes_6_and_7 [0; 4])
           [1; 0; 1]%nat
           [Examples.generator true 8; Examples.generator false 8;
            Examples.generator true 2]).
  - simpl. lia.
  - simpl. lia.
  - repeat constructor; eexists; reflexivity.
  - repeat constructor; simpl; try lia; try discriminate;
      try (eexists; reflexivity).
Defined.

(** The heap of the example: the generator attached twice has taken the
    event twice and the one attached once has taken it once; the
    generator that records has two lanes in its access log. *)
Example traceEvent_heap :
  (vir.ExecutableKernel.traceEvent 9
     (Examples.load Examples.lanes_6_and_7 [0; 4]) [1; 0; 1]%nat
     [Examples.generator true 8; Examples.generator false 8;
      Examples.generator true 2]
   ≫= fun heap' =>
        Ok (map (fun g => Header.dynamic_instructions
                            (MemoryTraceGenerator._header g)) heap'))
  = Ok [1; 2; 0].
Proof. vm_compute. reflexivity. Qed.

(** ** Blocks without a label *)

Lemma for_each_app {S : Type} (body : Z -> S -> outcome S) l1 l2 (s : S) :
  for_each body (l1 ++ l2) s = for_each body l1 s ≫= for_each body l2.
Proof.
  revert s. induction l1 as [|i l1 IH]; intros s; [reflexivity|].
  simpl. destruct (body i s) as [s'|]; simpl; [apply IH|reflexivity].
Qed.

(** X25. [extractResults] subscripts [labels] with every block number
    below [basicBlocks] and checks no bound: when there are fewer labels
    than basic blocks, the first block without a label is a read outside
    the vector, after the counters have been reduced. There is no
    defined result, and no exception. *)
Theorem extractResults_missing_label (fuel : nat) (info : list Z)
    (this : BasicBlockInstrumentor.t) (out : list item) :
  BasicBlockInstrumentor.representable this ->
  0 < BasicBlockInstrumentor.entries this ->
  (BasicBlockInstrumentor.type this = memoryIntensity ->
   2 <= BasicBlockInstrumentor.entries this) ->
  Z.of_nat (length info)
  = BasicBlockInstrumentor.totalElements
      (BasicBlockInstrumentor.entries this)
      (BasicBlockInstrumentor.basicBlocks this)
      (BasicBlockInstrumentor.threadBlocks this)
      (BasicBlockInstrumentor.threads this) ->
  Z.of_nat (length info) < 2 ^ 64 ->
  Z.of_nat (length (BasicBlockInstrumentor.labels this))
  < BasicBlockInstrumentor.basicBlocks this ->
  (Z.to_nat (Z.max (BasicBlockInstrumentor.threadBlocks this)
               (Z.max (BasicBlockInstrumentor.basicBlocks this)
                  (BasicBlockInstrumentor.threads this))) < fuel)%nat ->
  BasicBlockInstrumentor.extractResults fuel info this out = Fault Undefined.
Proof.
  intros Hrep HE HMI Hlen Hfit Hlabels Hfuel.
  unfold BasicBlockInstrumentor.extractResults.
  rewrite (reduce_outer info this Hrep HE HMI Hlen
             ltac:(rewrite <- Hlen; exact Hfit) fuel Hfuel).
  destruct Hrep as (_ & _ & HB & _).
  cbn [mbind outcome_bind].
  rewrite for_loop_count by lia. rewrite Z.sub_0_r.
  set (L := Z.of_nat (length (BasicBlockInstrumentor.labels this))) in *.
  replace (BasicBlockInstrumentor.basicBlocks this)
    with (L + (BasicBlockInstrumentor.basicBlocks this - L)) at 1 by lia.
  rewrite seqZ_app by lia. rewrite for_each_app.
  match goal with |- context [for_each _ (seqZ 0 L) (?p, ?o)] =>
    destruct (print_lines this (seqZ 0 L) p o) as (p' & -> & _) end.
  { intros j Hj. apply elem_of_seqZ in Hj. lia. }
  cbn [mbind outcome_bind].
  rewrite seqZ_cons by lia. simpl for_each.
  unfold BasicBlockInstrumentor.print_block at 1. unfold at_index.
  destruct (Z.ltb_spec (0 + L) 0); [lia|].
  rewrite (proj2 (lookup_ge_None _ _)) by lia. reflexivity.
Qed.

Lemma extractResults_missing_label_witness :
  BasicBlockInstrumentor.extractResults 5 Examples.counters
    (BasicBlockInstrumentor.set_labels ["BB_1"; "BB_2"]%string
       Examples.profiler) []
  = Fault Undefined.
Proof.
  apply (extractResults_missing_label 5 Examples.counters
           (BasicBlockInstrumentor.set_labels ["BB_1"; "BB_2"]%string
              Examples.profiler) []).
  - unfold BasicBlockInstrumentor.representable. simpl. lia.
  - simpl. lia.
  - simpl. lia.
  - reflexivity.
  - simpl. lia.
  - simpl. lia.
  - simpl. lia.
Defined.

(** ** Events without a size for every address *)

(** X26. A load, store or texture fetch with fewer sizes than addresses
    reads past the end of [memory_sizes] at the first address without a
    size: there is no defined result, in header-only mode and, for a
    mask that has an active lane for each of the sizes, while accesses
    are recorded. *)
Theorem event_missing_size (fuel : nat) (e : TraceEvent.t)
    (this : MemoryTraceGenerator.t) :
  (length (TraceEvent.memory_sizes e)
   < length (TraceEvent.memory_addresses e))%nat ->
  Z.of_nat (length (TraceEvent.memory_sizes e)) < 2 ^ 32 ->
  (MemoryTraceGenerator.headerOnly this = false ->
   (length (TraceEvent.memory_sizes e)
    <= length (Runs.active_lanes 0 (TraceEvent.active e)))%nat
   /\ Z.of_nat (length (TraceEvent.active e))
      <= Header.thread_count (MemoryTraceGenerator._header this)
   /\ Z.of_nat (length (TraceEvent.active e)) < 2 ^ 32
   /\ (length (TraceEvent.active e) < fuel)%nat) ->
  (forall n, Instruction.opcode (TraceEvent.instruction e) <> OtherOpcode n) ->
  MemoryTraceGenerator.event fuel e this = Fault Undefined.
Proof.
  intros Hs Hn Hrec Hop. apply event_sizes_short; assumption.
Qed.

Lemma event_missing_size_witness :
  MemoryTraceGenerator.event 9
    (TraceEvent.mk 0 (Instruction.mk St Shared) (Dim3.mk 0 0 0)
       Examples.lanes_0_to_3 [0; 4; 8] [4; 4])
    (Examples.generator false 8)
  = Fault Undefined.
Proof.
  apply (event_missing_size 9
           (TraceEvent.mk 0 (Instruction.mk St Shared) (Dim3.mk 0 0 0)
              Examples.lanes_0_to_3 [0; 4; 8] [4; 4])
           (Examples.generator false 8)).
  - simpl. lia.
  - simpl. lia.
  - intros _. simpl. repeat split; lia.
  - intros n. discriminate.
Defined.
